(** * Synthetic transaction feed generator: model and properties

    Shallow embedding of [scripts/generate_transactions.py].

    - [Decimal] values are modelled by the rational number they denote
      ([Q]), with the arithmetic of the default decimal context: sums and
      differences are rounded to 28 significant digits, half-even
      ([dec_round]), and [quantize] raises [InvalidOperation] when its
      result needs more than 28 digits.  Comparisons, [min], [int] and
      the rendering depend on the value only and are exact.  The values
      are finite: the infinities and the NaN that [Decimal(str(x))] makes
      of the floats [inf] and [nan] are outside the model.
    - The [random] module is an interface ([RandomGen]) with the laws the
      generator relies on ([RandomGenLaws]).  The state of the module-level
      generator is threaded explicitly through every function that draws.
    - Exceptions are the [Raise] outcome of [result]; the only unbounded
      recursion ([next_row] calling itself) is bounded by fuel and reports
      [Diverge] when the fuel is exhausted (the interpreter would stop at
      its recursion limit). *)

From Stdlib Require Import ZArith QArith Qround Qabs Qpower Lia Lqa.
From stdpp Require Import base option list gmap strings pretty.

Open Scope Z_scope.

(** ** Outcomes of fallible code *)

Inductive exn :=
  | ValueError (msg : string)
  | RuntimeError (msg : string)
  | KeyError
  | IndexError
  | InvalidOperation.

Inductive result (A : Type) :=
  | Ok (a : A)
  | Raise (e : exn)
  | Diverge.
Arguments Ok {A} a.
Arguments Raise {A} e.
Arguments Diverge {A}.

#[global] Instance result_ret : MRet result := @Ok.
#[global] Instance result_bind : MBind result := λ A B f m,
  match m with
  | Ok a => f a
  | Raise e => Raise e
  | Diverge => Diverge
  end.

Definition raises {A} (m : result A) : Prop := ∃ e, m = Raise e.

(** ** Decimal arithmetic *)

Abbreviation Decimal := Q.

(** [BPS = Decimal("0.0001")] *)
Definition BPS : Decimal := 1 # 10000.

Definition Qlt_bool (a b : Q) : bool := negb (Qle_bool b a).

(** Nearest integer, ties to the even neighbour (the default context's
    ROUND_HALF_EVEN). *)
Definition round_half_even (x : Q) : Z :=
  let f := Qfloor x in
  match (x - inject_Z f ?= 1 # 2)%Q with
  | Lt => f
  | Gt => f + 1
  | Eq => if Z.even f then f else f + 1
  end.

(** Nearest integer, ties away from zero (ROUND_HALF_UP). *)
Definition round_half_up (x : Q) : Z :=
  if Qle_bool 0 x then Qfloor (x + (1 # 2)) else - Qfloor (- x + (1 # 2)).

(** The precision of the default context. *)
Definition prec : Z := 28.

(** The number of decimal digits of [n > 0]; the fuel is the number of
    binary digits, which is never less. *)
Fixpoint digits_fuel (fuel : nat) (n : Z) : Z :=
  match fuel with
  | O => 0
  | S fuel' => if n <? 10 then 1 else 1 + digits_fuel fuel' (n / 10)
  end.

Definition digits (n : Z) : Z := digits_fuel (S (Z.to_nat (Z.log2 n))) n.

(** [x.adjusted()]: the exponent [e] of the leading digit of [x],
    10^e <= |x| < 10^(e+1). *)
Definition adjusted (x : Decimal) : Z :=
  let d := digits (Z.abs (Qnum x)) - digits (Zpos (Qden x)) in
  if Qle_bool (10 ^ d) (Qabs x) then d else d - 1.

(** What the context makes of an exact result: the nearest number with 28
    significant digits, ties to even; a result that has no more digits is
    left as it is. *)
Definition dec_round (x : Decimal) : Decimal :=
  let k := adjusted x - (prec - 1) in
  let y := (inject_Z (round_half_even (x / 10 ^ k)) * 10 ^ k)%Q in
  if Qeq_bool y x then x else y.

(** [a + b] and [a - b] on [Decimal] *)
Definition dec_add (a b : Decimal) : Decimal := dec_round (a + b).
Definition dec_sub (a b : Decimal) : Decimal := dec_round (a - b).

(** [x.quantize(BPS)] and [x.quantize(BPS, rounding=ROUND_HALF_UP)]: [x]
    rounded to four decimals; the operation is invalid when the result
    does not fit in [prec] digits. *)
Definition quantize (rounding : Q → Z) (x : Decimal) : result Decimal :=
  let n := rounding (x / BPS)%Q in
  if 10 ^ prec <=? Z.abs n then Raise InvalidOperation
  else Ok (inject_Z n * BPS)%Q.

(** [int(x)]: truncation towards zero *)
Definition to_int (x : Decimal) : Z := Z.quot (Qnum x) (Zpos (Qden x)).

(** python's [min(a, b)] *)
Definition dec_min (a b : Decimal) : Decimal := if Qlt_bool b a then b else a.

(** ** Sequences and dictionaries *)

(** [seq[i]], negative indices counting from the end *)
Definition list_getitem {A} (l : list A) (i : Z) : result A :=
  let n := Z.of_nat (length l) in
  let j := if i <? 0 then i + n else i in
  if (0 <=? j) && (j <? n)
  then match l !! Z.to_nat j with Some x => Ok x | None => Raise IndexError end
  else Raise IndexError.

(** [pool.remove(tx)]: drops the first occurrence *)
Fixpoint list_remove (x : Z) (l : list Z) : list Z :=
  match l with
  | [] => []
  | y :: l' => if decide (x = y) then l' else y :: list_remove x l'
  end.

(** [list(range(lo, lo + n))] *)
Fixpoint range_from (lo : Z) (n : nat) : list Z :=
  match n with
  | O => []
  | S n' => lo :: range_from (lo + 1) n'
  end.

Definition range (lo hi : Z) : list Z := range_from lo (Z.to_nat (hi - lo)).

(** A [dict] keeps its keys in insertion order; [_unlocked_clients] and
    [_funded_clients] iterate in that order. *)
Section dict.
Context {V : Type}.

Fixpoint dict_get (k : Z) (d : list (Z * V)) : option V :=
  match d with
  | [] => None
  | (k', v) :: d' => if decide (k = k') then Some v else dict_get k d'
  end.

Fixpoint dict_set (k : Z) (v : V) (d : list (Z * V)) : list (Z * V) :=
  match d with
  | [] => [(k, v)]
  | (k', v') :: d' =>
      if decide (k = k') then (k, v) :: d' else (k', v') :: dict_set k v d'
  end.

(** [d[k]] *)
Definition dict_getitem (k : Z) (d : list (Z * V)) : result V :=
  match dict_get k d with
  | Some v => Ok v
  | None => Raise KeyError
  end.
End dict.

(** ** Data model *)

Inductive Status := posted | disputed | resolved | chargeback.

Record DepositRecord := {
  client : Z;
  amount : Decimal;
  status : Status;
}.

Record ClientAccount := {
  available : Decimal;
  held : Decimal;
  locked : bool;
}.

(** [ClientAccount()] *)
Definition ClientAccount_init : ClientAccount :=
  {| available := 0%Q; held := 0%Q; locked := false |}.

Inductive Kind := Deposit | Withdrawal | Dispute | Resolve | Chargeback.

#[global] Instance Kind_eq_dec : EqDecision Kind.
Proof. solve_decision. Defined.

#[global] Instance Status_eq_dec : EqDecision Status.
Proof. solve_decision. Defined.

(** A row tuple [(type, client, tx, amount)].  The last field is [None]
    for the empty string and [Some a] for [format_amount(a)], the
    rendering of [a] with four fractional digits. *)
Definition Row : Type := Kind * Z * Z * option Decimal.

Definition row_kind (r : Row) : Kind := r.1.1.1.
Definition row_client (r : Row) : Z := r.1.1.2.
Definition row_tx (r : Row) : Z := r.1.2.
Definition row_amount (r : Row) : option Decimal := r.2.

(** The parsed command line; the amounts are [Decimal(str(args.min_amount))]
    and [Decimal(str(args.max_amount))], for finite floats. *)
Record Namespace := {
  args_rows : Z;
  args_clients : Z;
  args_min_amount : Decimal;
  args_max_amount : Decimal;
  args_seed : Z;
}.

Record FeedBuilder := {
  min_amount : Decimal;
  max_amount : Decimal;
  tx_counter : Z;
  accounts : list (Z * ClientAccount);
  deposit_records : gmap Z DepositRecord;
  posted_txs : list Z;
  disputed_txs : list Z;
}.

Definition set_accounts (s : FeedBuilder) (a : list (Z * ClientAccount)) : FeedBuilder :=
  {| min_amount := min_amount s; max_amount := max_amount s;
     tx_counter := tx_counter s; accounts := a;
     deposit_records := deposit_records s;
     posted_txs := posted_txs s; disputed_txs := disputed_txs s |}.

Definition set_tx_counter (s : FeedBuilder) (n : Z) : FeedBuilder :=
  {| min_amount := min_amount s; max_amount := max_amount s;
     tx_counter := n; accounts := accounts s;
     deposit_records := deposit_records s;
     posted_txs := posted_txs s; disputed_txs := disputed_txs s |}.

Definition set_deposit_records (s : FeedBuilder) (m : gmap Z DepositRecord) : FeedBuilder :=
  {| min_amount := min_amount s; max_amount := max_amount s;
     tx_counter := tx_counter s; accounts := accounts s;
     deposit_records := m;
     posted_txs := posted_txs s; disputed_txs := disputed_txs s |}.

Definition set_posted_txs (s : FeedBuilder) (l : list Z) : FeedBuilder :=
  {| min_amount := min_amount s; max_amount := max_amount s;
     tx_counter := tx_counter s; accounts := accounts s;
     deposit_records := deposit_records s;
     posted_txs := l; disputed_txs := disputed_txs s |}.

Definition set_disputed_txs (s : FeedBuilder) (l : list Z) : FeedBuilder :=
  {| min_amount := min_amount s; max_amount := max_amount s;
     tx_counter := tx_counter s; accounts := accounts s;
     deposit_records := deposit_records s;
     posted_txs := posted_txs s; disputed_txs := l |}.

Definition set_status (r : DepositRecord) (st : Status) : DepositRecord :=
  {| client := client r; amount := amount r; status := st |}.

(** ** The [random] module *)

(** The operations of the module-level generator that the script calls.
    [random_choices ws g] is the position drawn by
    [random.choices(population, weights=ws, k=1)]; [random_random] returns
    the float as the rational it denotes.  The laws are those of CPython's
    [random]: [_randbelow(n)] is below [n], [shuffle] permutes, and
    [choices] never draws an entry of weight zero from non-negative
    weights. *)
Class RandomGen := {
  rng : Type;
  random_seed : Z → rng;
  randbelow : Z → rng → Z * rng;
  random_random : rng → Q * rng;
  random_shuffle : list Z → rng → list Z * rng;
  random_choices : list Q → rng → nat * rng;
}.

Class RandomGenLaws (R : RandomGen) : Prop := {
  randbelow_range : ∀ n g, 0 < n → 0 ≤ (randbelow n g).1 < n;
  random_shuffle_perm : ∀ l g, (random_shuffle l g).1 ≡ₚ l;
  random_choices_positive : ∀ ws g,
    Forall (λ w, (0 <= w)%Q) ws →
    existsb (λ w, negb (Qeq_bool w 0)) ws = true →
    ∃ w, ws !! (random_choices ws g).1 = Some w ∧ Qeq_bool w 0 = false;
}.

(** ** The generator *)

Section generator.
Context {R : RandomGen}.

(** [random.randint(a, b)] *)
Definition randint (a b : Z) (g : rng) : result (Z * rng) :=
  let width := b + 1 - a in
  if 0 <? width
  then let '(k, g') := randbelow width g in Ok (a + k, g')
  else Raise (ValueError "empty range for randrange()").

(** [random.choice(seq)] *)
Definition choice (seq : list Z) (g : rng) : result (Z * rng) :=
  match seq with
  | [] => Raise IndexError
  | _ =>
      let '(i, g') := randbelow (Z.of_nat (length seq)) g in
      x ← list_getitem seq i;
      Ok (x, g')
  end.

(** The quotients by [BPS] and the product with [BPS] are exact: their
    coefficients are those of the quantized bounds and of the integer
    drawn between them, of at most [prec] digits. *)
Definition decimal_from_range (min_amount max_amount : Decimal) (g : rng)
    : result (Decimal * rng) :=
  if Qle_bool max_amount 0 then Raise (ValueError "max_amount must be > 0")
  else
    qmin ← quantize round_half_even min_amount;
    let low := to_int (qmin / BPS)%Q in
    qmax ← quantize round_half_even max_amount;
    let high := to_int (qmax / BPS)%Q in
    let high := if high <? low then low else high in
    '(n, g') ← randint low high g;
    let value := (inject_Z n * BPS)%Q in
    amount ← quantize round_half_up value;
    Ok (amount, g').

Definition _client_ids (count : Z) (g : rng) : result (list Z * rng) :=
  if negb ((1 <=? count) && (count <=? 65535))
  then Raise (ValueError "--clients must be between 1 and 65535")
  else Ok (random_shuffle (range 1 (count + 1)) g).

(** [FeedBuilder.__init__]; [g0] is the state the module-level generator
    is in when the constructor starts. *)
Definition FeedBuilder_init (args : Namespace) (g0 : rng)
    : result (FeedBuilder * rng) :=
  let min_amount := args_min_amount args in
  let max_amount := args_max_amount args in
  if Qle_bool min_amount 0
  then Raise (ValueError "--min-amount must be positive")
  else if Qle_bool max_amount min_amount
  then Raise (ValueError "--max-amount must exceed --min-amount")
  else
    '(ids, _) ← _client_ids (args_clients args) g0;
    Ok ({| min_amount := min_amount; max_amount := max_amount;
           tx_counter := 1;
           accounts := foldl (λ d cid, dict_set cid ClientAccount_init d) [] ids;
           deposit_records := ∅;
           posted_txs := []; disputed_txs := [] |},
        random_seed (args_seed args)).

Definition _unlocked_clients (s : FeedBuilder) : list Z :=
  (filter (λ ca, locked ca.2 = false) (accounts s)).*1.

Definition _funded_clients (s : FeedBuilder) : list Z :=
  (filter (λ ca, locked ca.2 = false ∧ Qle_bool (min_amount s) (available ca.2) = true)
          (accounts s)).*1.

Definition _choose_client (require_funds : bool) (s : FeedBuilder) (g : rng)
    : result (option Z * rng) :=
  let pool := if require_funds then _funded_clients s else _unlocked_clients s in
  match pool with
  | [] => Ok (None, g)
  | _ => '(cid, g') ← choice pool g; Ok (Some cid, g')
  end.

Definition _random_deposit (client_id : Z) (s : FeedBuilder) (g : rng)
    : result (Row * FeedBuilder * rng) :=
  '(amount, g') ← decimal_from_range (min_amount s) (max_amount s) g;
  account ← dict_getitem client_id (accounts s);
  let account' := {| available := dec_add (available account) amount;
                     held := held account; locked := locked account |} in
  let tx := tx_counter s in
  let s := set_accounts s (dict_set client_id account' (accounts s)) in
  let s := set_tx_counter s (tx + 1) in
  let s := set_deposit_records s
             (<[tx := {| client := client_id; amount := amount; status := posted |}]>
                (deposit_records s)) in
  let s := set_posted_txs s (posted_txs s ++ [tx]) in
  Ok ((Deposit, client_id, tx, Some amount), s, g').

Definition _random_withdrawal (client_id : Z) (s : FeedBuilder) (g : rng)
    : result (Row * FeedBuilder * rng) :=
  account ← dict_getitem client_id (accounts s);
  let max_amt := dec_min (available account) (max_amount s) in
  if Qlt_bool max_amt (min_amount s)
  then Raise (RuntimeError "Withdrawal requested without sufficient funds")
  else
    '(amount, g') ← decimal_from_range (min_amount s) max_amt g;
    let account' := {| available := dec_sub (available account) amount;
                       held := held account; locked := locked account |} in
    let tx := tx_counter s in
    let s := set_accounts s (dict_set client_id account' (accounts s)) in
    let s := set_tx_counter s (tx + 1) in
    Ok ((Withdrawal, client_id, tx, Some amount), s, g').

(** The test of [_choose_tx]: the record exists, its owner exists and is
    not locked. *)
Definition tx_eligible (s : FeedBuilder) (tx : Z) : bool :=
  match deposit_records s !! tx with
  | None => false
  | Some record =>
      match dict_get (client record) (accounts s) with
      | None => false
      | Some account => negb (locked account)
      end
  end.

(** [_choose_tx(pool)].  The loop removes one element of [pool] per
    iteration, so [fuel = length pool] iterations suffice
    ([_choose_tx_loop_terminates]).  The pool is mutated in place: the
    result carries what is left of it. *)
Fixpoint _choose_tx_loop (fuel : nat) (s : FeedBuilder) (pool : list Z) (g : rng)
    : result (option Z * list Z * rng) :=
  match pool with
  | [] => Ok (None, pool, g)
  | _ =>
      match fuel with
      | O => Diverge
      | S fuel' =>
          '(tx, g') ← choice pool g;
          if tx_eligible s tx then Ok (Some tx, pool, g')
          else _choose_tx_loop fuel' s (list_remove tx pool) g'
      end
  end.

Definition _choose_tx (s : FeedBuilder) (pool : list Z) (g : rng)
    : result (option Z * list Z * rng) :=
  _choose_tx_loop (length pool) s pool g.

(** [account.f(record.amount)] on the owner of [record], in place *)
Definition update_owner (s : FeedBuilder) (record : DepositRecord)
    (f : ClientAccount → ClientAccount) : result FeedBuilder :=
  account ← dict_getitem (client record) (accounts s);
  Ok (set_accounts s (dict_set (client record) (f account) (accounts s))).

(** [pool.remove(tx)] raises when [tx] is absent *)
Definition pool_remove (tx : Z) (pool : list Z) : result (list Z) :=
  if decide (tx ∈ pool) then Ok (list_remove tx pool)
  else Raise (ValueError "list.remove(x): x not in list").

Definition _dispute (s : FeedBuilder) (g : rng)
    : result (option Row * FeedBuilder * rng) :=
  '(otx, pool, g') ← _choose_tx s (posted_txs s) g;
  let s := set_posted_txs s pool in
  match otx with
  | None => Ok (None, s, g')
  | Some tx =>
      pool' ← pool_remove tx (posted_txs s);
      let s := set_posted_txs s pool' in
      record ← from_option Ok (Raise KeyError) (deposit_records s !! tx);
      s ← update_owner s record (λ account,
            {| available := dec_sub (available account) (amount record);
               held := dec_add (held account) (amount record);
               locked := locked account |});
      let s := set_deposit_records s
                 (<[tx := set_status record disputed]> (deposit_records s)) in
      let s := set_disputed_txs s (disputed_txs s ++ [tx]) in
      Ok (Some (Dispute, client record, tx, None), s, g')
  end.

Definition _resolve (s : FeedBuilder) (g : rng)
    : result (option Row * FeedBuilder * rng) :=
  '(otx, pool, g') ← _choose_tx s (disputed_txs s) g;
  let s := set_disputed_txs s pool in
  match otx with
  | None => Ok (None, s, g')
  | Some tx =>
      pool' ← pool_remove tx (disputed_txs s);
      let s := set_disputed_txs s pool' in
      record ← from_option Ok (Raise KeyError) (deposit_records s !! tx);
      s ← update_owner s record (λ account,
            {| available := dec_add (available account) (amount record);
               held := dec_sub (held account) (amount record);
               locked := locked account |});
      let s := set_deposit_records s
                 (<[tx := set_status record resolved]> (deposit_records s)) in
      Ok (Some (Resolve, client record, tx, None), s, g')
  end.

Definition _chargeback (s : FeedBuilder) (g : rng)
    : result (option Row * FeedBuilder * rng) :=
  '(otx, pool, g') ← _choose_tx s (disputed_txs s) g;
  let s := set_disputed_txs s pool in
  match otx with
  | None => Ok (None, s, g')
  | Some tx =>
      pool' ← pool_remove tx (disputed_txs s);
      let s := set_disputed_txs s pool' in
      record ← from_option Ok (Raise KeyError) (deposit_records s !! tx);
      s ← update_owner s record (λ account,
            {| available := available account;
               held := dec_sub (held account) (amount record);
               locked := true |});
      let s := set_deposit_records s
                 (<[tx := set_status record chargeback]> (deposit_records s)) in
      Ok (Some (Chargeback, client record, tx, None), s, g')
  end.

(** The loop shared by [_has_posted_for_unlocked] and
    [_has_disputed_for_unlocked]. *)
Fixpoint has_for_unlocked (s : FeedBuilder) (pool : list Z) : result bool :=
  match pool with
  | [] => Ok false
  | tx :: rest =>
      match deposit_records s !! tx with
      | None => has_for_unlocked s rest
      | Some record =>
          account ← dict_getitem (client record) (accounts s);
          if negb (locked account) then Ok true else has_for_unlocked s rest
      end
  end.

Definition _has_posted_for_unlocked (s : FeedBuilder) : result bool :=
  has_for_unlocked s (posted_txs s).

Definition _has_disputed_for_unlocked (s : FeedBuilder) : result bool :=
  has_for_unlocked s (disputed_txs s).

Definition _valid_actions (s : FeedBuilder) : result (list Kind) :=
  let actions : list Kind := [] in
  let unlocked := _unlocked_clients s in
  let funded := _funded_clients s in
  let actions : list Kind := if bool_decide (unlocked ≠ []) then actions ++ [Deposit] else actions in
  let actions : list Kind := if bool_decide (funded ≠ []) then actions ++ [Withdrawal] else actions in
  p ← _has_posted_for_unlocked s;
  let actions : list Kind := if (p : bool) then actions ++ [Dispute] else actions in
  d ← _has_disputed_for_unlocked s;
  let actions : list Kind := if (d : bool) then actions ++ [Resolve] else actions in
  c ← (if bool_decide (2 ≤ length unlocked)%nat
       then _has_disputed_for_unlocked s else Ok false : result bool);
  let actions : list Kind := if (c : bool) then actions ++ [Chargeback] else actions in
  Ok actions.

(** The names and weights of [action_order]; the handlers are dispatched
    on the name in [next_row]. *)
Definition action_order : list (Kind * Q) :=
  [(Deposit, 48 # 100); (Withdrawal, 28 # 100); (Dispute, 12 # 100);
   (Resolve, 10 # 100); (Chargeback, 2 # 100)]%Q.

Definition action_weights (valid : list Kind) : list Q :=
  (λ a, if bool_decide (a.1 ∈ valid) then a.2 else 0%Q) <$> action_order.

(** [any(weights)] *)
Definition any_weight (ws : list Q) : bool :=
  existsb (λ w, negb (Qeq_bool w 0)) ws.

(** The float [0.35]: 3152519739159347 / 2^53 *)
Definition chargeback_threshold : Q := 3152519739159347 # 9007199254740992.

(** The fallback of [next_row] when every weight is zero. *)
Definition fallback_deposit (s : FeedBuilder) (g : rng)
    : result (Row * FeedBuilder * rng) :=
  '(oc, g') ← _choose_client false s g;
  match oc with
  | None => Raise (RuntimeError
              "No unlocked clients available to continue generating deposits")
  | Some client_id => _random_deposit client_id s g'
  end.

Fixpoint next_row (fuel : nat) (s : FeedBuilder) (g : rng)
    : result (Row * FeedBuilder * rng) :=
  match fuel with
  | O => Diverge
  | S fuel' =>
      valid ← _valid_actions s;
      let weights := action_weights valid in
      if negb (any_weight weights) then fallback_deposit s g
      else
        let '(i, g) := random_choices weights g in
        '(name, _) ← from_option Ok (Raise IndexError) (action_order !! i);
        match name with
        | Deposit | Withdrawal =>
            '(oc, g) ← _choose_client (bool_decide (name = Withdrawal)) s g;
            match oc with
            | None => next_row fuel' s g
            | Some client_id =>
                if bool_decide (name = Withdrawal)
                then _random_withdrawal client_id s g
                else _random_deposit client_id s g
            end
        | _ =>
            let '(retry, g) :=
              if bool_decide (name = Chargeback)
              then let '(x, g) := random_random g in
                   (Qlt_bool chargeback_threshold x, g)
              else (false, g) in
            if retry then next_row fuel' s g
            else
              '(orow, s, g) ←
                match name with
                | Dispute => _dispute s g
                | Resolve => _resolve s g
                | _ => _chargeback s g
                end;
              match orow with
              | None => next_row fuel' s g
              | Some row => Ok (row, s, g)
              end
        end
  end.

(** The draw of [next_row] in state [s] selects a chargeback and the
    damping rejects it: the generator state the retry starts from. *)
Definition damping_draw (s : FeedBuilder) (g : rng) : option rng :=
  match _valid_actions s with
  | Ok valid =>
      let weights := action_weights valid in
      if negb (any_weight weights) then None
      else
        let '(i, g) := random_choices weights g in
        match action_order !! i with
        | Some (Chargeback, _) =>
            let '(x, g) := random_random g in
            if Qlt_bool chargeback_threshold x then Some g else None
        | _ => None
        end
  | _ => None
  end.

(** [n] damped chargeback draws in a row, starting from [g]. *)
Fixpoint damped_chain (n : nat) (s : FeedBuilder) (g : rng) : Prop :=
  match n with
  | O => True
  | S n' => ∃ g2, damping_draw s g = Some g2 ∧ damped_chain n' s g2
  end.

(** What [main] has written, and how it ended. *)
Inductive Line := Header | Data (row : Row).

Inductive outcome := Completed | Aborted (e : exn) | Hung.

(** The loop of [main]: [n] calls of [next_row], each row written as soon
    as it is produced.  The result is the rows written, the builder as
    the last written row left it, and how the loop ended. *)
Fixpoint write_rows (fuel n : nat) (s : FeedBuilder) (g : rng)
    : list Row * FeedBuilder * outcome :=
  match n with
  | O => ([], s, Completed)
  | S n' =>
      match next_row fuel s g with
      | Ok (row, s', g') =>
          let '(rows, s_last, o) := write_rows fuel n' s' g' in
          (row :: rows, s_last, o)
      | Raise e => ([], s, Aborted e)
      | Diverge => ([], s, Hung)
      end
  end.

Definition main (fuel : nat) (args : Namespace) (g0 : rng) : list Line * outcome :=
  match FeedBuilder_init args g0 with
  | Ok (builder, g) =>
      let total_rows := Z.max 1 (args_rows args) in
      let '(rows, _, o) := write_rows fuel (Z.to_nat (total_rows - 1)) builder g in
      (Header :: (Data <$> rows), o)
  | Raise e => ([], Aborted e)
  | Diverge => ([], Hung)
  end.

(** The event rows of the output, in emission order. *)
Definition feed (fuel : nat) (args : Namespace) (g0 : rng) : list Row :=
  omap (λ l, match l with Header => None | Data row => Some row end)
       (main fuel args g0).1.

(** The builder after [k] rows of a run, when the run gets that far. *)
Definition builder_at (fuel k : nat) (args : Namespace) (g0 : rng)
    : option FeedBuilder :=
  match FeedBuilder_init args g0 with
  | Ok (builder, g) =>
      match write_rows fuel k builder g with
      | (_, s, Completed) => Some s
      | _ => None
      end
  | _ => None
  end.

(** The builder and the state of the generator after [k] rows of the
    loop of [main], when the loop gets that far. *)
Fixpoint loop_state (fuel k : nat) (s : FeedBuilder) (g : rng)
    : option (FeedBuilder * rng) :=
  match k with
  | O => Some (s, g)
  | S k' =>
      match next_row fuel s g with
      | Ok (_, s', g') => loop_state fuel k' s' g'
      | _ => None
      end
  end.

End generator.

(** ** A scripted generator

    An instance of [RandomGen] whose draws are read off a tape, one number
    per draw; an exhausted tape yields zeros.  [random.seed(a)] loads the
    tape [seeding a].  It is used to run the model on concrete inputs. *)

Module Scripted.

Definition draw (g : list Z) : Z * list Z :=
  match g with
  | [] => (0, [])
  | x :: g' => (x, g')
  end.

Definition tape_randbelow (n : Z) (g : list Z) : Z * list Z :=
  let '(x, g') := draw g in (x `mod` n, g').

(** The draw, read as hundredths. *)
Definition tape_random (g : list Z) : Q * list Z :=
  let '(x, g') := draw g in (inject_Z (x `mod` 100) / 100, g')%Q.

(** A rotation of the list by the number drawn. *)
Definition tape_shuffle (l : list Z) (g : list Z) : list Z * list Z :=
  match l with
  | [] | [_] => (l, g)
  | _ => let '(x, g') := draw g in (rotate (Z.to_nat x) l, g')
  end.

Definition positive_positions (ws : list Q) : list nat :=
  filter (λ i, from_option (λ w, Qeq_bool w 0) true (ws !! i) = false) (seq 0 (length ws)).

(** The position of the [x]-th entry of positive weight, cyclically. *)
Definition tape_choices (ws : list Q) (g : list Z) : nat * list Z :=
  let '(x, g') := draw g in
  let ps := positive_positions ws in
  (default 0%nat (ps !! Z.to_nat (x `mod` Z.of_nat (length ps))), g').

Definition tape_rng (seeding : Z → list Z) : RandomGen :=
  {| rng := list Z;
     random_seed := seeding;
     randbelow := tape_randbelow;
     random_random := tape_random;
     random_shuffle := tape_shuffle;
     random_choices := tape_choices |}.

(** Sample command lines and tapes.  With the tape [[1]] in place when
    the constructor runs, the client ids [[1; 2]] are shuffled to
    [[2; 1]]. *)
Definition sample_args : Namespace :=
  {| args_rows := 5; args_clients := 2;
     args_min_amount := 1; args_max_amount := 10; args_seed := 7 |}.

(** deposit, withdrawal, then a dispute of the deposit, then a deposit *)
Definition overdraw_rng : RandomGen :=
  tape_rng (λ _, [0; 0; 49999; 1; 0; 30000; 2]).

(** deposit, dispute, chargeback, then a deposit on the other client *)
Definition lockout_rng : RandomGen :=
  tape_rng (λ _, [0; 0; 5; 2; 0; 2; 0; 0; 0; 0; 7]).

(** A command line whose smallest amount is finer than the grid. *)
Definition fine_args : Namespace :=
  {| args_rows := 3; args_clients := 1;
     args_min_amount := 4 # 100000; args_max_amount := 1; args_seed := 7 |}.

(** deposit of 0.0001, then a withdrawal *)
Definition fine_rng : RandomGen :=
  tape_rng (λ _, [0; 0; 1; 1; 0; 0]).

(** A builder with one open dispute: client 2 deposited 1.0005 and the
    deposit is disputed. *)
Definition disputed_builder : FeedBuilder :=
  {| min_amount := 1; max_amount := 10; tx_counter := 2;
     accounts := [(2, {| available := 0; held := 10005 # 10000; locked := false |});
                  (1, ClientAccount_init)];
     deposit_records :=
       {[ 1 := {| client := 2; amount := 10005 # 10000; status := disputed |} ]};
     posted_txs := []; disputed_txs := [1] |}.

(** A builder whose only account is locked. *)
Definition locked_builder : FeedBuilder :=
  {| min_amount := 1; max_amount := 10; tx_counter := 2;
     accounts := [(1, {| available := 0; held := 0; locked := true |})];
     deposit_records :=
       {[ 1 := {| client := 1; amount := 10005 # 10000; status := chargeback |} ]};
     posted_txs := []; disputed_txs := [] |}.

(** A command line whose largest amount, 10^24, has 29 digits at four
    decimals. *)
Definition big_args : Namespace :=
  {| args_rows := 3; args_clients := 1;
     args_min_amount := 1; args_max_amount := inject_Z (10 ^ 24);
     args_seed := 7 |}.

(** The builder that the lockout run has reached after its second row. *)
Definition after_dispute : FeedBuilder :=
  default disputed_builder
    (builder_at (R := lockout_rng) 5 2 sample_args [1]).

End Scripted.


(** ** Properties of builder states and feeds *)

(** A multiple of [BPS]. *)
Definition on_grid (x : Decimal) : Prop := ∃ n : Z, (x == inject_Z n * BPS)%Q.

Definition unlocked_in (s : FeedBuilder) (c : Z) : Prop :=
  ∃ a, dict_get c (accounts s) = Some a ∧ locked a = false.

Definition locked_in (s : FeedBuilder) (c : Z) : Prop :=
  ∃ a, dict_get c (accounts s) = Some a ∧ locked a = true.

(** A transaction of [pool] that belongs to an unlocked account. *)
Definition pool_has_unlocked (s : FeedBuilder) (pool : list Z) : Prop :=
  ∃ tx r, tx ∈ pool ∧ deposit_records s !! tx = Some r ∧ unlocked_in s (client r).

(** What transaction [tx] keeps on hold for account [c]. *)
Definition due (records : gmap Z DepositRecord) (c tx : Z) : Decimal :=
  match records !! tx with
  | Some r => if decide (client r = c) then amount r else 0%Q
  | None => 0%Q
  end.

(** What account [c] has on hold for the transactions of [pool]. *)
Definition held_due (records : gmap Z DepositRecord) (c : Z) (pool : list Z)
    : Decimal :=
  foldr (λ tx acc, (due records c tx + acc)%Q) 0%Q pool.

(** Pool membership in lockstep with the status of the deposit records. *)
Record lockstep (s : FeedBuilder) : Prop := {
  ls_once : NoDup (posted_txs s ++ disputed_txs s);
  ls_posted : ∀ tx, tx ∈ posted_txs s →
    ∃ r, deposit_records s !! tx = Some r ∧ status r = posted;
  ls_disputed : ∀ tx, tx ∈ disputed_txs s →
    ∃ r, deposit_records s !! tx = Some r ∧ status r = disputed;
  ls_closed : ∀ tx r, deposit_records s !! tx = Some r →
    status r = resolved ∨ status r = chargeback →
    (tx ∉ posted_txs s) ∧ (tx ∉ disputed_txs s);
}.

(** The invariant of the builder between two rows. *)
Record consistent (s : FeedBuilder) : Prop := {
  cs_min : (0 < min_amount s)%Q;
  cs_max : (min_amount s < max_amount s)%Q;
  cs_keys : NoDup (accounts s).*1;
  cs_owner : ∀ tx r, deposit_records s !! tx = Some r →
    is_Some (dict_get (client r) (accounts s));
  cs_alive : _unlocked_clients s ≠ [];
  cs_counter : 1 ≤ tx_counter s;
  cs_fresh : ∀ tx, is_Some (deposit_records s !! tx) → 1 ≤ tx < tx_counter s;
  cs_amount : ∀ tx r, deposit_records s !! tx = Some r →
    (0 <= amount r)%Q ∧ on_grid (amount r);
  cs_grid : ∀ c a, dict_get c (accounts s) = Some a → on_grid (available a);
  cs_once : NoDup (posted_txs s ++ disputed_txs s);
  cs_posted : ∀ tx, tx ∈ posted_txs s →
    ∃ r, deposit_records s !! tx = Some r ∧ status r = posted;
  cs_disputed : ∀ tx, tx ∈ disputed_txs s →
    ∃ r, deposit_records s !! tx = Some r ∧ status r = disputed;
}.

(** [mx] rounded to four decimals: the largest amount that the sampler
    draws between a smaller bound and [mx]. *)
Definition cap (mx : Decimal) : Decimal :=
  (inject_Z (round_half_even (mx / BPS)) * BPS)%Q.

(** 10^24: a multiple of 0.0001 below it has at most [prec] digits. *)
Definition limit : Decimal := inject_Z (10 ^ 24).

(** The balances of [s] stay below [limit] for [n] more rows, whatever
    the rows: no sum or difference of the next [n] rows is rounded.  The
    amounts on hold cover the disputes that are open. *)
Record within_precision (n : Z) (s : FeedBuilder) : Prop := {
  wp_amount : ∀ tx r, deposit_records s !! tx = Some r →
    (amount r <= cap (max_amount s))%Q;
  wp_grid : ∀ c a, dict_get c (accounts s) = Some a → on_grid (held a);
  wp_available : ∀ c a, dict_get c (accounts s) = Some a →
    (inject_Z n * cap (max_amount s) - limit < available a
     < limit - inject_Z n * cap (max_amount s))%Q;
  wp_held : ∀ c a, dict_get c (accounts s) = Some a →
    (held_due (deposit_records s) c (disputed_txs s) <= held a
     < limit - inject_Z n * cap (max_amount s))%Q;
}.

(** Lazy cleanup: [_choose_tx] may have dropped ids from the pools. *)
Definition cleaned (s s' : FeedBuilder) : Prop :=
  ∃ p d, sublist p (posted_txs s) ∧ sublist d (disputed_txs s) ∧
         s' = set_disputed_txs (set_posted_txs s p) d.

(** The five mutations, as a transition relation on builder states
    labelled with the row emitted. *)
Inductive action (s : FeedBuilder) : Row → FeedBuilder → Prop :=
  | act_deposit cid a amt :
      dict_get cid (accounts s) = Some a → locked a = false →
      on_grid amt → (0 <= amt)%Q → (amt <= cap (max_amount s))%Q →
      action s (Deposit, cid, tx_counter s, Some amt)
        {| min_amount := min_amount s; max_amount := max_amount s;
           tx_counter := tx_counter s + 1;
           accounts := dict_set cid {| available := dec_add (available a) amt;
                                       held := held a; locked := locked a |}
                         (accounts s);
           deposit_records :=
             <[tx_counter s := {| client := cid; amount := amt; status := posted |}]>
               (deposit_records s);
           posted_txs := posted_txs s ++ [tx_counter s];
           disputed_txs := disputed_txs s |}
  | act_withdrawal cid a amt :
      dict_get cid (accounts s) = Some a → locked a = false →
      on_grid amt → (0 <= amt)%Q → (amt <= available a)%Q →
      (amt <= cap (max_amount s))%Q →
      action s (Withdrawal, cid, tx_counter s, Some amt)
        {| min_amount := min_amount s; max_amount := max_amount s;
           tx_counter := tx_counter s + 1;
           accounts := dict_set cid {| available := dec_sub (available a) amt;
                                       held := held a; locked := locked a |}
                         (accounts s);
           deposit_records := deposit_records s;
           posted_txs := posted_txs s;
           disputed_txs := disputed_txs s |}
  | act_dispute tx r a :
      tx ∈ posted_txs s → deposit_records s !! tx = Some r →
      dict_get (client r) (accounts s) = Some a → locked a = false →
      action s (Dispute, client r, tx, None)
        {| min_amount := min_amount s; max_amount := max_amount s;
           tx_counter := tx_counter s;
           accounts := dict_set (client r)
                         {| available := dec_sub (available a) (amount r);
                            held := dec_add (held a) (amount r);
                            locked := locked a |}
                         (accounts s);
           deposit_records := <[tx := set_status r disputed]> (deposit_records s);
           posted_txs := list_remove tx (posted_txs s);
           disputed_txs := disputed_txs s ++ [tx] |}
  | act_resolve tx r a :
      tx ∈ disputed_txs s → deposit_records s !! tx = Some r →
      dict_get (client r) (accounts s) = Some a → locked a = false →
      action s (Resolve, client r, tx, None)
        {| min_amount := min_amount s; max_amount := max_amount s;
           tx_counter := tx_counter s;
           accounts := dict_set (client r)
                         {| available := dec_add (available a) (amount r);
                            held := dec_sub (held a) (amount r);
                            locked := locked a |}
                         (accounts s);
           deposit_records := <[tx := set_status r resolved]> (deposit_records s);
           posted_txs := posted_txs s;
           disputed_txs := list_remove tx (disputed_txs s) |}
  | act_chargeback tx r a :
      tx ∈ disputed_txs s → deposit_records s !! tx = Some r →
      dict_get (client r) (accounts s) = Some a → locked a = false →
      (2 ≤ length (_unlocked_clients s))%nat →
      action s (Chargeback, client r, tx, None)
        {| min_amount := min_amount s; max_amount := max_amount s;
           tx_counter := tx_counter s;
           accounts := dict_set (client r)
                         {| available := available a;
                            held := dec_sub (held a) (amount r); locked := true |}
                         (accounts s);
           deposit_records := <[tx := set_status r chargeback]> (deposit_records s);
           posted_txs := posted_txs s;
           disputed_txs := list_remove tx (disputed_txs s) |}.

(** The five mutations in exact arithmetic: what they are when no result
    is rounded. *)
Inductive exact_action (s : FeedBuilder) : Row → FeedBuilder → Prop :=
  | exact_deposit cid a amt :
      dict_get cid (accounts s) = Some a → locked a = false →
      on_grid amt → (0 <= amt)%Q → (amt <= cap (max_amount s))%Q →
      exact_action s (Deposit, cid, tx_counter s, Some amt)
        {| min_amount := min_amount s; max_amount := max_amount s;
           tx_counter := tx_counter s + 1;
           accounts := dict_set cid {| available := (available a + amt)%Q;
                                       held := held a; locked := locked a |}
                         (accounts s);
           deposit_records :=
             <[tx_counter s := {| client := cid; amount := amt; status := posted |}]>
               (deposit_records s);
           posted_txs := posted_txs s ++ [tx_counter s];
           disputed_txs := disputed_txs s |}
  | exact_withdrawal cid a amt :
      dict_get cid (accounts s) = Some a → locked a = false →
      on_grid amt → (0 <= amt)%Q → (amt <= available a)%Q →
      (amt <= cap (max_amount s))%Q →
      exact_action s (Withdrawal, cid, tx_counter s, Some amt)
        {| min_amount := min_amount s; max_amount := max_amount s;
           tx_counter := tx_counter s + 1;
           accounts := dict_set cid {| available := (available a - amt)%Q;
                                       held := held a; locked := locked a |}
                         (accounts s);
           deposit_records := deposit_records s;
           posted_txs := posted_txs s;
           disputed_txs := disputed_txs s |}
  | exact_dispute tx r a :
      tx ∈ posted_txs s → deposit_records s !! tx = Some r →
      dict_get (client r) (accounts s) = Some a → locked a = false →
      exact_action s (Dispute, client r, tx, None)
        {| min_amount := min_amount s; max_amount := max_amount s;
           tx_counter := tx_counter s;
           accounts := dict_set (client r)
                         {| available := (available a - amount r)%Q;
                            held := (held a + amount r)%Q; locked := locked a |}
                         (accounts s);
           deposit_records := <[tx := set_status r disputed]> (deposit_records s);
           posted_txs := list_remove tx (posted_txs s);
           disputed_txs := disputed_txs s ++ [tx] |}
  | exact_resolve tx r a :
      tx ∈ disputed_txs s → deposit_records s !! tx = Some r →
      dict_get (client r) (accounts s) = Some a → locked a = false →
      exact_action s (Resolve, client r, tx, None)
        {| min_amount := min_amount s; max_amount := max_amount s;
           tx_counter := tx_counter s;
           accounts := dict_set (client r)
                         {| available := (available a + amount r)%Q;
                            held := (held a - amount r)%Q; locked := locked a |}
                         (accounts s);
           deposit_records := <[tx := set_status r resolved]> (deposit_records s);
           posted_txs := posted_txs s;
           disputed_txs := list_remove tx (disputed_txs s) |}
  | exact_chargeback tx r a :
      tx ∈ disputed_txs s → deposit_records s !! tx = Some r →
      dict_get (client r) (accounts s) = Some a → locked a = false →
      (2 ≤ length (_unlocked_clients s))%nat →
      exact_action s (Chargeback, client r, tx, None)
        {| min_amount := min_amount s; max_amount := max_amount s;
           tx_counter := tx_counter s;
           accounts := dict_set (client r)
                         {| available := available a;
                            held := (held a - amount r)%Q; locked := true |}
                         (accounts s);
           deposit_records := <[tx := set_status r chargeback]> (deposit_records s);
           posted_txs := posted_txs s;
           disputed_txs := list_remove tx (disputed_txs s) |}.

Definition step (s : FeedBuilder) (row : Row) (s'' : FeedBuilder) : Prop :=
  ∃ s', cleaned s s' ∧ action s' row s''.

(** What a call that emits a row from [s] may do: a step of the
    transition relation, or the invalid operation of a quantization beyond
    the precision of the context, when [max_amount] needs more than [prec]
    digits at four decimals. *)
Definition emits {G : Type} (s : FeedBuilder) (m : result (Row * FeedBuilder * G))
    : Prop :=
  match m with
  | Ok (row, s', _) => step s row s'
  | Raise e =>
      e = InvalidOperation ∧ 10 ^ prec ≤ round_half_even (max_amount s / BPS)
  | Diverge => False
  end.

(** The histories of a builder started in [s0]: the rows emitted so far,
    and the state they led to. *)
Inductive trace (s0 : FeedBuilder) : list Row → FeedBuilder → Prop :=
  | trace_start : trace s0 [] s0
  | trace_cleaned hist s s' :
      trace s0 hist s → cleaned s s' → trace s0 hist s'
  | trace_action hist s row s' :
      trace s0 hist s → action s row s' → trace s0 (hist ++ [row]) s'.

(** ** Replaying a feed

    The ledger of the downstream processor, following the mutation
    semantics of the specification (section 4.4): per account the pair
    (available, held), and per deposit its amount. *)

Record Ledger := {
  balances : gmap Z (Decimal * Decimal);
  amounts : gmap Z Decimal;
}.

Definition balance (l : Ledger) (c : Z) : Decimal * Decimal :=
  default (0%Q, 0%Q) (balances l !! c).

Definition replay_row (l : Ledger) (row : Row) : Ledger :=
  let '(kind, c, tx, amt) := row in
  let '(av, hd) := balance l c in
  let given := default 0%Q amt in
  let disputed := default 0%Q (amounts l !! tx) in
  match kind with
  | Deposit =>
      {| balances := <[c := ((av + given)%Q, hd)]> (balances l);
         amounts := <[tx := given]> (amounts l) |}
  | Withdrawal =>
      {| balances := <[c := ((av - given)%Q, hd)]> (balances l);
         amounts := amounts l |}
  | Dispute =>
      {| balances := <[c := ((av - disputed)%Q, (hd + disputed)%Q)]> (balances l);
         amounts := amounts l |}
  | Resolve =>
      {| balances := <[c := ((av + disputed)%Q, (hd - disputed)%Q)]> (balances l);
         amounts := amounts l |}
  | Chargeback =>
      {| balances := <[c := (av, (hd - disputed)%Q)]> (balances l);
         amounts := amounts l |}
  end.

Definition replay (rows : list Row) : Ledger :=
  foldl replay_row {| balances := ∅; amounts := ∅ |} rows.

Definition is_money (row : Row) : bool :=
  match row_kind row with
  | Deposit | Withdrawal => true
  | _ => false
  end.

(** What the builder knows, as a ledger. *)
Definition account_balance (s : FeedBuilder) (c : Z) : Decimal * Decimal :=
  match dict_get c (accounts s) with
  | Some a => (available a, held a)
  | None => (0%Q, 0%Q)
  end.

(** The invariant that ties the rows written so far to the builder. *)
Record tracked (hist : list Row) (s : FeedBuilder) : Prop := {
  tr_consistent : consistent s;
  tr_amounts : ∀ tx, amounts (replay hist) !! tx = amount <$> (deposit_records s !! tx);
  tr_records : ∀ tx r, deposit_records s !! tx = Some r →
    (Deposit, client r, tx, Some (amount r)) ∈ hist;
  tr_counter : row_tx <$> (filter (λ row, is_money row = true) hist)
               = range 1 (tx_counter s);
  tr_locked : ∀ row, row ∈ hist → row_kind row = Chargeback →
    locked_in s (row_client row);
}.

(** The accounts of the builder are the ledger that [hist] replays to. *)
Definition agrees (hist : list Row) (s : FeedBuilder) : Prop :=
  ∀ c, balance (replay hist) c = account_balance s c.

(** ** Rendering of amounts *)

(** The four digits of a number below 10000. *)
Definition four_digits (n : N) : string :=
  String (pretty_N_char (n / 1000))
    (String (pretty_N_char ((n / 100) `mod` 10))
       (String (pretty_N_char ((n / 10) `mod` 10))
          (String (pretty_N_char (n `mod` 10)) "")))%N.

(** [format_amount(amount)], the rendering [f"{amount:.4f}"]: the amount
    rounded to four decimals with the rounding of the decimal context
    (half-even), printed as sign, integral digits, point and four
    fractional digits. *)
Definition format_amount (amount : Decimal) : string :=
  let units := Z.to_N (Z.abs (round_half_even (amount / BPS))) in
  (if Qlt_bool amount 0 then "-" else "")
  +:+ pretty (units / 10000)%N +:+ "." +:+ four_digits (units `mod` 10000)%N.

(** The last field of the tuple that [next_row] returns. *)
Definition row_text (row : Row) : string :=
  match row_amount row with
  | Some amount => format_amount amount
  | None => ""
  end.

(** ** The life cycle of a deposit, read off the rows *)

(** What a row of [kind] makes of the status of the transaction it names. *)
Definition row_status (kind : Kind) (before : option Status) : option Status :=
  match kind with
  | Deposit => Some posted
  | Withdrawal => before
  | Dispute => Some disputed
  | Resolve => Some resolved
  | Chargeback => Some chargeback
  end.

(** The status that the rows [hist] leave transaction [tx] in; [None]
    while no deposit row has named it. *)
Definition status_after (hist : list Row) (tx : Z) : option Status :=
  foldl (λ st row,
           if decide (row_tx row = tx) then row_status (row_kind row) st else st)
        None hist.

(** What a row needs of the rows written before it: a deposit or a
    withdrawal an id no deposit has used, a dispute a deposit that is
    still posted, a resolve or a chargeback a deposit under dispute. *)
Definition in_order (before : list Row) (row : Row) : Prop :=
  status_after before (row_tx row)
  = match row_kind row with
    | Deposit | Withdrawal => None
    | Dispute => Some posted
    | Resolve | Chargeback => Some disputed
    end.

(** The chargeback rows among [rows]. *)
Definition chargebacks (rows : list Row) : list Row :=
  filter (λ row, row_kind row = Chargeback) rows.

(** Available plus held. *)
Definition total_funds (s : FeedBuilder) (c : Z) : Decimal :=
  ((account_balance s c).1 + (account_balance s c).2)%Q.

(** What a row adds to the total funds of the client it names: a deposit
    its amount, a withdrawal minus its amount, a chargeback minus the
    amount of the deposit it reverses, a dispute or a resolve nothing. *)
Definition funds_change (s : FeedBuilder) (row : Row) : Decimal :=
  match row_kind row with
  | Deposit => default 0%Q (row_amount row)
  | Withdrawal => (- default 0 (row_amount row))%Q
  | Chargeback => (- default 0 (amount <$> deposit_records s !! row_tx row))%Q
  | Dispute | Resolve => 0%Q
  end.

(** * Proofs *)

#[global] Arguments dec_round : simpl never.
#[global] Arguments dec_add : simpl never.
#[global] Arguments dec_sub : simpl never.

(** ** Decimal arithmetic *)

Lemma Qlt_bool_iff a b : Qlt_bool a b = true ↔ (a < b)%Q.
Proof.
  unfold Qlt_bool. rewrite negb_true_iff.
  destruct (Qle_bool b a) eqn:E.
  - apply Qle_bool_iff in E. split; [done | intros; lra].
  - split; [intros _ | done].
    apply Qnot_le_lt. intros Hle. apply Qle_bool_iff in Hle. congruence.
Qed.

Lemma Qlt_bool_false a b : Qlt_bool a b = false ↔ (b <= a)%Q.
Proof.
  unfold Qlt_bool. rewrite negb_false_iff. apply Qle_bool_iff.
Qed.

Lemma Qle_bool_false a b : Qle_bool a b = false ↔ (b < a)%Q.
Proof.
  rewrite <- (negb_true_iff (Qle_bool a b)). apply (Qlt_bool_iff b a).
Qed.

Ltac lra_Z :=
  rewrite ?inject_Z_plus, ?inject_Z_opp in *;
  change (inject_Z 1) with 1%Q in *; lra.

Lemma Qfloor_unique z x :
  (inject_Z z <= x)%Q → (x < inject_Z (z + 1))%Q → Qfloor x = z.
Proof.
  intros Hlo Hhi.
  pose proof (Qfloor_le x) as H1. pose proof (Qlt_floor x) as H2.
  assert (inject_Z z < inject_Z (Qfloor x + 1))%Q as A by lra.
  assert (inject_Z (Qfloor x) < inject_Z (z + 1))%Q as B by lra.
  rewrite <- Zlt_Qlt in A, B. lia.
Qed.

Lemma round_half_even_comp x y : (x == y)%Q → round_half_even x = round_half_even y.
Proof.
  intros E. unfold round_half_even.
  rewrite (Qfloor_comp _ _ E).
  assert (x - inject_Z (Qfloor y) == y - inject_Z (Qfloor y))%Q as E' by (rewrite E; reflexivity).
  by rewrite (Qcompare_comp _ _ E' (1 # 2) (1 # 2)).
Qed.

Lemma round_half_up_comp x y : (x == y)%Q → round_half_up x = round_half_up y.
Proof.
  intros E. unfold round_half_up.
  assert (Qle_bool 0 x = Qle_bool 0 y) as ->.
  { apply eq_true_iff_eq. rewrite !Qle_bool_iff. by rewrite E. }
  assert (x + (1 # 2) == y + (1 # 2))%Q as E1 by (rewrite E; reflexivity).
  assert (- x + (1 # 2) == - y + (1 # 2))%Q as E2 by (rewrite E; reflexivity).
  by rewrite (Qfloor_comp _ _ E1), (Qfloor_comp _ _ E2).
Qed.

Lemma round_half_even_Z n : round_half_even (inject_Z n) = n.
Proof.
  unfold round_half_even. rewrite Qfloor_Z.
  assert ((inject_Z n - inject_Z n ?= 1 # 2)%Q = Lt) as ->; [|done].
  apply (proj1 (Qlt_alt _ _)). lra.
Qed.

Lemma round_half_up_Z n : round_half_up (inject_Z n) = n.
Proof.
  unfold round_half_up. destruct (Qle_bool 0 (inject_Z n)) eqn:E.
  - apply Qfloor_unique; lra_Z.
  - enough (Qfloor (- inject_Z n + (1 # 2)) = - n) by lia.
    apply Qfloor_unique; lra_Z.
Qed.

Lemma round_half_even_mono x y : (x <= y)%Q → round_half_even x ≤ round_half_even y.
Proof.
  intros Hxy. pose proof (Qfloor_resp_le _ _ Hxy) as Hf.
  pose proof (Qfloor_le x) as Hx1. pose proof (Qlt_floor x) as Hx2.
  pose proof (Qfloor_le y) as Hy1. pose proof (Qlt_floor y) as Hy2.
  unfold round_half_even.
  destruct (x - inject_Z (Qfloor x) ?= 1 # 2)%Q eqn:Cx;
    destruct (y - inject_Z (Qfloor y) ?= 1 # 2)%Q eqn:Cy;
    try rewrite <- Qeq_alt in Cx; try rewrite <- Qlt_alt in Cx; try rewrite <- Qgt_alt in Cx;
    try rewrite <- Qeq_alt in Cy; try rewrite <- Qlt_alt in Cy; try rewrite <- Qgt_alt in Cy;
    repeat match goal with |- context [Z.even ?f] => destruct (Z.even f) eqn:? end;
    try lia;
    destruct (decide (Qfloor x = Qfloor y)) as [E|NE];
    try (rewrite E in *; first [ lia | exfalso; lra | congruence ]);
    try lia.
Qed.

Lemma round_half_even_le_Z x z : (x <= inject_Z z)%Q → round_half_even x ≤ z.
Proof.
  intros H. rewrite <- (round_half_even_Z z). by apply round_half_even_mono.
Qed.

Lemma round_half_even_ge_Z x z : (inject_Z z <= x)%Q → z ≤ round_half_even x.
Proof.
  intros H. rewrite <- (round_half_even_Z z). by apply round_half_even_mono.
Qed.

Lemma to_int_units m : to_int (inject_Z m * BPS / BPS)%Q = m.
Proof. unfold to_int. cbn. rewrite Z.mul_1_r. apply Z.quot_mul. lia. Qed.

Lemma quantize_ok rounding x :
  Z.abs (rounding (x / BPS)%Q) < 10 ^ prec →
  quantize rounding x = Ok (inject_Z (rounding (x / BPS)) * BPS)%Q.
Proof.
  intros H. unfold quantize. destruct (_ <=? _) eqn:E; [|done].
  apply Z.leb_le in E. lia.
Qed.

Lemma quantize_invalid rounding x :
  10 ^ prec ≤ Z.abs (rounding (x / BPS)%Q) →
  quantize rounding x = Raise InvalidOperation.
Proof.
  intros H. unfold quantize. destruct (_ <=? _) eqn:E; [done|].
  apply Z.leb_gt in E. lia.
Qed.

Lemma units_div_BPS n : (inject_Z n * BPS / BPS == inject_Z n)%Q.
Proof. unfold BPS. field. Qed.

Lemma div_BPS x : (x / BPS == x * 10000)%Q.
Proof. unfold BPS. field. Qed.

Lemma div_BPS_le x n : (x / BPS <= inject_Z n)%Q ↔ (x <= inject_Z n * BPS)%Q.
Proof. rewrite div_BPS. unfold BPS. split; intros; lra. Qed.

Lemma div_BPS_ge x n : (inject_Z n <= x / BPS)%Q ↔ (inject_Z n * BPS <= x)%Q.
Proof. rewrite div_BPS. unfold BPS. split; intros; lra. Qed.

Lemma quantize_half_up_units n :
  Z.abs n < 10 ^ prec →
  quantize round_half_up (inject_Z n * BPS)%Q = Ok (inject_Z n * BPS)%Q.
Proof.
  intros Hn.
  assert (round_half_up (inject_Z n * BPS / BPS) = n) as E
    by (by rewrite (round_half_up_comp _ _ (units_div_BPS n)), round_half_up_Z).
  rewrite quantize_ok; by rewrite E.
Qed.

Lemma inject_Z_le a b : a ≤ b → (inject_Z a <= inject_Z b)%Q.
Proof. by rewrite <- Zle_Qle. Qed.

Lemma units_le a b : a ≤ b → (inject_Z a * BPS <= inject_Z b * BPS)%Q.
Proof.
  intros H%inject_Z_le. unfold BPS. lra.
Qed.

(** ** The precision of the context *)

Lemma digits_fuel_spec fuel n :
  0 < n → n < 2 ^ Z.of_nat fuel →
  1 ≤ digits_fuel fuel n
  ∧ 10 ^ (digits_fuel fuel n - 1) ≤ n < 10 ^ digits_fuel fuel n.
Proof.
  revert n. induction fuel as [|fuel IH]; intros n Hpos Hlt.
  - simpl in Hlt. lia.
  - cbn [digits_fuel]. destruct (n <? 10) eqn:E.
    + apply Z.ltb_lt in E. change (10 ^ (1 - 1)) with 1. change (10 ^ 1) with 10. lia.
    + apply Z.ltb_ge in E.
      assert (0 < n / 10) as Hq by (apply Z.div_str_pos; lia).
      assert (n / 10 < 2 ^ Z.of_nat fuel) as Hq2.
      { rewrite Nat2Z.inj_succ, Z.pow_succ_r in Hlt by lia.
        apply Z.div_lt_upper_bound; lia. }
      destruct (IH (n / 10) Hq Hq2) as (H1 & H2 & H3).
      set (d := digits_fuel fuel (n / 10)) in *.
      replace (1 + d - 1) with (Z.succ (d - 1)) by lia.
      replace (1 + d) with (Z.succ d) by lia.
      rewrite !Z.pow_succ_r by lia.
      pose proof (Z.div_mod n 10 ltac:(lia)). pose proof (Z.mod_pos_bound n 10 ltac:(lia)).
      lia.
Qed.

Lemma digits_spec n :
  0 < n → 1 ≤ digits n ∧ 10 ^ (digits n - 1) ≤ n < 10 ^ digits n.
Proof.
  intros Hn. apply digits_fuel_spec; [done|].
  rewrite Nat2Z.inj_succ, Z2Nat.id by apply Z.log2_nonneg.
  by apply Z.log2_spec.
Qed.

Lemma pow10_pos e : (0 < 10 ^ e)%Q.
Proof. by apply Qpower_0_lt. Qed.

Lemma pow10_Z n : 0 ≤ n → (inject_Z (10 ^ n) == 10 ^ n)%Q.
Proof. intros Hn. by rewrite Zpower_Qpower. Qed.

Lemma pow10_plus a b : (10 ^ (a + b) == 10 ^ a * 10 ^ b)%Q.
Proof. by apply Qpower_plus. Qed.

Lemma pow10_lt_inv a b : (10 ^ a < 10 ^ b)%Q → a < b.
Proof. intros H. by apply (Qpower_lt_compat_l_inv 10 a b H). Qed.

Lemma Qabs_frac x : (Qabs x == inject_Z (Z.abs (Qnum x)) / inject_Z (Zpos (Qden x)))%Q.
Proof.
  destruct x as [p q]. unfold Qabs. cbn [Qnum Qden].
  rewrite (Qmake_Qdiv (Z.abs p) q). reflexivity.
Qed.

(** The leading digit of [x] is not below the exponent [adjusted x]. *)
Lemma adjusted_le x : ¬ (x == 0)%Q → (10 ^ adjusted x <= Qabs x)%Q.
Proof.
  intros Hx. unfold adjusted.
  set (a := Z.abs (Qnum x)). set (b := Zpos (Qden x)).
  destruct (Qle_bool _ _) eqn:E; [by apply Qle_bool_iff in E|].
  assert (0 < a) as Ha.
  { subst a. destruct x as [p q]. unfold Qeq in Hx. simpl in *. lia. }
  assert (0 < b) as Hb by done.
  destruct (digits_spec a Ha) as (Ha1 & Ha2 & _).
  destruct (digits_spec b Hb) as (Hb1 & _ & Hb2).
  rewrite Qabs_frac. fold a b.
  replace (digits a - digits b - 1) with ((digits a - 1) + - digits b) by lia.
  rewrite pow10_plus, Qpower_opp, <- !pow10_Z by lia.
  apply inject_Z_le in Ha2. 
  assert (inject_Z b <= inject_Z (10 ^ digits b))%Q as Hb3.
  { rewrite <- Zle_Qle. lia. }
  assert (0 < inject_Z b)%Q as Hb4.
  { change 0%Q with (inject_Z 0). by rewrite <- Zlt_Qlt. }
  assert (0 < inject_Z a)%Q as Ha4.
  { change 0%Q with (inject_Z 0). by rewrite <- Zlt_Qlt. }
  assert (0 < inject_Z (10 ^ (digits a - 1)))%Q as Ha5.
  { change 0%Q with (inject_Z 0). rewrite <- Zlt_Qlt. apply Z.pow_pos_nonneg; lia. }
  unfold Qdiv.
  apply Qle_trans with (inject_Z (10 ^ (digits a - 1)) * / inject_Z b)%Q.
  - apply Qmult_le_l; [done|]. apply Qle_shift_inv_l; [done|].
    rewrite Qmult_comm. apply Qle_shift_div_r; [lra|]. by rewrite Qmult_1_l.
  - apply Qmult_le_r; [by apply Qinv_lt_0_compat | done].
Qed.

Lemma adjusted_upper x e : ¬ (x == 0)%Q → (Qabs x < 10 ^ (e + 1))%Q → adjusted x ≤ e.
Proof.
  intros Hx Hlt. pose proof (adjusted_le x Hx) as Hle.
  assert (adjusted x < e + 1); [|lia]. apply pow10_lt_inv. lra.
Qed.

Lemma BPS_pow : (BPS == 10 ^ (-4))%Q.
Proof. reflexivity. Qed.

Lemma pow10_nonzero k : ¬ (10 ^ k == 0)%Q.
Proof. pose proof (pow10_pos k). lra. Qed.

Lemma grid_scaled n k :
  k ≤ -4 → (inject_Z n * BPS / 10 ^ k == inject_Z (n * 10 ^ (-4 - k)))%Q.
Proof.
  intros Hk. rewrite inject_Z_mult, pow10_Z, BPS_pow by lia.
  replace (-4 - k) with (-4 + - k) by lia.
  rewrite pow10_plus, Qpower_opp. unfold Qdiv. ring.
Qed.

Lemma round_exact x k m :
  (x / 10 ^ k == inject_Z m)%Q →
  (inject_Z (round_half_even (x / 10 ^ k)) * 10 ^ k == x)%Q.
Proof.
  intros E. rewrite (round_half_even_comp _ _ E), round_half_even_Z, <- E.
  field. apply pow10_nonzero.
Qed.

Lemma limit_pow : (limit == 10 ^ (23 + 1))%Q.
Proof. unfold limit. by rewrite pow10_Z. Qed.

(** A multiple of 0.0001 below 10^24 has at most 28 digits: it is not
    rounded. *)
Lemma dec_round_exact x :
  on_grid x → (- limit < x < limit)%Q → dec_round x = x.
Proof.
  intros [n Hn] Hlim. unfold dec_round.
  set (k := adjusted x - (prec - 1)).
  destruct (Qeq_bool _ x) eqn:E; [done|]. exfalso.
  apply Qeq_bool_neq in E. apply E.
  destruct (Qeq_dec x 0) as [E0|N0].
  - apply (round_exact x k 0). rewrite E0. unfold Qdiv. ring.
  - assert (k ≤ -4) as Hk.
    { assert (adjusted x ≤ 23); [|unfold prec in k; lia].
      apply adjusted_upper; [done|]. rewrite <- limit_pow.
      by apply Qabs_Qlt_condition. }
    apply (round_exact x k (n * 10 ^ (-4 - k))).
    rewrite <- (grid_scaled n k Hk). by rewrite Hn.
Qed.

Lemma on_grid_dec_round x : on_grid x → on_grid (dec_round x).
Proof.
  intros Hx. unfold dec_round.
  set (k := adjusted x - (prec - 1)).
  destruct (Qeq_bool _ x) eqn:E; [done|].
  destruct (Z_le_gt_dec k (-4)) as [Hk|Hk].
  - exfalso. apply Qeq_bool_neq in E. apply E.
    destruct Hx as [n Hn].
    apply (round_exact x k (n * 10 ^ (-4 - k))).
    rewrite <- (grid_scaled n k Hk). by rewrite Hn.
  - exists (round_half_even (x / 10 ^ k) * 10 ^ (k + 4)).
    rewrite inject_Z_mult, pow10_Z, BPS_pow, <- Qmult_assoc, <- pow10_plus by lia.
    replace (k + 4 + -4) with k by lia. reflexivity.
Qed.

Lemma units_limit n : n < 10 ^ prec ↔ (inject_Z n * BPS < limit)%Q.
Proof.
  unfold limit. change (10 ^ prec) with (10 ^ 24 * 10000).
  rewrite Zlt_Qlt, inject_Z_mult. change (inject_Z 10000) with 10000%Q.
  unfold BPS. split; intros; lra.
Qed.


(** ** Sequences and dictionaries *)

Lemma list_getitem_elem {A} (l : list A) i x : list_getitem l i = Ok x → x ∈ l.
Proof.
  unfold list_getitem. destruct (_ && _); [|done].
  destruct (l !! _) eqn:E; [|done]. intros [= <-]. by eapply list_elem_of_lookup_2.
Qed.

Lemma list_getitem_in_range {A} (l : list A) i :
  0 ≤ i < Z.of_nat (length l) → ∃ x, list_getitem l i = Ok x.
Proof.
  intros Hi. unfold list_getitem.
  destruct (i <? 0) eqn:E1; [lia|].
  destruct ((0 <=? i) && (i <? Z.of_nat (length l))) eqn:E2.
  - destruct (lookup_lt_is_Some_2 l (Z.to_nat i)) as [x ->]; [lia | eauto].
  - apply andb_false_iff in E2 as [?|?]; lia.
Qed.

Lemma list_remove_sublist x l : sublist (list_remove x l) l.
Proof.
  induction l as [|y l IH]; simpl; [done|].
  case_decide; [by apply sublist_cons | by apply sublist_skip].
Qed.

Lemma list_remove_elem x y l : y ∈ list_remove x l → y ∈ l.
Proof. apply (sublist_subseteq _ _ (list_remove_sublist x l)). Qed.

Lemma list_remove_elem_ne x y l : y ≠ x → y ∈ l → y ∈ list_remove x l.
Proof.
  intros Hne. induction l as [|z l IH]; simpl; [done|].
  rewrite elem_of_cons. intros [->|Hin].
  - case_decide; [congruence | left].
  - case_decide; [done | right; auto].
Qed.

Lemma list_remove_NoDup_notin x l : NoDup l → x ∉ list_remove x l.
Proof.
  induction 1 as [|y l Hy Hl IH]; simpl; [by apply not_elem_of_nil|].
  case_decide; [by subst|]. rewrite not_elem_of_cons. auto.
Qed.

Lemma list_remove_length x l : x ∈ l → S (length (list_remove x l)) = length l.
Proof.
  induction l as [|y l IH]; simpl; [by intros ?%elem_of_nil|].
  rewrite elem_of_cons. case_decide; [done|].
  intros [?|Hin]; [congruence|]. simpl. by rewrite IH.
Qed.

Lemma range_from_elem lo n x : x ∈ range_from lo n ↔ lo ≤ x < lo + Z.of_nat n.
Proof.
  revert lo. induction n as [|n IH]; intros lo; simpl.
  - rewrite elem_of_nil. lia.
  - rewrite elem_of_cons, IH. lia.
Qed.

Lemma range_from_snoc lo n : range_from lo (S n) = range_from lo n ++ [lo + Z.of_nat n].
Proof.
  revert lo. induction n as [|n IH]; intros lo.
  - simpl. by rewrite Z.add_0_r.
  - change (range_from lo (S (S n))) with (lo :: range_from (lo + 1) (S n)).
    rewrite IH. simpl. do 3 f_equal. lia.
Qed.

Lemma range_snoc lo hi : lo ≤ hi → range lo (hi + 1) = range lo hi ++ [hi].
Proof.
  intros H. unfold range.
  replace (Z.to_nat (hi + 1 - lo)) with (S (Z.to_nat (hi - lo))) by lia.
  rewrite range_from_snoc. do 2 f_equal. lia.
Qed.

Lemma range_from_length lo n : length (range_from lo n) = n.
Proof. revert lo. induction n; intros; simpl; auto. Qed.

Section dict_lemmas.
Context {V : Type}.
Implicit Types (d : list (Z * V)) (k : Z) (v : V).

Lemma dict_get_set_eq k v d : dict_get k (dict_set k v d) = Some v.
Proof.
  induction d as [|[k' v'] d IH]; simpl.
  - by rewrite decide_True.
  - case_decide; simpl; [by rewrite decide_True | by rewrite decide_False].
Qed.

Lemma dict_get_set_ne k k' v d : k ≠ k' → dict_get k' (dict_set k v d) = dict_get k' d.
Proof.
  intros Hne. induction d as [|[k0 v0] d IH]; simpl.
  - by rewrite decide_False.
  - case_decide; simpl; [subst; by rewrite !decide_False | by rewrite IH].
Qed.

Lemma dict_get_set k k' v d :
  dict_get k' (dict_set k v d) = if decide (k = k') then Some v else dict_get k' d.
Proof.
  case_decide; [subst; apply dict_get_set_eq | by apply dict_get_set_ne].
Qed.

Lemma dict_set_keys k v d : is_Some (dict_get k d) → (dict_set k v d).*1 = d.*1.
Proof.
  induction d as [|[k' v'] d IH]; [by intros [? ?]|].
  cbn [dict_set dict_get]. case_decide; [by subst|].
  intros H'. rewrite !fmap_cons. f_equal. by apply IH.
Qed.

Lemma dict_get_None k d : dict_get k d = None ↔ k ∉ d.*1.
Proof.
  induction d as [|[k' v'] d IH].
  - split; [intros _; apply not_elem_of_nil | done].
  - rewrite fmap_cons, not_elem_of_cons. cbn [dict_get fst].
    case_decide as Hk; [split; [done | by intros [? _]]|].
    rewrite IH. split; [by intros ? | by intros [_ ?]].
Qed.

Lemma dict_get_elem k v d : dict_get k d = Some v → (k, v) ∈ d.
Proof.
  induction d as [|[k' v'] d IH]; simpl; [done|].
  case_decide; [intros [= ->]; subst; left | intros; right; auto].
Qed.

Lemma dict_elem_get k v d : NoDup d.*1 → (k, v) ∈ d → dict_get k d = Some v.
Proof.
  induction d as [|[k' v'] d IH]; simpl; [by intros _ ?%elem_of_nil|].
  intros [Hk Hd]%NoDup_cons [[= -> ->]|Hin]%elem_of_cons.
  - by rewrite decide_True.
  - rewrite decide_False; [auto|]. intros ->. apply Hk.
    apply list_elem_of_fmap. by exists (k', v).
Qed.

Lemma dict_set_new_keys k v d : dict_get k d = None → (dict_set k v d).*1 = d.*1 ++ [k].
Proof.
  induction d as [|[k' v'] d IH]; [done|].
  cbn [dict_set dict_get]. case_decide; [done|].
  intros H'. rewrite !fmap_cons. simpl. f_equal. by apply IH.
Qed.

Lemma dict_set_NoDup k v d : NoDup d.*1 → NoDup (dict_set k v d).*1.
Proof.
  intros Hd. destruct (dict_get k d) eqn:E.
  - by rewrite dict_set_keys.
  - rewrite dict_set_new_keys by done.
    apply NoDup_app. split_and!; [done | | apply NoDup_singleton].
    intros x Hx ->%list_elem_of_singleton. by apply dict_get_None in E.
Qed.
End dict_lemmas.

(** ** Drawing *)

Section drawing.
Context {R : RandomGen} {L : RandomGenLaws R}.

Lemma randint_ok a b g :
  a ≤ b → ∃ n g', randint a b g = Ok (n, g') ∧ a ≤ n ≤ b.
Proof.
  intros Hab. unfold randint.
  destruct (0 <? b + 1 - a) eqn:E; [|lia].
  pose proof (randbelow_range (b + 1 - a) g ltac:(lia)) as Hk.
  destruct (randbelow (b + 1 - a) g) as [k g']. simpl in Hk.
  exists (a + k), g'. split; [done | lia].
Qed.

Lemma choice_ok seq g :
  seq ≠ [] → ∃ x g', choice seq g = Ok (x, g') ∧ x ∈ seq.
Proof.
  intros Hne. unfold choice. destruct seq as [|y seq]; [done|].
  set (l := y :: seq) in *.
  pose proof (randbelow_range (Z.of_nat (length l)) g) as Hk.
  destruct (randbelow (Z.of_nat (length l)) g) as [i g']. simpl in Hk.
  destruct (list_getitem_in_range l i) as [x Hx]; [apply Hk; simpl; lia|].
  exists x, g'. rewrite Hx. split; [done | by eapply list_getitem_elem].
Qed.

(** Within the precision of the context the sampler returns a point of
    the grid between the rounded bounds. *)
Lemma decimal_from_range_ok lo hi g :
  (0 < hi)%Q →
  let low := round_half_even (lo / BPS) in
  let high := round_half_even (hi / BPS) in
  Z.abs low < 10 ^ prec → Z.abs high < 10 ^ prec →
  ∃ n g', decimal_from_range lo hi g = Ok ((inject_Z n * BPS)%Q, g')
          ∧ low ≤ n ≤ Z.max low high.
Proof.
  intros Hhi low high Hlow Hhigh. unfold decimal_from_range.
  apply Qle_bool_false in Hhi. rewrite Hhi.
  rewrite !quantize_ok by done. cbn [mbind result_bind].
  rewrite !to_int_units. fold low high.
  destruct (randint_ok low (if high <? low then low else high) g) as (n & g' & -> & Hn).
  { destruct (high <? low) eqn:E; lia. }
  exists n, g'. cbn [mbind result_bind].
  assert (low ≤ n ≤ Z.max low high) as Hn' by (destruct (high <? low) eqn:E; lia).
  rewrite quantize_half_up_units by lia. done.
Qed.

(** Beyond it, the quantization of a bound is an invalid operation. *)
Lemma decimal_from_range_invalid lo hi g :
  (0 < hi)%Q →
  10 ^ prec ≤ Z.abs (round_half_even (lo / BPS))
  ∨ 10 ^ prec ≤ Z.abs (round_half_even (hi / BPS)) →
  decimal_from_range lo hi g = Raise InvalidOperation.
Proof.
  intros Hhi Hbig. unfold decimal_from_range.
  apply Qle_bool_false in Hhi. rewrite Hhi.
  destruct (Z_lt_le_dec (Z.abs (round_half_even (lo / BPS))) (10 ^ prec)) as [Hlo|Hlo].
  - rewrite (quantize_ok _ lo) by done. cbn [mbind result_bind].
    destruct Hbig as [?|Hbig]; [lia|]. by rewrite (quantize_invalid _ hi).
  - by rewrite (quantize_invalid _ lo).
Qed.
End drawing.

(** ** Clients and pools *)

Lemma unlocked_clients_elem s c :
  c ∈ _unlocked_clients s ↔ ∃ a, (c, a) ∈ accounts s ∧ locked a = false.
Proof.
  unfold _unlocked_clients. rewrite list_elem_of_fmap. split.
  - intros ([c' a] & -> & [H1 H2]%list_elem_of_filter). by exists a.
  - intros (a & Hin & Hl). exists (c, a). split; [done|].
    apply list_elem_of_filter. done.
Qed.

Lemma funded_clients_elem s c :
  c ∈ _funded_clients s ↔
  ∃ a, (c, a) ∈ accounts s ∧ locked a = false ∧ (min_amount s <= available a)%Q.
Proof.
  unfold _funded_clients. rewrite list_elem_of_fmap. split.
  - intros ([c' a] & -> & [[H1 H3] H2]%list_elem_of_filter).
    apply Qle_bool_iff in H3. by exists a.
  - intros (a & Hin & Hl & Hf). exists (c, a). split; [done|].
    apply list_elem_of_filter. split; [|done]. split; [done|]. by apply Qle_bool_iff.
Qed.

Lemma unlocked_clients_unlocked_in s c :
  NoDup (accounts s).*1 → c ∈ _unlocked_clients s ↔ unlocked_in s c.
Proof.
  intros Hnd. rewrite unlocked_clients_elem. unfold unlocked_in.
  split; intros (a & Ha & Hl); exists a; split; auto using dict_elem_get, dict_get_elem.
Qed.

Lemma tx_eligible_true s tx :
  tx_eligible s tx = true ↔
  ∃ r, deposit_records s !! tx = Some r ∧ unlocked_in s (client r).
Proof.
  unfold tx_eligible, unlocked_in. split.
  - destruct (deposit_records s !! tx) as [r|]; [|done].
    destruct (dict_get (client r) (accounts s)) as [a|] eqn:Ea; [|done].
    intros Hl%negb_true_iff. exists r. split; [done|]. by exists a.
  - intros (r & -> & a & -> & ->). done.
Qed.

Lemma has_for_unlocked_spec s pool :
  (∀ tx r, deposit_records s !! tx = Some r → is_Some (dict_get (client r) (accounts s))) →
  ∃ b, has_for_unlocked s pool = Ok b ∧ (b = true ↔ pool_has_unlocked s pool).
Proof.
  intros Hown. unfold pool_has_unlocked. induction pool as [|tx pool (b & IH & Hb)]; simpl.
  - exists false. split; [done|]. split; [done|].
    by intros (tx & r & ?%elem_of_nil & _).
  - destruct (deposit_records s !! tx) as [r|] eqn:Er.
    + destruct (Hown _ _ Er) as [a Ha]. unfold dict_getitem. rewrite Ha. simpl.
      destruct (locked a) eqn:El; simpl.
      * exists b. split; [done|]. rewrite Hb. split.
        -- intros (tx' & r' & Hin & Hr' & Hu). exists tx', r'. split; [by right | done].
        -- intros (tx' & r' & [->|Hin]%elem_of_cons & Hr' & Hu); [|by eauto].
           destruct Hu as (a' & Ha' & Hl'). congruence.
      * exists true. split; [done|]. split; [intros _ | done].
        exists tx, r. split; [left|]. split; [done|]. by exists a.
    + exists b. split; [done|]. rewrite Hb. split.
      * intros (tx' & r' & Hin & Hr' & Hu). exists tx', r'. split; [by right | done].
      * intros (tx' & r' & [->|Hin]%elem_of_cons & Hr' & Hu); [congruence | by eauto].
Qed.

Section choosing.
Context {R : RandomGen} {L : RandomGenLaws R}.

Lemma choose_tx_loop_cons s fuel y pool g :
  _choose_tx_loop (S fuel) s (y :: pool) g =
  '(tx, g') ← choice (y :: pool) g;
  if tx_eligible s tx then Ok (Some tx, y :: pool, g')
  else _choose_tx_loop fuel s (list_remove tx (y :: pool)) g'.
Proof. done. Qed.

Lemma choose_tx_loop_spec s fuel pool g :
  (length pool ≤ fuel)%nat →
  ∃ otx pool' g', _choose_tx_loop fuel s pool g = Ok (otx, pool', g')
    ∧ sublist pool' pool
    ∧ match otx with
      | Some tx => tx ∈ pool' ∧ tx_eligible s tx = true
      | None => pool' = [] ∧ ∀ tx, tx ∈ pool → tx_eligible s tx = false
      end.
Proof.
  revert pool g. induction fuel as [|fuel IH]; intros pool g Hlen.
  - destruct pool; [|simpl in Hlen; lia]. exists None, [], g. simpl.
    split_and!; [done | done | done | by intros ? ?%elem_of_nil].
  - destruct pool as [|y pool'].
    { exists None, [], g. simpl.
      split_and!; [done | done | done | by intros ? ?%elem_of_nil]. }
    rewrite choose_tx_loop_cons. remember (y :: pool') as pool eqn:Ep.
    destruct (choice_ok pool g) as (tx & g' & Hc & Hin); [by subst|].
    rewrite Hc. simpl. destruct (tx_eligible s tx) eqn:Et.
    + exists (Some tx), pool, g'. split_and!; done.
    + destruct (IH (list_remove tx pool) g') as (otx & p' & g'' & -> & Hsub & Hres).
      { pose proof (list_remove_length tx pool Hin). subst pool. simpl in *. lia. }
      exists otx, p', g''. split; [done|]. split.
      { etrans; [done | apply list_remove_sublist]. }
      destruct otx as [tx'|]; [done|]. destruct Hres as [-> Hall]. split; [done|].
      intros tx' Hin'. destruct (decide (tx' = tx)) as [->|Hne]; [done|].
      apply Hall. by apply list_remove_elem_ne.
Qed.

Lemma choose_tx_spec s pool g :
  ∃ otx pool' g', _choose_tx s pool g = Ok (otx, pool', g')
    ∧ sublist pool' pool
    ∧ match otx with
      | Some tx => tx ∈ pool' ∧ tx_eligible s tx = true
      | None => pool' = [] ∧ ∀ tx, tx ∈ pool → tx_eligible s tx = false
      end.
Proof. by apply choose_tx_loop_spec. Qed.

(** The loop of [_choose_tx] ends: it never runs out of iterations. *)
Lemma _choose_tx_loop_terminates s fuel pool g :
  (length pool ≤ fuel)%nat → _choose_tx_loop fuel s pool g = _choose_tx s pool g.
Proof.
  unfold _choose_tx. revert pool g. induction fuel as [|fuel IH]; intros pool g Hlen.
  - destruct pool; [done | simpl in Hlen; lia].
  - destruct pool as [|y pool']; [done|].
    change (length (y :: pool')) with (S (length pool')).
    rewrite !choose_tx_loop_cons. remember (y :: pool') as pool eqn:Ep.
    destruct (choice_ok pool g) as (tx & g' & -> & Hin); [by subst|]. simpl.
    destruct (tx_eligible s tx); [done|].
    pose proof (list_remove_length tx pool Hin) as Hl.
    assert (length pool = S (length pool')) as Hlp by (by subst).
    rewrite Hlp in Hl. simpl in Hlen.
    rewrite IH by lia. symmetry.
    replace (length pool') with (length (list_remove tx pool)) by lia. done.
Qed.

Lemma choose_client_spec (rf : bool) s g :
  let pool : list Z := if rf then _funded_clients s else _unlocked_clients s in
  match pool with
  | [] => _choose_client rf s g = Ok (None, g)
  | _ => ∃ cid g', _choose_client rf s g = Ok (Some cid, g') ∧ cid ∈ pool
  end.
Proof.
  intros pool. unfold _choose_client. fold pool.
  destruct pool as [|c pool'] eqn:E; [done|].
  destruct (choice_ok (c :: pool') g) as (cid & g' & -> & Hin); [done|].
  by exists cid, g'.
Qed.
End choosing.

(** ** The invariant of the builder *)

Lemma on_grid_plus x y : on_grid x → on_grid y → on_grid (x + y)%Q.
Proof.
  intros [n Hn] [m Hm]. exists (n + m). rewrite inject_Z_plus, Hn, Hm. ring.
Qed.

Lemma on_grid_minus x y : on_grid x → on_grid y → on_grid (x - y)%Q.
Proof.
  intros [n Hn] [m Hm]. exists (n - m).
  unfold Z.sub. rewrite inject_Z_plus, inject_Z_opp, Hn, Hm. ring.
Qed.

Lemma on_grid_zero : on_grid 0%Q.
Proof. exists 0. reflexivity. Qed.

Lemma on_grid_units n : on_grid (inject_Z n * BPS)%Q.
Proof. by exists n. Qed.

Lemma list_remove_perm x l : x ∈ l → l ≡ₚ x :: list_remove x l.
Proof.
  induction l as [|y l IH]; simpl; [by intros ?%elem_of_nil|].
  case_decide; [by subst|].
  intros [?|Hin]%elem_of_cons; [congruence|].
  rewrite (IH Hin) at 1. apply Permutation_swap.
Qed.

Section held_due.
Implicit Types (m : gmap Z DepositRecord) (c tx : Z) (pool : list Z).

Lemma held_due_cons m c tx pool :
  held_due m c (tx :: pool) = (due m c tx + held_due m c pool)%Q.
Proof. done. Qed.

Lemma held_due_app m c l1 l2 :
  (held_due m c (l1 ++ l2) == held_due m c l1 + held_due m c l2)%Q.
Proof.
  induction l1 as [|tx l1 IH].
  - simpl. ring.
  - rewrite <- app_comm_cons, !held_due_cons, IH. ring.
Qed.

Lemma held_due_remove m c tx pool :
  tx ∈ pool →
  (held_due m c pool == due m c tx + held_due m c (list_remove tx pool))%Q.
Proof.
  induction pool as [|y pool IH]; [by intros ?%elem_of_nil|].
  cbn [list_remove]. case_decide as Hy.
  - subst. intros _. by rewrite held_due_cons.
  - intros [?|Hin]%elem_of_cons; [congruence|].
    rewrite !held_due_cons, (IH Hin). ring.
Qed.

Lemma due_nonneg m c tx :
  (∀ tx r, m !! tx = Some r → (0 <= amount r)%Q) → (0 <= due m c tx)%Q.
Proof.
  intros Hm. unfold due. destruct (m !! tx) as [r|] eqn:E; [|lra].
  case_decide; [by eapply Hm | lra].
Qed.

Lemma held_due_nonneg m c pool :
  (∀ tx r, m !! tx = Some r → (0 <= amount r)%Q) → (0 <= held_due m c pool)%Q.
Proof.
  intros Hm. induction pool as [|tx pool IH]; [simpl; lra|].
  rewrite held_due_cons. pose proof (due_nonneg m c tx Hm). lra.
Qed.

Lemma held_due_sublist m c l1 l2 :
  (∀ tx r, m !! tx = Some r → (0 <= amount r)%Q) →
  sublist l1 l2 → (held_due m c l1 <= held_due m c l2)%Q.
Proof.
  intros Hm. induction 1 as [|x l1 l2 _ IH|x l1 l2 _ IH].
  - lra.
  - rewrite !held_due_cons. lra.
  - rewrite held_due_cons. pose proof (due_nonneg m c x Hm). lra.
Qed.

(** The hold depends on the owner and amount of the pooled records only. *)
Lemma held_due_ext m m' c pool :
  (∀ tx, tx ∈ pool → due m' c tx = due m c tx) →
  held_due m' c pool = held_due m c pool.
Proof.
  induction pool as [|tx pool IH]; intros Hext; [done|].
  rewrite !held_due_cons, IH by (intros; apply Hext; by right).
  by rewrite Hext by left.
Qed.

Lemma due_insert_status m c tx tx' r st :
  m !! tx = Some r → due (<[tx := set_status r st]> m) c tx' = due m c tx'.
Proof.
  intros Hr. unfold due. rewrite lookup_insert. case_decide; [|done].
  subst. by rewrite Hr.
Qed.

Lemma due_insert_ne m c tx tx' r :
  tx ≠ tx' → due (<[tx := r]> m) c tx' = due m c tx'.
Proof. intros Hne. unfold due. by rewrite lookup_insert_ne. Qed.
End held_due.

Lemma dict_get_set_is_Some {V} k c (v : V) d :
  is_Some (dict_get c d) → is_Some (dict_get c (dict_set k v d)).
Proof. rewrite dict_get_set. by case_decide. Qed.

Lemma alive_unlocked_in s :
  NoDup (accounts s).*1 → _unlocked_clients s ≠ [] ↔ ∃ c, unlocked_in s c.
Proof.
  intros Hnd. split.
  - destruct (_unlocked_clients s) as [|c l] eqn:E; [done|]. intros _.
    exists c. apply unlocked_clients_unlocked_in; [done|]. rewrite E. left.
  - intros [c Hc%unlocked_clients_unlocked_in] E; [|done].
    rewrite E in Hc. by apply elem_of_nil in Hc.
Qed.

Lemma unlocked_clients_NoDup s : NoDup (accounts s).*1 → NoDup (_unlocked_clients s).
Proof.
  intros Hnd. unfold _unlocked_clients.
  apply (sublist_NoDup _ (accounts s).*1); [done | apply fmap_sublist, sublist_filter].
Qed.

(** With two unlocked accounts, one of them is not [c]. *)
Lemma other_unlocked s c :
  NoDup (accounts s).*1 → (2 ≤ length (_unlocked_clients s))%nat →
  ∃ c', c' ≠ c ∧ unlocked_in s c'.
Proof.
  intros Hnd Hlen. pose proof (unlocked_clients_NoDup s Hnd) as Hu.
  destruct (_unlocked_clients s) as [|c1 [|c2 l]] eqn:E; simpl in Hlen; try lia.
  assert (c1 ≠ c2) as Hne.
  { apply NoDup_cons in Hu as [Hu _]. intros ->. apply Hu. left. }
  destruct (decide (c1 = c)) as [->|Hc1].
  - exists c2. split; [done|]. apply unlocked_clients_unlocked_in; [done|].
    rewrite E. right. left.
  - exists c1. split; [done|]. apply unlocked_clients_unlocked_in; [done|].
    rewrite E. left.
Qed.

Lemma cleaned_refl s : cleaned s s.
Proof. exists (posted_txs s), (disputed_txs s). by destruct s. Qed.

Lemma cleaned_trans s1 s2 s3 : cleaned s1 s2 → cleaned s2 s3 → cleaned s1 s3.
Proof.
  intros (p & d & Hp & Hd & ->) (p' & d' & Hp' & Hd' & ->). simpl in *.
  exists p', d'. split_and!; [by etrans | by etrans | done].
Qed.

Lemma cleaned_consistent s s' : consistent s → cleaned s s' → consistent s'.
Proof.
  intros [] (p & d & Hp & Hd & ->). constructor; simpl; try done.
  - apply (sublist_NoDup _ (posted_txs s ++ disputed_txs s)); [done | by apply sublist_app].
  - intros tx Hin. apply cs_posted0. by eapply sublist_subseteq.
  - intros tx Hin. apply cs_disputed0. by eapply sublist_subseteq.
Qed.

(** Pooled transactions are recorded, hence older than the counter. *)
Lemma pooled_fresh s tx :
  consistent s → tx ∈ posted_txs s ++ disputed_txs s → tx < tx_counter s.
Proof.
  intros Hs [Hin|Hin]%elem_of_app.
  - destruct (cs_posted s Hs tx Hin) as (r & Hr & _). by eapply cs_fresh.
  - destruct (cs_disputed s Hs tx Hin) as (r & Hr & _). by eapply cs_fresh.
Qed.

Lemma action_consistent s row s' : consistent s → action s row s' → consistent s'.
Proof.
  intros Hs Hact.
  assert (∀ tx, tx ∈ posted_txs s → tx < tx_counter s) as Hfp.
  { intros tx H. apply (pooled_fresh s tx Hs), elem_of_app. by left. }
  assert (∀ tx, tx ∈ disputed_txs s → tx < tx_counter s) as Hfd.
  { intros tx H. apply (pooled_fresh s tx Hs), elem_of_app. by right. }
  pose proof (cs_once s Hs) as Honce.
  apply NoDup_app in Honce as (Hp & Hpd & Hd).
  destruct Hs.
  destruct Hact as [cid a amt Ha Hl Hg Hamt Hcap
                   |cid a amt Ha Hl Hg Hamt Hle Hcap
                   |tx r a Hin Hr Ha Hl
                   |tx r a Hin Hr Ha Hl
                   |tx r a Hin Hr Ha Hl Htwo].
  - (* deposit *)
    constructor; simpl.
    + done.
    + done.
    + rewrite dict_set_keys; eauto.
    + intros tx r. rewrite lookup_insert. case_decide.
      * intros [= <-]. simpl. rewrite dict_get_set_eq. eauto.
      * intros Hr. eapply dict_get_set_is_Some, cs_owner0. done.
    + apply alive_unlocked_in; [simpl; rewrite dict_set_keys; eauto|].
      exists cid. eexists. simpl. rewrite dict_get_set_eq. done.
    + lia.
    + intros tx. rewrite lookup_insert. case_decide; [lia|].
      intros Hr%cs_fresh0. lia.
    + intros tx r. rewrite lookup_insert. case_decide; [|by apply cs_amount0].
      by intros [= <-].
    + intros c a0. rewrite dict_get_set. case_decide; [subst c|by apply cs_grid0].
      intros [= <-]. simpl. apply on_grid_dec_round, on_grid_plus; [by eapply cs_grid0 | done].
    + rewrite <- (assoc_L (++)).
      apply NoDup_app. split_and!; [done | | ].
      * intros x Hx [->%list_elem_of_singleton|Hx']%elem_of_app.
        -- apply Hfp in Hx. lia.
        -- by eapply Hpd.
      * apply NoDup_app. split_and!; [apply NoDup_singleton | | done].
        intros x ->%list_elem_of_singleton Hx. apply Hfd in Hx. lia.
    + intros tx [Hin| ->%list_elem_of_singleton]%elem_of_app.
      * rewrite lookup_insert_ne; [by apply cs_posted0|]. apply Hfp in Hin. lia.
      * rewrite lookup_insert_eq. eauto.
    + intros tx Hin. rewrite lookup_insert_ne; [by apply cs_disputed0|].
      apply Hfd in Hin. lia.
  - (* withdrawal *)
    constructor; simpl; try done.
    + rewrite dict_set_keys; eauto.
    + intros tx r Hr. eapply dict_get_set_is_Some, cs_owner0. done.
    + apply alive_unlocked_in; [simpl; rewrite dict_set_keys; eauto|].
      exists cid. eexists. simpl. rewrite dict_get_set_eq. done.
    + lia.
    + intros tx Hr%cs_fresh0. lia.
    + intros c a0. rewrite dict_get_set. case_decide; [subst c|by apply cs_grid0].
      intros [= <-]. simpl. apply on_grid_dec_round, on_grid_minus; [by eapply cs_grid0 | done].
  - (* dispute *)
    assert (tx ∉ disputed_txs s) as Hnd by auto.
    constructor; simpl; try done.
    + rewrite dict_set_keys; eauto.
    + intros tx' r'. rewrite lookup_insert. case_decide.
      * intros [= <-]. simpl. rewrite dict_get_set_eq. eauto.
      * intros Hr'. eapply dict_get_set_is_Some, cs_owner0. done.
    + apply alive_unlocked_in; [simpl; rewrite dict_set_keys; eauto|].
      exists (client r). eexists. simpl. rewrite dict_get_set_eq. done.
    + intros tx'. rewrite lookup_insert. case_decide; [|by apply cs_fresh0].
      subst. intros _. apply cs_fresh0. eauto.
    + intros tx' r'. rewrite lookup_insert. case_decide; [|by apply cs_amount0].
      intros [= <-]. simpl. by eapply cs_amount0.
    + intros c a0. rewrite dict_get_set. case_decide; [subst c|by apply cs_grid0].
      intros [= <-]. simpl.
      apply on_grid_dec_round, on_grid_minus; [by eapply cs_grid0 | by eapply cs_amount0].
    + assert (list_remove tx (posted_txs s) ++ disputed_txs s ++ [tx]
              ≡ₚ posted_txs s ++ disputed_txs s) as ->; [|done].
      rewrite (list_remove_perm tx (posted_txs s)) at 2 by done.
      rewrite (Permutation_app_comm (disputed_txs s) [tx]). simpl.
      by rewrite Permutation_middle.
    + intros tx' Hin'.
      assert (tx' ≠ tx)
        by (intros ->; by apply (list_remove_NoDup_notin tx (posted_txs s) Hp)).
      rewrite lookup_insert_ne by done. by eapply cs_posted0, list_remove_elem.
    + intros tx' [Hin'| ->%list_elem_of_singleton]%elem_of_app.
      * rewrite lookup_insert_ne by (intros ->; done). by apply cs_disputed0.
      * rewrite lookup_insert_eq. eauto.
  - (* resolve *)
    assert (tx ∉ posted_txs s) as Hnp by (intros ?; by eapply Hpd).
    constructor; simpl; try done.
    + rewrite dict_set_keys; eauto.
    + intros tx' r'. rewrite lookup_insert. case_decide.
      * intros [= <-]. simpl. rewrite dict_get_set_eq. eauto.
      * intros Hr'. eapply dict_get_set_is_Some, cs_owner0. done.
    + apply alive_unlocked_in; [simpl; rewrite dict_set_keys; eauto|].
      exists (client r). eexists. simpl. rewrite dict_get_set_eq. done.
    + intros tx'. rewrite lookup_insert. case_decide; [|by apply cs_fresh0].
      subst. intros _. apply cs_fresh0. eauto.
    + intros tx' r'. rewrite lookup_insert. case_decide; [|by apply cs_amount0].
      intros [= <-]. simpl. by eapply cs_amount0.
    + intros c a0. rewrite dict_get_set. case_decide; [subst c|by apply cs_grid0].
      intros [= <-]. simpl.
      apply on_grid_dec_round, on_grid_plus; [by eapply cs_grid0 | by eapply cs_amount0].
    + apply (sublist_NoDup _ (posted_txs s ++ disputed_txs s)); [done|].
      apply sublist_app; [done | apply list_remove_sublist].
    + intros tx' Hin'. rewrite lookup_insert_ne by (intros ->; done).
      by apply cs_posted0.
    + intros tx' Hin'.
      assert (tx' ≠ tx)
        by (intros ->; by apply (list_remove_NoDup_notin tx (disputed_txs s) Hd)).
      rewrite lookup_insert_ne by done. by eapply cs_disputed0, list_remove_elem.
  - (* chargeback *)
    assert (tx ∉ posted_txs s) as Hnp by (intros ?; by eapply Hpd).
    constructor; simpl; try done.
    + rewrite dict_set_keys; eauto.
    + intros tx' r'. rewrite lookup_insert. case_decide.
      * intros [= <-]. simpl. rewrite dict_get_set_eq. eauto.
      * intros Hr'. eapply dict_get_set_is_Some, cs_owner0. done.
    + apply alive_unlocked_in; [simpl; rewrite dict_set_keys; eauto|].
      destruct (other_unlocked s (client r)) as (c' & Hne & a' & Ha' & Hl'); [done..|].
      exists c', a'. simpl. by rewrite dict_get_set_ne.
    + intros tx'. rewrite lookup_insert. case_decide; [|by apply cs_fresh0].
      subst. intros _. apply cs_fresh0. eauto.
    + intros tx' r'. rewrite lookup_insert. case_decide; [|by apply cs_amount0].
      intros [= <-]. simpl. by eapply cs_amount0.
    + intros c a0. rewrite dict_get_set. case_decide; [subst c|by apply cs_grid0].
      intros [= <-]. simpl. by eapply cs_grid0.
    + apply (sublist_NoDup _ (posted_txs s ++ disputed_txs s)); [done|].
      apply sublist_app; [done | apply list_remove_sublist].
    + intros tx' Hin'. rewrite lookup_insert_ne by (intros ->; done).
      by apply cs_posted0.
    + intros tx' Hin'.
      assert (tx' ≠ tx)
        by (intros ->; by apply (list_remove_NoDup_notin tx (disputed_txs s) Hd)).
      rewrite lookup_insert_ne by done. by eapply cs_disputed0, list_remove_elem.
Qed.

(** ** The handlers refine the transition relation *)

Section handlers.
Context {R : RandomGen} {L : RandomGenLaws R}.

Lemma min_units_nonneg s :
  consistent s → 0 ≤ round_half_even (min_amount s / BPS).
Proof.
  intros Hs. apply round_half_even_ge_Z, div_BPS_ge.
  pose proof (cs_min s Hs). change (inject_Z 0) with 0%Q. lra.
Qed.

Lemma units_nonneg n : 0 ≤ n → (0 <= inject_Z n * BPS)%Q.
Proof.
  intros H%inject_Z_le. change (inject_Z 0) with 0%Q in H. unfold BPS. lra.
Qed.

Lemma units_ordered s :
  consistent s →
  0 ≤ round_half_even (min_amount s / BPS) ≤ round_half_even (max_amount s / BPS).
Proof.
  intros Hs. split; [by apply min_units_nonneg|].
  apply round_half_even_mono. pose proof (cs_max s Hs). rewrite !div_BPS. lra.
Qed.

Lemma random_deposit_spec s cid a g :
  consistent s → dict_get cid (accounts s) = Some a → locked a = false →
  match _random_deposit cid s g with
  | Ok (row, s', g') =>
      ∃ amt, row = (Deposit, cid, tx_counter s, Some amt) ∧ action s row s'
  | Raise e =>
      e = InvalidOperation ∧ 10 ^ prec ≤ round_half_even (max_amount s / BPS)
  | Diverge => False
  end.
Proof.
  intros Hs Ha Hl. unfold _random_deposit.
  pose proof (units_ordered s Hs) as [H0 Hord].
  assert (0 < max_amount s)%Q as Hpos
    by (pose proof (cs_min s Hs); pose proof (cs_max s Hs); lra).
  destruct (Z_lt_le_dec (round_half_even (max_amount s / BPS)) (10 ^ prec)) as [Hp|Hp].
  - destruct (decimal_from_range_ok (min_amount s) (max_amount s) g Hpos)
      as (n & g' & -> & Hn1 & Hn2); [lia..|].
    simpl. unfold dict_getitem. rewrite Ha. simpl.
    eexists. split; [reflexivity|].
    apply (act_deposit s cid a); [done | done | apply on_grid_units | |].
    + apply units_nonneg. lia.
    + apply units_le. lia.
  - rewrite (decimal_from_range_invalid (min_amount s) (max_amount s) g Hpos)
      by (right; lia).
    done.
Qed.

Lemma random_withdrawal_spec s cid a g :
  consistent s → dict_get cid (accounts s) = Some a → locked a = false →
  (min_amount s <= available a)%Q →
  match _random_withdrawal cid s g with
  | Ok (row, s', g') =>
      ∃ amt, row = (Withdrawal, cid, tx_counter s, Some amt) ∧ action s row s'
  | Raise e =>
      e = InvalidOperation ∧ 10 ^ prec ≤ round_half_even (max_amount s / BPS)
  | Diverge => False
  end.
Proof.
  intros Hs Ha Hl Hf. unfold _random_withdrawal, dict_getitem. rewrite Ha. simpl.
  pose proof (cs_min s Hs) as Hmin. pose proof (cs_max s Hs) as Hmax.
  pose proof (units_ordered s Hs) as [H0 Hord].
  set (max_amt := dec_min (available a) (max_amount s)).
  assert (min_amount s <= max_amt ∧ max_amt <= available a
          ∧ max_amt <= max_amount s)%Q as (Hlo & Hhi & Hmx).
  { unfold max_amt, dec_min. destruct (Qlt_bool _ _) eqn:E.
    - apply Qlt_bool_iff in E. lra.
    - apply Qlt_bool_false in E. lra. }
  apply Qlt_bool_false in Hlo as Hlo'. rewrite Hlo'.
  assert (round_half_even (min_amount s / BPS) ≤ round_half_even (max_amt / BPS)
          ≤ round_half_even (max_amount s / BPS)) as [Hu1 Hu2].
  { split; apply round_half_even_mono; rewrite !div_BPS; lra. }
  destruct (Z_lt_le_dec (round_half_even (max_amt / BPS)) (10 ^ prec)) as [Hp|Hp].
  - destruct (decimal_from_range_ok (min_amount s) max_amt g)
      as (n & g' & -> & Hn1 & Hn2); [lra | lia | lia |]. simpl.
    eexists. split; [reflexivity|].
    apply (act_withdrawal s cid a); [done | done | apply on_grid_units | | |].
    + apply units_nonneg. lia.
    + destruct (cs_grid s Hs cid a Ha) as [z Hz].
      assert (n ≤ z) as Hnz%units_le; [|rewrite Hz; done].
      assert (round_half_even (max_amt / BPS) ≤ z).
      { apply round_half_even_le_Z, div_BPS_le. rewrite <- Hz. done. }
      lia.
    + apply units_le. lia.
  - rewrite (decimal_from_range_invalid (min_amount s) max_amt g)
      by (lra || (right; lia)).
    split; [done | lia].
Qed.

Lemma eligible_owner s tx :
  tx_eligible s tx = true →
  ∃ r a, deposit_records s !! tx = Some r
         ∧ dict_get (client r) (accounts s) = Some a ∧ locked a = false.
Proof. intros (r & Hr & a & Ha & Hl)%tx_eligible_true. by exists r, a. Qed.

Lemma dispute_spec s g :
  ∃ orow s' g', _dispute s g = Ok (orow, s', g')
    ∧ match orow with
      | Some row => step s row s' ∧ row_kind row = Dispute
      | None => cleaned s s' ∧ ∀ tx, tx ∈ posted_txs s → tx_eligible s tx = false
      end.
Proof.
  unfold _dispute.
  destruct (choose_tx_spec s (posted_txs s) g) as (otx & pool & g' & -> & Hsub & Hres).
  simpl. destruct otx as [tx|].
  - destruct Hres as [Hin (r & a & Hr & Ha & Hl)%eligible_owner].
    unfold pool_remove. rewrite decide_True by done. simpl.
    rewrite Hr. simpl. unfold update_owner, dict_getitem. simpl. rewrite Ha. simpl.
    eexists _, _, g'. split; [reflexivity|]. split; [|done].
    exists (set_posted_txs s pool). split.
    + exists pool, (disputed_txs s). done.
    + by apply (act_dispute (set_posted_txs s pool) tx r a).
  - destruct Hres as [-> Hall]. exists None, (set_posted_txs s []), g'.
    split; [done|]. split; [|done].
    exists [], (disputed_txs s). split_and!; [apply sublist_nil_l | done | done].
Qed.

Lemma resolve_spec s g :
  ∃ orow s' g', _resolve s g = Ok (orow, s', g')
    ∧ match orow with
      | Some row => step s row s' ∧ row_kind row = Resolve
      | None => cleaned s s' ∧ ∀ tx, tx ∈ disputed_txs s → tx_eligible s tx = false
      end.
Proof.
  unfold _resolve.
  destruct (choose_tx_spec s (disputed_txs s) g) as (otx & pool & g' & -> & Hsub & Hres).
  simpl. destruct otx as [tx|].
  - destruct Hres as [Hin (r & a & Hr & Ha & Hl)%eligible_owner].
    unfold pool_remove. rewrite decide_True by done. simpl.
    rewrite Hr. simpl. unfold update_owner, dict_getitem. simpl. rewrite Ha. simpl.
    eexists _, _, g'. split; [reflexivity|]. split; [|done].
    exists (set_disputed_txs s pool). split.
    + exists (posted_txs s), pool. split_and!; [done | done | by destruct s].
    + by apply (act_resolve (set_disputed_txs s pool) tx r a).
  - destruct Hres as [-> Hall]. exists None, (set_disputed_txs s []), g'.
    split; [done|]. split; [|done].
    exists (posted_txs s), []. split_and!; [done | apply sublist_nil_l | by destruct s].
Qed.

Lemma chargeback_spec s g :
  (2 ≤ length (_unlocked_clients s))%nat →
  ∃ orow s' g', _chargeback s g = Ok (orow, s', g')
    ∧ match orow with
      | Some row => step s row s' ∧ row_kind row = Chargeback
      | None => cleaned s s' ∧ ∀ tx, tx ∈ disputed_txs s → tx_eligible s tx = false
      end.
Proof.
  intros Htwo. unfold _chargeback.
  destruct (choose_tx_spec s (disputed_txs s) g) as (otx & pool & g' & -> & Hsub & Hres).
  simpl. destruct otx as [tx|].
  - destruct Hres as [Hin (r & a & Hr & Ha & Hl)%eligible_owner].
    unfold pool_remove. rewrite decide_True by done. simpl.
    rewrite Hr. simpl. unfold update_owner, dict_getitem. simpl. rewrite Ha. simpl.
    eexists _, _, g'. split; [reflexivity|]. split; [|done].
    exists (set_disputed_txs s pool). split.
    + exists (posted_txs s), pool. split_and!; [done | done | by destruct s].
    + by apply (act_chargeback (set_disputed_txs s pool) tx r a).
  - destruct Hres as [-> Hall]. exists None, (set_disputed_txs s []), g'.
    split; [done|]. split; [|done].
    exists (posted_txs s), []. split_and!; [done | apply sublist_nil_l | by destruct s].
Qed.
End handlers.

(** ** The legal actions *)

Lemma valid_actions_spec s :
  (∀ tx r, deposit_records s !! tx = Some r →
     is_Some (dict_get (client r) (accounts s))) →
  ∃ p d : bool,
    _valid_actions s =
      Ok ((if bool_decide (_unlocked_clients s ≠ []) then [Deposit] else [])
          ++ (if bool_decide (_funded_clients s ≠ []) then [Withdrawal] else [])
          ++ (if p then [Dispute] else [])
          ++ (if d then [Resolve] else [])
          ++ (if bool_decide (2 ≤ length (_unlocked_clients s))%nat && d
              then [Chargeback] else []))
    ∧ (p = true ↔ pool_has_unlocked s (posted_txs s))
    ∧ (d = true ↔ pool_has_unlocked s (disputed_txs s)).
Proof.
  intros Hown.
  destruct (has_for_unlocked_spec s (posted_txs s) Hown) as (p & Hp & Hpi).
  destruct (has_for_unlocked_spec s (disputed_txs s) Hown) as (d & Hd & Hdi).
  exists p, d. split; [|done].
  unfold _valid_actions, _has_posted_for_unlocked, _has_disputed_for_unlocked.
  rewrite Hp, Hd. simpl.
  repeat case_bool_decide; rewrite ?Hd; destruct p, d; reflexivity.
Qed.

Lemma valid_actions_elem (u f p d t : bool) k :
  k ∈ (if u then [Deposit] else []) ++ (if f then [Withdrawal] else [])
      ++ (if p then [Dispute] else []) ++ (if d then [Resolve] else [])
      ++ (if t && d then [Chargeback] else [])
  ↔ match k with
    | Deposit => u = true
    | Withdrawal => f = true
    | Dispute => p = true
    | Resolve => d = true
    | Chargeback => t = true ∧ d = true
    end.
Proof.
  destruct u, f, p, d, t, k; simpl;
    rewrite ?elem_of_cons, ?elem_of_nil; intuition congruence.
Qed.

Lemma action_weights_lookup valid i w :
  action_weights valid !! i = Some w → Qeq_bool w 0 = false →
  ∃ name w0, action_order !! i = Some (name, w0) ∧ name ∈ valid.
Proof.
  unfold action_weights. rewrite list_lookup_fmap.
  destruct (action_order !! i) as [[name w0]|]; [|done]. simpl.
  case_bool_decide; [|by intros [= <-]]. intros _ _. by exists name, w0.
Qed.

Lemma action_weights_nonneg valid : Forall (λ w, (0 <= w)%Q) (action_weights valid).
Proof.
  unfold action_weights, action_order. simpl.
  repeat constructor; case_bool_decide; done.
Qed.

Lemma any_weight_valid valid k : k ∈ valid → any_weight (action_weights valid) = true.
Proof.
  intros Hk. unfold any_weight, action_weights, action_order.
  destruct k; simpl; repeat case_bool_decide; try done; simpl;
    rewrite ?orb_true_r; done.
Qed.

(** ** One call of [next_row] *)

Lemma step_action s row s' : action s row s' → step s row s'.
Proof. intros H. exists s. split; [apply cleaned_refl | done]. Qed.

Lemma not_eligible_no_unlocked s pool :
  (∀ tx, tx ∈ pool → tx_eligible s tx = false) → ¬ pool_has_unlocked s pool.
Proof.
  intros Hall (tx & r & Hin & Hr & Hu).
  assert (tx_eligible s tx = true) as Ht by (apply tx_eligible_true; eauto).
  rewrite Hall in Ht; done.
Qed.

Section next_row.
Context {R : RandomGen} {L : RandomGenLaws R}.

(** A damped chargeback draw is the one way [next_row] calls itself. *)
Lemma next_row_damped s g g2 fuel :
  damping_draw s g = Some g2 → next_row (S fuel) s g = next_row fuel s g2.
Proof.
  unfold damping_draw. cbn [next_row].
  destruct (_valid_actions s) as [valid| |]; [|done..]. cbn [mbind result_bind].
  destruct (negb (any_weight (action_weights valid))); [done|].
  destruct (random_choices (action_weights valid) g) as [i g1].
  destruct (action_order !! i) as [[name w]|]; [|done].
  destruct name; try done. cbn.
  case_bool_decide; [|done].
  destruct (random_random g1) as [x g3].
  destruct (Qlt_bool chargeback_threshold x); [|done]. by intros [= ->].
Qed.

(** Any other draw emits a row. *)
Lemma next_row_emits s g fuel :
  consistent s → damping_draw s g = None → emits s (next_row (S fuel) s g).
Proof.
  intros Hs. unfold damping_draw. cbn [next_row].
  destruct (valid_actions_spec s (cs_owner s Hs)) as (p & d & -> & Hp & Hd).
  cbn [mbind result_bind].
  match goal with |- context [action_weights ?v] => set (valid := v) end.
  assert (∀ k, k ∈ valid ↔
            match k with
            | Deposit => _unlocked_clients s ≠ []
            | Withdrawal => _funded_clients s ≠ []
            | Dispute => pool_has_unlocked s (posted_txs s)
            | Resolve => pool_has_unlocked s (disputed_txs s)
            | Chargeback => (2 ≤ length (_unlocked_clients s))%nat
                            ∧ pool_has_unlocked s (disputed_txs s)
            end) as Hvalid.
  { intros k. unfold valid. rewrite valid_actions_elem.
    destruct k; rewrite ?bool_decide_eq_true, ?Hp, ?Hd; done. }
  clearbody valid.
  rewrite (any_weight_valid valid Deposit) by (apply Hvalid, (cs_alive s Hs)).
  cbn [negb].
  pose proof (random_choices_positive (action_weights valid) g
                (action_weights_nonneg valid)
                (any_weight_valid valid Deposit
                   (proj2 (Hvalid Deposit) (cs_alive s Hs)))) as (w & Hw & Hnz).
  destruct (random_choices (action_weights valid) g) as [i g1]. simpl in Hw.
  destruct (action_weights_lookup valid i w Hw Hnz) as (name & w0 & -> & Hname).
  apply Hvalid in Hname. cbn [from_option mbind result_bind].
  pose proof (cs_keys s Hs) as Hkeys.
  destruct name.
  - (* deposit *)
    intros _. pose proof (choose_client_spec false s g1) as Hc. cbn zeta in Hc.
    destruct (_unlocked_clients s) as [|c0 l] eqn:Eu; [done|].
    destruct Hc as (cid & g2 & Hc & Hin). rewrite <- Eu in Hin.
    case_bool_decide; [done|]. rewrite Hc. cbn [mbind result_bind].
    apply unlocked_clients_unlocked_in in Hin as (a & Ha & Hl); [|done].
    pose proof (random_deposit_spec s cid a g2 Hs Ha Hl) as Hspec.
    destruct (_random_deposit cid s g2) as [[[row s'] g']|e|]; [|done..].
    destruct Hspec as (amt & -> & Hact). by apply step_action.
  - (* withdrawal *)
    intros _. pose proof (choose_client_spec true s g1) as Hc. cbn zeta in Hc.
    destruct (_funded_clients s) as [|c0 l] eqn:Eu; [done|].
    destruct Hc as (cid & g2 & Hc & Hin). rewrite <- Eu in Hin.
    case_bool_decide; [|done]. rewrite Hc. cbn [mbind result_bind].
    apply funded_clients_elem in Hin as (a & Ha & Hl & Hf).
    apply (dict_elem_get _ _ _ Hkeys) in Ha.
    pose proof (random_withdrawal_spec s cid a g2 Hs Ha Hl Hf) as Hspec.
    destruct (_random_withdrawal cid s g2) as [[[row s'] g']|e|]; [|done..].
    destruct Hspec as (amt & -> & Hact). by apply step_action.
  - (* dispute *)
    intros _. case_bool_decide; [done|].
    destruct (dispute_spec s g1) as (orow & s' & g' & -> & Hres).
    cbn [mbind result_bind]. destruct orow as [row|].
    + apply Hres.
    + destruct Hres as [_ Hall]. by apply not_eligible_no_unlocked in Hall.
  - (* resolve *)
    intros _. case_bool_decide; [done|].
    destruct (resolve_spec s g1) as (orow & s' & g' & -> & Hres).
    cbn [mbind result_bind]. destruct orow as [row|].
    + apply Hres.
    + destruct Hres as [_ Hall]. by apply not_eligible_no_unlocked in Hall.
  - (* chargeback *)
    case_bool_decide; [|done].
    destruct (random_random g1) as [x g2].
    destruct (Qlt_bool chargeback_threshold x); [done|]. intros _.
    destruct Hname as [Htwo Hpool].
    destruct (chargeback_spec s g2 Htwo) as (orow & s' & g' & -> & Hres).
    cbn [mbind result_bind]. destruct orow as [row|].
    + apply Hres.
    + destruct Hres as [_ Hall]. by apply not_eligible_no_unlocked in Hall.
Qed.

(** What [next_row] returns from a consistent builder is a step of the
    transition relation; the only error it raises is the invalid
    operation of the sampler, when [max_amount] is beyond the precision of
    the context. *)
Lemma next_row_spec fuel s g :
  consistent s →
  match next_row fuel s g with
  | Ok (row, s', g') => step s row s'
  | Raise e =>
      e = InvalidOperation ∧ 10 ^ prec ≤ round_half_even (max_amount s / BPS)
  | Diverge => True
  end.
Proof.
  intros Hs. revert g. induction fuel as [|fuel IH]; intros g; [done|].
  destruct (damping_draw s g) as [g2|] eqn:E.
  - rewrite (next_row_damped s g g2 fuel E). apply IH.
  - pose proof (next_row_emits s g fuel Hs E) as He.
    by destruct (next_row (S fuel) s g) as [[[row s'] g']|e|].
Qed.

(** When the fuel runs out, every draw of the call was a damped
    chargeback. *)
Lemma next_row_hung fuel s g :
  consistent s → next_row (S fuel) s g = Diverge →
  ∃ g2, damping_draw s g = Some g2 ∧ next_row fuel s g2 = Diverge.
Proof.
  intros Hs Hd. destruct (damping_draw s g) as [g2|] eqn:E.
  - exists g2. split; [done|]. by rewrite <- (next_row_damped s g g2 fuel E).
  - pose proof (next_row_emits s g fuel Hs E) as He. by rewrite Hd in He.
Qed.

(** Running out of fuel means that many damped chargeback draws in a row. *)
Lemma next_row_diverge_damped fuel s g :
  consistent s → next_row fuel s g = Diverge → damped_chain fuel s g.
Proof.
  intros Hs. revert g. induction fuel as [|fuel IH]; intros g Hd; [done|].
  destruct (next_row_hung fuel s g Hs Hd) as (g2 & Hdraw & Hd2).
  exists g2. split; [done | by apply IH].
Qed.
End next_row.

(** ** The constructor *)

Lemma fromkeys_spec (ids : list Z) (d0 : list (Z * ClientAccount)) :
  let d := foldl (λ d cid, dict_set cid ClientAccount_init d) d0 ids in
  NoDup d0.*1 → Forall (λ ca, ca.2 = ClientAccount_init) d0 →
  NoDup d.*1 ∧ Forall (λ ca, ca.2 = ClientAccount_init) d
  ∧ (∀ c, c ∈ ids → is_Some (dict_get c d)).
Proof.
  revert d0. induction ids as [|c ids IH]; intros d0 d Hnd Hall.
  - split_and!; [done | done | by intros ? ?%elem_of_nil].
  - subst d. cbn [foldl].
    destruct (IH (dict_set c ClientAccount_init d0)) as (H1 & H2 & H3).
    { by apply dict_set_NoDup. }
    { clear -Hall. induction d0 as [|[k v] d0 IH']; simpl.
      - by repeat constructor.
      - apply Forall_cons in Hall as [Hv Hall]. case_decide.
        + by constructor.
        + constructor; auto. }
    split_and!; [done | done |].
    intros c' [->|Hin]%elem_of_cons; [|by apply H3].
    clear -c. generalize (dict_get_set_eq c ClientAccount_init d0).
    generalize (dict_set c ClientAccount_init d0). intros d Hd.
    revert d Hd. induction ids as [|c' ids IH]; intros d Hd; simpl; [eauto|].
    apply IH. rewrite dict_get_set. case_decide; [done | done].
Qed.

Section constructor.
Context {R : RandomGen} {L : RandomGenLaws R}.

Lemma client_ids_ok count g :
  1 ≤ count ≤ 65535 →
  ∃ ids g', _client_ids count g = Ok (ids, g') ∧ ids ≡ₚ range 1 (count + 1).
Proof.
  intros Hc. unfold _client_ids.
  assert ((1 <=? count) && (count <=? 65535) = true) as ->.
  { apply andb_true_iff. lia. }
  simpl. pose proof (random_shuffle_perm (range 1 (count + 1)) g) as Hp.
  destruct (random_shuffle (range 1 (count + 1)) g) as [ids g']. by exists ids, g'.
Qed.

(** The constructor succeeds exactly on the configurations it accepts. *)
Lemma FeedBuilder_init_ok args g0 :
  (0 < args_min_amount args)%Q → (args_min_amount args < args_max_amount args)%Q →
  1 ≤ args_clients args ≤ 65535 →
  ∃ s, FeedBuilder_init args g0 = Ok (s, random_seed (args_seed args)).
Proof.
  intros Hmin%Qle_bool_false Hmax%Qle_bool_false Hc. unfold FeedBuilder_init.
  rewrite Hmin, Hmax.
  destruct (client_ids_ok (args_clients args) g0 Hc) as (ids & g' & -> & _).
  simpl. eauto.
Qed.

Lemma FeedBuilder_init_inv args g0 s g :
  FeedBuilder_init args g0 = Ok (s, g) →
  (0 < args_min_amount args)%Q ∧ (args_min_amount args < args_max_amount args)%Q
  ∧ 1 ≤ args_clients args ≤ 65535
  ∧ g = random_seed (args_seed args)
  ∧ ∃ ids, ids ≡ₚ range 1 (args_clients args + 1)
    ∧ s = {| min_amount := args_min_amount args;
             max_amount := args_max_amount args;
             tx_counter := 1;
             accounts := foldl (λ d cid, dict_set cid ClientAccount_init d) [] ids;
             deposit_records := ∅; posted_txs := []; disputed_txs := [] |}.
Proof.
  unfold FeedBuilder_init.
  destruct (Qle_bool (args_min_amount args) 0) eqn:Emin; [done|].
  destruct (Qle_bool (args_max_amount args) (args_min_amount args)) eqn:Emax; [done|].
  apply Qle_bool_false in Emin, Emax.
  unfold _client_ids.
  destruct ((1 <=? args_clients args) && (args_clients args <=? 65535)) eqn:Ec; [|done].
  apply andb_true_iff in Ec as [?%Z.leb_le ?%Z.leb_le]. simpl.
  pose proof (random_shuffle_perm (range 1 (args_clients args + 1)) g0) as Hp.
  destruct (random_shuffle (range 1 (args_clients args + 1)) g0) as [ids g'].
  simpl in Hp. intros [= <- <-]. split_and!; try done. by exists ids.
Qed.

Lemma FeedBuilder_init_consistent args g0 s g :
  FeedBuilder_init args g0 = Ok (s, g) → consistent s.
Proof.
  intros (Hmin & Hmax & Hc & _ & ids & Hp & ->)%FeedBuilder_init_inv.
  destruct (fromkeys_spec ids []) as (Hnd & Hall & Hin);
    [apply NoDup_nil_2 | constructor |].
  constructor; simpl; try done.
  - apply alive_unlocked_in; [done|]. simpl.
    destruct (Hin 1) as [a Ha].
    { rewrite Hp. apply range_from_elem. lia. }
    exists 1, a. split; [done|].
    apply dict_get_elem in Ha. rewrite Forall_forall in Hall.
    pose proof (Hall _ Ha) as E. simpl in E. by subst a.
  - intros tx [? ?]. by rewrite lookup_empty in *.
  - intros c a Ha%dict_get_elem. rewrite Forall_forall in Hall.
    pose proof (Hall _ Ha) as E. simpl in E. subst a. apply on_grid_zero.
  - apply NoDup_nil_2.
  - by intros ? ?%elem_of_nil.
  - by intros ? ?%elem_of_nil.
Qed.
End constructor.

(** ** Rows and builder in step *)

Lemma replay_snoc hist row : replay (hist ++ [row]) = replay_row (replay hist) row.
Proof. unfold replay. by rewrite foldl_app. Qed.

Lemma balance_insert l m c0 v c :
  balance {| balances := <[c0 := v]> (balances l); amounts := m |} c
  = if decide (c0 = c) then v else balance l c.
Proof.
  unfold balance. simpl. rewrite lookup_insert. by case_decide.
Qed.

Lemma account_balance_set s s' k a' c :
  accounts s' = dict_set k a' (accounts s) →
  account_balance s' c
  = if decide (k = c) then (available a', held a') else account_balance s c.
Proof.
  intros E. unfold account_balance. rewrite E, dict_get_set. by case_decide.
Qed.

Lemma account_balance_get s c a :
  dict_get c (accounts s) = Some a → account_balance s c = (available a, held a).
Proof. intros E. unfold account_balance. by rewrite E. Qed.

Lemma locked_in_set s s' k a a' c :
  dict_get k (accounts s) = Some a → locked a = false →
  accounts s' = dict_set k a' (accounts s) →
  locked_in s c → locked_in s' c.
Proof.
  intros Ha Hl E (a0 & Ha0 & Hl0). exists a0. rewrite E, dict_get_set.
  case_decide; [subst; congruence | done].
Qed.

Lemma filter_money_snoc hist (row : Row) :
  filter (λ row, is_money row = true) (hist ++ [row])
  = filter (λ row, is_money row = true) hist ++ (if is_money row then [row] else []).
Proof.
  rewrite filter_app. f_equal. destruct (is_money row) eqn:E.
  - by rewrite filter_cons_True.
  - rewrite filter_cons_False; [done|]. by rewrite E.
Qed.

Lemma replay_row_amounts l (row : Row) :
  amounts (replay_row l row)
  = match row_kind row with
    | Deposit => <[row_tx row := default 0%Q (row_amount row)]> (amounts l)
    | _ => amounts l
    end.
Proof.
  destruct row as [[[k c] t] amt]. unfold replay_row.
  destruct (balance l c) as [av hd]. by destruct k.
Qed.

Lemma tracked_cleaned hist s s' : tracked hist s → cleaned s s' → tracked hist s'.
Proof.
  intros [] Hc. pose proof (cleaned_consistent s s' tr_consistent0 Hc).
  destruct Hc as (p & d & _ & _ & ->). by constructor.
Qed.

Lemma tracked_action hist s row s' :
  tracked hist s → action s row s' → tracked (hist ++ [row]) s'.
Proof.
  intros Ht Hact. pose proof (action_consistent s row s' (tr_consistent _ _ Ht) Hact) as Hs'.
  pose proof (cs_counter s (tr_consistent _ _ Ht)) as Hcnt.
  destruct Ht.
  assert (∀ k a a' row', accounts s' = dict_set k a' (accounts s) →
            dict_get k (accounts s) = Some a → locked a = false →
            row' ∈ hist → row_kind row' = Chargeback →
            locked_in s' (row_client row')) as Hlocked.
  { intros k a a' row' E Ha Hl Hin Hk. eapply locked_in_set; eauto. }
  destruct Hact as [cid a amt Ha Hl Hg Hamt Hcap
                   |cid a amt Ha Hl Hg Hamt Hle Hcap
                   |tx r a Hin Hr Ha Hl
                   |tx r a Hin Hr Ha Hl
                   |tx r a Hin Hr Ha Hl Htwo];
    (constructor; [done | | | |]).
  - (* deposit *)
    intros tx. rewrite replay_snoc, replay_row_amounts.
    unfold row_kind, row_tx, row_amount. simpl.
    rewrite !lookup_insert. case_decide; [done | apply tr_amounts0].
  - simpl. intros tx r. rewrite lookup_insert, elem_of_app. case_decide.
    + intros [= <-]. subst. right. simpl. left.
    + intros Hr. left. by apply tr_records0.
  - rewrite filter_money_snoc, fmap_app, tr_counter0. simpl.
    by rewrite range_snoc.
  - intros row' [Hin| ->%list_elem_of_singleton]%elem_of_app Hk; [|done].
    by eapply (Hlocked cid a).
  - (* withdrawal *)
    intros tx. rewrite replay_snoc, replay_row_amounts.
    unfold row_kind, row_tx, row_amount. simpl. apply tr_amounts0.
  - simpl. intros tx r Hr. apply elem_of_app. left. by apply tr_records0.
  - rewrite filter_money_snoc, fmap_app, tr_counter0. simpl.
    by rewrite range_snoc.
  - intros row' [Hin| ->%list_elem_of_singleton]%elem_of_app Hk; [|done].
    by eapply (Hlocked cid a).
  - (* dispute *)
    intros tx'. rewrite replay_snoc, replay_row_amounts.
    unfold row_kind, row_tx, row_amount. simpl.
    rewrite lookup_insert, tr_amounts0. case_decide; [subst; by rewrite Hr | done].
  - simpl. intros tx' r'. rewrite lookup_insert, elem_of_app. case_decide.
    + intros [= <-]. subst. left. by apply (tr_records0 _ r).
    + intros Hr'. left. by apply tr_records0.
  - rewrite filter_money_snoc. cbn [is_money row_kind fst]. rewrite app_nil_r.
    apply tr_counter0.
  - intros row' [Hin'| ->%list_elem_of_singleton]%elem_of_app Hk; [|done].
    by eapply (Hlocked (client r) a).
  - (* resolve *)
    intros tx'. rewrite replay_snoc, replay_row_amounts.
    unfold row_kind, row_tx, row_amount. simpl.
    rewrite lookup_insert, tr_amounts0. case_decide; [subst; by rewrite Hr | done].
  - simpl. intros tx' r'. rewrite lookup_insert, elem_of_app. case_decide.
    + intros [= <-]. subst. left. by apply (tr_records0 _ r).
    + intros Hr'. left. by apply tr_records0.
  - rewrite filter_money_snoc. cbn [is_money row_kind fst]. rewrite app_nil_r.
    apply tr_counter0.
  - intros row' [Hin'| ->%list_elem_of_singleton]%elem_of_app Hk; [|done].
    by eapply (Hlocked (client r) a).
  - (* chargeback *)
    intros tx'. rewrite replay_snoc, replay_row_amounts.
    unfold row_kind, row_tx, row_amount. simpl.
    rewrite lookup_insert, tr_amounts0. case_decide; [subst; by rewrite Hr | done].
  - simpl. intros tx' r'. rewrite lookup_insert, elem_of_app. case_decide.
    + intros [= <-]. subst. left. by apply (tr_records0 _ r).
    + intros Hr'. left. by apply tr_records0.
  - rewrite filter_money_snoc. cbn [is_money row_kind fst]. rewrite app_nil_r.
    apply tr_counter0.
  - intros row' [Hin'| ->%list_elem_of_singleton]%elem_of_app Hk.
    + by eapply (Hlocked (client r) a).
    + eexists. simpl. rewrite dict_get_set_eq. done.
Qed.

Lemma trace_tracked s0 hist s : tracked [] s0 → trace s0 hist s → tracked hist s.
Proof.
  intros H0. induction 1 as [|hist s s' _ IH Hc|hist s row s' _ IH Ha].
  - done.
  - by eapply tracked_cleaned.
  - by eapply tracked_action.
Qed.

(** Induction over the histories of a builder, with [tracked] at hand. *)
Lemma trace_invariant (I : list Row → FeedBuilder → Prop) s0 :
  tracked [] s0 → I [] s0 →
  (∀ hist s s', tracked hist s → I hist s → cleaned s s' → I hist s') →
  (∀ hist s row s', tracked hist s → I hist s → action s row s' →
     I (hist ++ [row]) s') →
  ∀ hist s, trace s0 hist s → I hist s.
Proof.
  intros H0 Hi Hc Ha hist s Ht.
  induction Ht as [|hist s s' Ht IH Hcl|hist s row s' Ht IH Hact].
  - done.
  - eapply Hc; [by eapply trace_tracked | done | done].
  - eapply Ha; [by eapply trace_tracked | done | done].
Qed.

(** ** Runs within the precision of the context *)

Lemma cap_nonneg s : consistent s → (0 <= cap (max_amount s))%Q.
Proof. intros Hs. apply units_nonneg. pose proof (units_ordered s Hs). lia. Qed.

Lemma within_mono n m s :
  consistent s → n ≤ m → within_precision m s → within_precision n s.
Proof.
  intros Hs Hnm []. pose proof (cap_nonneg s Hs) as Hc.
  apply inject_Z_le in Hnm.
  assert (inject_Z n * cap (max_amount s) <= inject_Z m * cap (max_amount s))%Q
    by (by apply Qmult_le_compat_r).
  constructor; [done | done | |].
  - intros c a Ha. destruct (wp_available0 c a Ha). split; lra.
  - intros c a Ha. destruct (wp_held0 c a Ha). split; lra.
Qed.

Lemma within_cleaned n s s' :
  consistent s → within_precision n s → cleaned s s' → within_precision n s'.
Proof.
  intros Hs [] (p & d & Hp & Hd & ->). constructor; simpl; try done.
  intros c a Ha. destruct (wp_held0 c a Ha) as [H1 H2]. split; [|done].
  eapply Qle_trans; [|exact H1].
  apply held_due_sublist; [|done]. intros tx r Hr. by apply (cs_amount s Hs tx r).
Qed.

(** A balance with room for one more amount is not rounded by it. *)
Lemma exact_sum x y n c :
  on_grid x → on_grid y → 0 ≤ n → (0 <= c)%Q → (0 <= y <= c)%Q →
  (inject_Z (n + 1) * c - limit < x < limit - inject_Z (n + 1) * c)%Q →
  dec_add x y = (x + y)%Q ∧ dec_sub x y = (x - y)%Q
  ∧ (inject_Z n * c - limit < x + y < limit - inject_Z n * c)%Q
  ∧ (inject_Z n * c - limit < x - y < limit - inject_Z n * c)%Q.
Proof.
  intros Hx Hy Hn Hc [Hy0 Hyc] [Hlo Hhi]. rewrite inject_Z_plus in Hlo, Hhi.
  change (inject_Z 1) with 1%Q in *.
  assert (0 <= inject_Z n * c)%Q as Hnc.
  { apply Qmult_le_0_compat; [|done]. change 0%Q with (inject_Z 0).
    by apply inject_Z_le. }
  assert (dec_round (x + y) = x + y)%Q as E1
    by (apply dec_round_exact; [by apply on_grid_plus | split; lra]).
  assert (dec_round (x - y) = x - y)%Q as E2
    by (apply dec_round_exact; [by apply on_grid_minus | split; lra]).
  unfold dec_add, dec_sub. rewrite E1, E2.
  split_and!; try done; lra.
Qed.

(** Within the precision of the context the mutations are exact. *)
Lemma action_exact s row s' :
  consistent s → within_precision 1 s → action s row s' → exact_action s row s'.
Proof.
  intros Hs Hw Hact. pose proof (cap_nonneg s Hs) as Hc.
  assert (∀ c a y, dict_get c (accounts s) = Some a → on_grid y →
            (0 <= y <= cap (max_amount s))%Q →
            dec_add (available a) y = (available a + y)%Q
            ∧ dec_sub (available a) y = (available a - y)%Q
            ∧ dec_add (held a) y = (held a + y)%Q
            ∧ dec_sub (held a) y = (held a - y)%Q) as Hexact.
  { intros c a y Ha Hy Hyc.
    pose proof (wp_available 1 s Hw c a Ha) as Hav.
    destruct (wp_held 1 s Hw c a Ha) as [Hh1 Hh2].
    assert (0 <= held_due (deposit_records s) c (disputed_txs s))%Q as Hh0.
    { apply held_due_nonneg. intros tx r Hr. by apply (cs_amount s Hs tx r). }
    destruct (exact_sum (available a) y 0 _ (cs_grid s Hs c a Ha) Hy
                ltac:(done) Hc Hyc Hav) as (E1 & E2 & _).
    destruct (exact_sum (held a) y 0 _ (wp_grid 1 s Hw c a Ha) Hy
                ltac:(done) Hc Hyc) as (E3 & E4 & _).
    { change (inject_Z (0 + 1)) with 1%Q. change (inject_Z 1) with 1%Q in *.
      split; lra. }
    done. }
  assert (∀ tx r, deposit_records s !! tx = Some r →
            on_grid (amount r) ∧ (0 <= amount r <= cap (max_amount s))%Q) as Hrec.
  { intros tx r Hr. destruct (cs_amount s Hs tx r Hr).
    pose proof (wp_amount 1 s Hw tx r Hr). done. }
  destruct Hact as [cid a amt Ha Hl Hg Hamt Hcap
                   |cid a amt Ha Hl Hg Hamt Hle Hcap
                   |tx r a Hin Hr Ha Hl
                   |tx r a Hin Hr Ha Hl
                   |tx r a Hin Hr Ha Hl Htwo].
  - destruct (Hexact cid a amt Ha Hg ltac:(done)) as (-> & _).
    by apply exact_deposit.
  - destruct (Hexact cid a amt Ha Hg ltac:(done)) as (_ & -> & _).
    by apply exact_withdrawal.
  - destruct (Hrec tx r Hr) as [Hg Hb].
    destruct (Hexact _ a (amount r) Ha Hg Hb) as (_ & -> & -> & _).
    by apply exact_dispute.
  - destruct (Hrec tx r Hr) as [Hg Hb].
    destruct (Hexact _ a (amount r) Ha Hg Hb) as (-> & _ & _ & ->).
    by apply exact_resolve.
  - destruct (Hrec tx r Hr) as [Hg Hb].
    destruct (Hexact _ a (amount r) Ha Hg Hb) as (_ & _ & _ & ->).
    by apply exact_chargeback.
Qed.

Lemma within_action n s row s' :
  0 ≤ n → consistent s → within_precision (n + 1) s → exact_action s row s' →
  within_precision n s'.
Proof.
  intros Hn Hs Hw Hact. pose proof (cap_nonneg s Hs) as Hc.
  assert (∀ tx, tx ∈ disputed_txs s → tx < tx_counter s) as Hfd.
  { intros tx H. apply (pooled_fresh s tx Hs), elem_of_app. by right. }
  assert (0 <= inject_Z n * cap (max_amount s))%Q as Hnc.
  { apply Qmult_le_0_compat; [|done]. change 0%Q with (inject_Z 0).
    by apply inject_Z_le. }
  assert (∀ c a, dict_get c (accounts s) = Some a →
            (inject_Z n * cap (max_amount s) + cap (max_amount s) - limit
             < available a
             < limit - inject_Z n * cap (max_amount s) - cap (max_amount s))%Q
            ∧ (held_due (deposit_records s) c (disputed_txs s) <= held a
               < limit - inject_Z n * cap (max_amount s) - cap (max_amount s))%Q)
    as Hroom.
  { intros c a Ha. pose proof (wp_available _ s Hw c a Ha) as H1.
    pose proof (wp_held _ s Hw c a Ha) as H2.
    rewrite inject_Z_plus in H1, H2. change (inject_Z 1) with 1%Q in *.
    split; split; lra. }
  assert (∀ tx r, deposit_records s !! tx = Some r →
            on_grid (amount r) ∧ (0 <= amount r <= cap (max_amount s))%Q) as Hrec.
  { intros tx r Hr. destruct (cs_amount s Hs tx r Hr).
    pose proof (wp_amount _ s Hw tx r Hr). done. }
  pose proof (wp_grid _ s Hw) as Hgrid.
  destruct Hact as [cid a amt Ha Hl Hg Hamt Hcap
                   |cid a amt Ha Hl Hg Hamt Hle Hcap
                   |tx r a Hin Hr Ha Hl
                   |tx r a Hin Hr Ha Hl
                   |tx r a Hin Hr Ha Hl Htwo]; constructor; simpl.
  - (* deposit *)
    intros tx r. rewrite lookup_insert. case_decide; [|by apply Hrec].
    by intros [= <-].
  - intros c a0. rewrite dict_get_set. case_decide; [subst c|by apply Hgrid].
    intros [= <-]. simpl. by eapply Hgrid.
  - intros c a0. rewrite dict_get_set. case_decide; [subst c|].
    + intros [= <-]. simpl. destruct (Hroom _ _ Ha) as [[? ?] _]. split; lra.
    + intros Ha0. destruct (Hroom _ _ Ha0) as [[? ?] _]. split; lra.
  - intros c a0 Ha0.
    rewrite (held_due_ext (deposit_records s)).
    + revert Ha0. rewrite dict_get_set. case_decide; [subst c|].
      * intros [= <-]. simpl. destruct (Hroom _ _ Ha) as [_ [? ?]]. split; lra.
      * intros Ha0. destruct (Hroom _ _ Ha0) as [_ [? ?]]. split; lra.
    + intros tx Hin. apply due_insert_ne. apply Hfd in Hin. lia.
  - (* withdrawal *)
    by apply Hrec.
  - intros c a0. rewrite dict_get_set. case_decide; [subst c|by apply Hgrid].
    intros [= <-]. simpl. by eapply Hgrid.
  - intros c a0. rewrite dict_get_set. case_decide; [subst c|].
    + intros [= <-]. simpl. destruct (Hroom _ _ Ha) as [[? ?] _]. split; lra.
    + intros Ha0. destruct (Hroom _ _ Ha0) as [[? ?] _]. split; lra.
  - intros c a0. rewrite dict_get_set. case_decide; [subst c|].
    + intros [= <-]. simpl. destruct (Hroom _ _ Ha) as [_ [? ?]]. split; lra.
    + intros Ha0. destruct (Hroom _ _ Ha0) as [_ [? ?]]. split; lra.
  - (* dispute *)
    intros tx' r'. rewrite lookup_insert. case_decide; [|by apply Hrec].
    intros [= <-]. simpl. by apply (Hrec tx r).
  - intros c a0. rewrite dict_get_set. case_decide; [subst c|by apply Hgrid].
    intros [= <-]. simpl. apply on_grid_plus; [by eapply Hgrid | by apply (Hrec tx r)].
  - destruct (Hrec tx r Hr) as [_ [? ?]].
    intros c a0. rewrite dict_get_set. case_decide; [subst c|].
    + intros [= <-]. simpl. destruct (Hroom _ _ Ha) as [[? ?] _]. split; lra.
    + intros Ha0. destruct (Hroom _ _ Ha0) as [[? ?] _]. split; lra.
  - destruct (Hrec tx r Hr) as [_ [? ?]].
    intros c a0 Ha0.
    rewrite (held_due_ext (deposit_records s))
      by (intros; by apply due_insert_status).
    assert (due (deposit_records s) c tx
            = if decide (client r = c) then amount r else 0%Q) as Hdue
      by (unfold due; by rewrite Hr).
    rewrite held_due_app. simpl. rewrite Hdue.
    revert Ha0. rewrite dict_get_set. case_decide as Hcc.
    + subst c. intros [= <-]. simpl. destruct (Hroom _ _ Ha) as [_ [? ?]].
      split; lra.
    + intros Ha0. destruct (Hroom _ _ Ha0) as [_ [? ?]]. split; lra.
  - (* resolve *)
    intros tx' r'. rewrite lookup_insert. case_decide; [|by apply Hrec].
    intros [= <-]. simpl. by apply (Hrec tx r).
  - intros c a0. rewrite dict_get_set. case_decide; [subst c|by apply Hgrid].
    intros [= <-]. simpl. apply on_grid_minus; [by eapply Hgrid | by apply (Hrec tx r)].
  - destruct (Hrec tx r Hr) as [_ [? ?]].
    intros c a0. rewrite dict_get_set. case_decide; [subst c|].
    + intros [= <-]. simpl. destruct (Hroom _ _ Ha) as [[? ?] _]. split; lra.
    + intros Ha0. destruct (Hroom _ _ Ha0) as [[? ?] _]. split; lra.
  - destruct (Hrec tx r Hr) as [_ [? ?]].
    intros c a0 Ha0.
    rewrite (held_due_ext (deposit_records s))
      by (intros; by apply due_insert_status).
    pose proof (held_due_remove (deposit_records s) c tx _ Hin) as Hrem.
    assert (due (deposit_records s) c tx
            = if decide (client r = c) then amount r else 0%Q) as Hdue
      by (unfold due; by rewrite Hr).
    rewrite Hdue in Hrem.
    revert Ha0. rewrite dict_get_set. case_decide as Hcc.
    + subst c. intros [= <-]. simpl. destruct (Hroom _ _ Ha) as [_ [? ?]].
      split; lra.
    + intros Ha0. destruct (Hroom _ _ Ha0) as [_ [? ?]]. split; lra.
  - (* chargeback *)
    intros tx' r'. rewrite lookup_insert. case_decide; [|by apply Hrec].
    intros [= <-]. simpl. by apply (Hrec tx r).
  - intros c a0. rewrite dict_get_set. case_decide; [subst c|by apply Hgrid].
    intros [= <-]. simpl. apply on_grid_minus; [by eapply Hgrid | by apply (Hrec tx r)].
  - intros c a0. rewrite dict_get_set. case_decide; [subst c|].
    + intros [= <-]. simpl. destruct (Hroom _ _ Ha) as [[? ?] _]. split; lra.
    + intros Ha0. destruct (Hroom _ _ Ha0) as [[? ?] _]. split; lra.
  - destruct (Hrec tx r Hr) as [_ [? ?]].
    intros c a0 Ha0.
    rewrite (held_due_ext (deposit_records s))
      by (intros; by apply due_insert_status).
    pose proof (held_due_remove (deposit_records s) c tx _ Hin) as Hrem.
    assert (due (deposit_records s) c tx
            = if decide (client r = c) then amount r else 0%Q) as Hdue
      by (unfold due; by rewrite Hr).
    rewrite Hdue in Hrem.
    revert Ha0. rewrite dict_get_set. case_decide as Hcc.
    + subst c. intros [= <-]. simpl. destruct (Hroom _ _ Ha) as [_ [? ?]].
      split; lra.
    + intros Ha0. destruct (Hroom _ _ Ha0) as [_ [? ?]]. split; lra.
Qed.

Lemma agrees_cleaned hist s s' : agrees hist s → cleaned s s' → agrees hist s'.
Proof. by intros H (p & d & _ & _ & ->). Qed.

Lemma agrees_action hist s row s' :
  tracked hist s → agrees hist s → exact_action s row s' →
  agrees (hist ++ [row]) s'.
Proof.
  intros Ht Hag Hact. pose proof (tr_amounts _ _ Ht) as Ham.
  destruct Hact as [cid a amt Ha Hl Hg Hamt Hcap
                   |cid a amt Ha Hl Hg Hamt Hle Hcap
                   |tx r a Hin Hr Ha Hl
                   |tx r a Hin Hr Ha Hl
                   |tx r a Hin Hr Ha Hl Htwo];
    intros c; rewrite replay_snoc; unfold replay_row;
    rewrite Hag, (account_balance_get s _ a Ha), ?Ham, ?Hr, balance_insert;
    erewrite (account_balance_set s) by reflexivity;
    (case_decide; [done | apply Hag]).
Qed.

Lemma trace_step s0 hist s row s' :
  trace s0 hist s → step s row s' → trace s0 (hist ++ [row]) s'.
Proof.
  intros Ht (s1 & Hc & Ha). eapply trace_action; [|done]. by eapply trace_cleaned.
Qed.

(** ** Runs *)

Lemma omap_data (rows : list Row) :
  omap (λ l, match l with Header => None | Data row => Some row end)
       (Header :: (Data <$> rows)) = rows.
Proof.
  simpl. induction rows as [|row rows IH]; [done|].
  rewrite fmap_cons. simpl. by rewrite IH.
Qed.

Lemma trace_max s0 hist s : trace s0 hist s → max_amount s = max_amount s0.
Proof.
  induction 1 as [|hist s s' _ IH (p & d & _ & _ & ->)|hist s row s' _ IH Ha];
    [done | done |].
  rewrite <- IH. by destruct Ha.
Qed.

(** A run that starts with room for [n] rows is exact for [n] rows: the
    accounts are the ledger that the rows replay to. *)
Lemma trace_exact n s0 hist s :
  tracked [] s0 → agrees [] s0 → within_precision n s0 → trace s0 hist s →
  Z.of_nat (length hist) ≤ n →
  agrees hist s ∧ within_precision (n - Z.of_nat (length hist)) s.
Proof.
  intros H0 Hag Hw. apply (trace_invariant (λ hist s,
    Z.of_nat (length hist) ≤ n →
    agrees hist s ∧ within_precision (n - Z.of_nat (length hist)) s) s0 H0).
  - intros _. split; [done|]. by rewrite Z.sub_0_r.
  - intros hist' s1 s2 Ht IH Hc Hlen. destruct (IH Hlen) as [H1 H2].
    split; [by eapply agrees_cleaned|].
    eapply within_cleaned; [apply Ht | done | done].
  - intros hist' s1 row s2 Ht IH Hact Hlen.
    rewrite length_app in Hlen. simpl in Hlen.
    destruct IH as [H1 H2]; [lia|].
    pose proof (tr_consistent _ _ Ht) as Hs1.
    assert (exact_action s1 row s2) as Hex.
    { apply action_exact; [done | | done].
      eapply within_mono; [done | | exact H2]. lia. }
    split; [by eapply agrees_action|].
    rewrite length_app. simpl.
    apply (within_action _ s1 row s2); [lia | done | | done].
    replace (n - Z.of_nat (length hist' + 1) + 1) with (n - Z.of_nat (length hist'))
      by lia.
    done.
Qed.

Section runs.
Context {R : RandomGen} {L : RandomGenLaws R}.

Lemma FeedBuilder_init_tracked args g0 s g :
  FeedBuilder_init args g0 = Ok (s, g) → tracked [] s.
Proof.
  intros Hinit. pose proof (FeedBuilder_init_consistent _ _ _ _ Hinit) as Hs.
  apply FeedBuilder_init_inv in Hinit as (_ & _ & _ & _ & ids & _ & ->).
  constructor; try done. by intros ? ?%elem_of_nil.
Qed.

Lemma FeedBuilder_init_fresh args g0 s g c a :
  FeedBuilder_init args g0 = Ok (s, g) → dict_get c (accounts s) = Some a →
  a = ClientAccount_init.
Proof.
  intros (_ & _ & _ & _ & ids & _ & ->)%FeedBuilder_init_inv Ha.
  destruct (fromkeys_spec ids []) as (_ & Hall & _); [apply NoDup_nil_2 | constructor|].
  apply dict_get_elem in Ha. rewrite Forall_forall in Hall. apply (Hall _ Ha).
Qed.

Lemma FeedBuilder_init_agrees args g0 s g :
  FeedBuilder_init args g0 = Ok (s, g) → agrees [] s.
Proof.
  intros Hinit c. unfold account_balance, balance. simpl. rewrite lookup_empty. simpl.
  destruct (dict_get c _) as [a|] eqn:Ea; [|done].
  by rewrite (FeedBuilder_init_fresh _ _ _ _ _ _ Hinit Ea).
Qed.

Lemma FeedBuilder_init_within n args g0 s g :
  FeedBuilder_init args g0 = Ok (s, g) →
  (inject_Z n * cap (args_max_amount args) < limit)%Q →
  within_precision n s.
Proof.
  intros Hinit Hn.
  assert (max_amount s = args_max_amount args ∧ deposit_records s = ∅
          ∧ disputed_txs s = []) as (Hmax & Hrec & Hpool).
  { by apply FeedBuilder_init_inv in Hinit as (_ & _ & _ & _ & ids & _ & ->). }
  constructor; rewrite ?Hmax, ?Hrec, ?Hpool.
  - intros tx r. by rewrite lookup_empty.
  - intros c a Ha. rewrite (FeedBuilder_init_fresh _ _ _ _ _ _ Hinit Ha).
    apply on_grid_zero.
  - intros c a Ha. rewrite (FeedBuilder_init_fresh _ _ _ _ _ _ Hinit Ha).
    simpl. split; lra.
  - intros c a Ha. rewrite (FeedBuilder_init_fresh _ _ _ _ _ _ Hinit Ha).
    simpl. split; lra.
Qed.

(** What [write_rows] writes is a history of the builder, whatever the
    fuel and however the loop ends; the loop aborts only on the invalid
    operation of the sampler. *)
Lemma write_rows_trace fuel n s0 hist s g rows s_last o :
  tracked [] s0 → trace s0 hist s →
  write_rows fuel n s g = (rows, s_last, o) →
  trace s0 (hist ++ rows) s_last
  ∧ (∀ e, o = Aborted e →
       e = InvalidOperation ∧ 10 ^ prec ≤ round_half_even (max_amount s0 / BPS))
  ∧ (length rows ≤ n)%nat
  ∧ (o = Completed → length rows = n)
  ∧ (o = Hung → ∃ g', damped_chain fuel s_last g').
Proof.
  intros H0. revert hist s g rows. induction n as [|n IH]; intros hist s g rows Ht.
  - intros [= <- <- <-]. rewrite app_nil_r. done.
  - cbn [write_rows].
    pose proof (tr_consistent _ _ (trace_tracked _ _ _ H0 Ht)) as Hs.
    pose proof (next_row_spec fuel s g Hs) as Hn.
    destruct (next_row fuel s g) as [[[row s'] g']|e|] eqn:En.
    + destruct (write_rows fuel n s' g') as [[rows' sl] o'] eqn:Ew.
      intros [= <- <- <-].
      destruct (IH (hist ++ [row]) s' g' rows' (trace_step _ _ _ _ _ Ht Hn) Ew)
        as (H1 & H2 & H3 & H4 & H5).
      rewrite <- (assoc_L (++)) in H1. simpl in *.
      split_and!; [done | done | lia | intros; f_equal; auto | done].
    + intros [= <- <- <-]. rewrite app_nil_r. simpl.
      split_and!; [done | | lia | done | done].
      intros e' [= <-]. by rewrite <- (trace_max _ _ _ Ht).
    + intros [= <- <- <-]. rewrite app_nil_r. simpl.
      split_and!; [done | done | lia | done |].
      intros _. exists g. by apply next_row_diverge_damped.
Qed.

(** Every feed is a history of a builder that the constructor made. *)
Lemma feed_trace fuel args g0 :
  feed fuel args g0 = []
  ∨ ∃ s0 g s, FeedBuilder_init args g0 = Ok (s0, g)
              ∧ trace s0 (feed fuel args g0) s.
Proof.
  unfold feed, main.
  destruct (FeedBuilder_init args g0) as [[s0 g]| |] eqn:Hinit; [|by left..].
  right. exists s0, g.
  destruct (write_rows fuel _ s0 g) as [[rows sl] o] eqn:Ew.
  exists sl. split; [done|]. cbn [fst]. rewrite omap_data.
  by apply (write_rows_trace fuel _ s0 [] s0 g rows sl o
              (FeedBuilder_init_tracked _ _ _ _ Hinit) (trace_start s0) Ew).
Qed.

Lemma feed_property (P : list Row → Prop) fuel args g0 :
  P [] → (∀ s0 hist s, tracked [] s0 → trace s0 hist s → P hist) →
  P (feed fuel args g0).
Proof.
  intros Hnil Htr. destruct (feed_trace fuel args g0) as [->|(s0 & g & s & Hi & Ht)];
    [done|].
  eapply Htr; [|done]. by eapply FeedBuilder_init_tracked.
Qed.


Lemma builder_at_consistent fuel k args g0 s :
  builder_at fuel k args g0 = Some s → consistent s.
Proof.
  unfold builder_at.
  destruct (FeedBuilder_init args g0) as [[s0 g]| |] eqn:Hinit; [|done..].
  destruct (write_rows fuel k s0 g) as [[rows sl] o] eqn:Ew.
  destruct o; [|done..]. intros [= <-].
  pose proof (FeedBuilder_init_tracked _ _ _ _ Hinit) as H0.
  destruct (write_rows_trace fuel k s0 [] s0 g rows sl _ H0 (trace_start s0) Ew)
    as (Ht & _).
  apply (tr_consistent _ _ (trace_tracked _ _ _ H0 Ht)).
Qed.

(** The builder after [k] rows of a run with room for [k + n] rows has
    room for [n] more. *)
Lemma builder_at_within fuel k n args g0 s :
  builder_at fuel k args g0 = Some s →
  (inject_Z (Z.of_nat k + n) * cap (args_max_amount args) < limit)%Q → 0 ≤ n →
  within_precision n s.
Proof.
  unfold builder_at.
  destruct (FeedBuilder_init args g0) as [[s0 g]| |] eqn:Hinit; [|done..].
  destruct (write_rows fuel k s0 g) as [[rows sl] o] eqn:Ew.
  destruct o; [|done..]. intros [= <-] Hroom Hn.
  pose proof (FeedBuilder_init_tracked _ _ _ _ Hinit) as H0.
  destruct (write_rows_trace fuel k s0 [] s0 g rows sl _ H0 (trace_start s0) Ew)
    as (Ht & _ & _ & Hlen & _). simpl in Ht.
  destruct (trace_exact (Z.of_nat k + n) s0 rows sl H0) as [_ Hw];
    [by eapply FeedBuilder_init_agrees | by eapply FeedBuilder_init_within
    | done | rewrite (Hlen eq_refl); lia |].
  rewrite (Hlen eq_refl) in Hw.
  by replace (Z.of_nat k + n - Z.of_nat k) with n in Hw by lia.
Qed.
End runs.

(** ** The scripted generator obeys the laws *)

Lemma rotate_perm {A} n (l : list A) : rotate n l ≡ₚ l.
Proof.
  unfold rotate. rewrite Permutation_app_comm. by rewrite take_drop.
Qed.

Lemma positive_positions_spec ws i :
  i ∈ Scripted.positive_positions ws ↔ ∃ w, ws !! i = Some w ∧ Qeq_bool w 0 = false.
Proof.
  unfold Scripted.positive_positions. rewrite list_elem_of_filter, elem_of_seq.
  split.
  - intros [Hw Hi]. destruct (ws !! i) as [w|] eqn:E; [by exists w | done].
  - intros (w & Hw & Hz). rewrite Hw. split; [done|].
    apply lookup_lt_Some in Hw. lia.
Qed.

Lemma tape_laws seeding : RandomGenLaws (Scripted.tape_rng seeding).
Proof.
  constructor.
  - intros n g Hn. simpl. unfold Scripted.tape_randbelow.
    destruct (Scripted.draw g) as [x g']. simpl. by apply Z.mod_pos_bound.
  - intros l g. simpl. unfold Scripted.tape_shuffle.
    destruct l as [|x [|y l]]; [done | done |].
    destruct (Scripted.draw g) as [k g']. simpl. apply rotate_perm.
  - intros ws g _ Hex. simpl. unfold Scripted.tape_choices.
    destruct (Scripted.draw g) as [x g']. simpl.
    apply existsb_exists in Hex as (w & Hin & Hw%negb_true_iff).
    apply list_elem_of_In, list_elem_of_lookup in Hin as [i Hi].
    assert (i ∈ Scripted.positive_positions ws) as Hpos
      by (apply positive_positions_spec; eauto).
    set (ps := Scripted.positive_positions ws) in *.
    assert (0 < Z.of_nat (length ps)) as Hlen.
    { destruct ps; [by apply elem_of_nil in Hpos | simpl; lia]. }
    pose proof (Z.mod_pos_bound x _ Hlen) as Hb.
    destruct (lookup_lt_is_Some_2 ps (Z.to_nat (x `mod` Z.of_nat (length ps))))
      as [j Hj]; [lia|].
    rewrite Hj. simpl. apply positive_positions_spec.
    by eapply list_elem_of_lookup_2.
Qed.

(** * The properties of the generator *)

Lemma consistent_lockstep s : consistent s → lockstep s.
Proof.
  intros Hs. constructor.
  - apply (cs_once s Hs).
  - apply (cs_posted s Hs).
  - apply (cs_disputed s Hs).
  - intros tx r Hr Hst. split; intros Hin.
    + destruct (cs_posted s Hs tx Hin) as (r' & Hr' & Hp).
      assert (r' = r) as -> by congruence. destruct Hst; congruence.
    + destruct (cs_disputed s Hs tx Hin) as (r' & Hr' & Hp).
      assert (r' = r) as -> by congruence. destruct Hst; congruence.
Qed.

Lemma action_client_unlocked s row s' : action s row s' → unlocked_in s (row_client row).
Proof. destruct 1; simpl; by eexists. Qed.

Lemma action_money_tx s row s' :
  action s row s' → is_money row = true → row_tx row = tx_counter s.
Proof. by destruct 1. Qed.

Lemma action_reference hist s row s' :
  tracked hist s → action s row s' → is_money row = false →
  ∃ amt, (Deposit, row_client row, row_tx row, Some amt) ∈ hist.
Proof.
  intros Ht. destruct 1; try done; intros _; eexists; by eapply (tr_records _ _ Ht).
Qed.

Lemma money_tx_below hist s row :
  tracked hist s → row ∈ hist → is_money row = true → 1 ≤ row_tx row < tx_counter s.
Proof.
  intros Ht Hin Hm.
  assert (row_tx row ∈ range 1 (tx_counter s)) as Hr.
  { rewrite <- (tr_counter _ _ Ht). apply list_elem_of_fmap_2.
    by apply list_elem_of_filter. }
  apply range_from_elem in Hr.
  pose proof (cs_counter s (tr_consistent _ _ Ht)). lia.
Qed.

Section claims.
Context {R : RandomGen} {L : RandomGenLaws R}.

(** C9.  At every point of a run the pending pools are in lockstep with
    the status of the deposit records: no transaction id is in the pools
    twice, every id of the posted pool has status [posted], every id of
    the disputed pool has status [disputed], and an id whose record is
    [resolved] or [chargeback] is in neither pool. *)
Theorem pools_in_lockstep fuel k args g0 s :
  builder_at fuel k args g0 = Some s → lockstep s.
Proof. intros H. eapply consistent_lockstep, builder_at_consistent, H. Qed.

(** C3.  Once a chargeback row names an account, no later row of the
    feed names that account, whatever its type (deposit, withdrawal,
    dispute and resolve in particular). *)
Theorem chargeback_silences_client fuel args g0 i j ri rj :
  feed fuel args g0 !! i = Some ri → feed fuel args g0 !! j = Some rj →
  (i < j)%nat → row_kind ri = Chargeback →
  row_client rj ≠ row_client ri.
Proof.
  revert i j ri rj. apply (feed_property (λ rows, ∀ i j ri rj,
    rows !! i = Some ri → rows !! j = Some rj → (i < j)%nat →
    row_kind ri = Chargeback → row_client rj ≠ row_client ri)); [done|].
  intros s0 hist s H0.
  induction 1 as [|hist s s' _ IH Hc|hist s row s' Htr IH Ha]; [done | done |].
  intros i j ri rj Hi Hj Hij Hk.
  destruct (decide (j < length hist)%nat) as [Hlt|Hge].
  - rewrite lookup_app_l in Hi, Hj by lia. eauto.
  - assert (j = length hist) as ->.
    { apply lookup_lt_Some in Hj. rewrite length_app in Hj. simpl in Hj. lia. }
    rewrite lookup_app_l in Hi by lia.
    rewrite list_lookup_middle in Hj by done. injection Hj as <-.
    pose proof (trace_tracked _ _ _ H0 Htr) as Ht.
    destruct (tr_locked _ _ Ht ri) as (a & Ha1 & Hl1);
      [by eapply list_elem_of_lookup_2 | done |].
    destruct (action_client_unlocked _ _ _ Ha) as (a' & Ha2 & Hl2).
    intros E. rewrite E in Ha2. congruence.
Qed.

(** C4.  Transaction ids come from one counter that starts at 1 and is
    shared by deposits and withdrawals: the k-th deposit-or-withdrawal
    row carries the id k, so these ids are unique and strictly increasing
    in emission order; every dispute, resolve and chargeback row carries
    the id, and the client, of a deposit row emitted before it. *)
Theorem tx_ids_from_shared_counter fuel args g0 :
  let rows := feed fuel args g0 in
  let money := filter (λ row, is_money row = true) rows in
  row_tx <$> money = range 1 (1 + Z.of_nat (length money))
  ∧ (∀ i j ri rj, rows !! i = Some ri → rows !! j = Some rj → (i < j)%nat →
       is_money ri = true → is_money rj = true → row_tx ri < row_tx rj)
  ∧ (∀ j rj, rows !! j = Some rj → is_money rj = false →
       ∃ i amt, (i < j)%nat
         ∧ rows !! i = Some (Deposit, row_client rj, row_tx rj, Some amt)).
Proof.
  cbv zeta. apply (feed_property (λ rows,
    row_tx <$> filter (λ row, is_money row = true) rows
      = range 1 (1 + Z.of_nat (length (filter (λ row, is_money row = true) rows)))
    ∧ (∀ i j ri rj, rows !! i = Some ri → rows !! j = Some rj → (i < j)%nat →
         is_money ri = true → is_money rj = true → row_tx ri < row_tx rj)
    ∧ (∀ j rj, rows !! j = Some rj → is_money rj = false →
         ∃ i amt, (i < j)%nat
           ∧ rows !! i = Some (Deposit, row_client rj, row_tx rj, Some amt)))).
  { split_and!; [done | done | done]. }
  intros s0 hist s H0 Htr. split.
  { pose proof (trace_tracked _ _ _ H0 Htr) as Ht.
    pose proof (tr_counter _ _ Ht) as Hc.
    pose proof (cs_counter s (tr_consistent _ _ Ht)) as H1.
    rewrite Hc. f_equal.
    apply (f_equal length) in Hc. rewrite length_fmap in Hc. rewrite Hc.
    unfold range. rewrite range_from_length. lia. }
  induction Htr as [|hist s s' _ IH Hc|hist s row s' Htr IH Ha]; [done | done |].
  destruct IH as [IH1 IH2].
  pose proof (trace_tracked _ _ _ H0 Htr) as Ht.
  split.
  - intros i j ri rj Hi Hj Hij Hmi Hmj.
    destruct (decide (j < length hist)%nat) as [Hlt|Hge].
    + rewrite lookup_app_l in Hi, Hj by lia. eauto.
    + assert (j = length hist) as ->.
      { apply lookup_lt_Some in Hj. rewrite length_app in Hj. simpl in Hj. lia. }
      rewrite lookup_app_l in Hi by lia.
      rewrite list_lookup_middle in Hj by done. injection Hj as <-.
      rewrite (action_money_tx _ _ _ Ha Hmj).
      apply (money_tx_below hist s ri Ht); [by eapply list_elem_of_lookup_2 | done].
  - intros j rj Hj Hm.
    destruct (decide (j < length hist)%nat) as [Hlt|Hge].
    + rewrite lookup_app_l in Hj by lia.
      destruct (IH2 j rj Hj Hm) as (i & amt & Hi & Hr).
      exists i, amt. split; [done|]. by apply lookup_app_l_Some.
    + assert (j = length hist) as ->.
      { apply lookup_lt_Some in Hj. rewrite length_app in Hj. simpl in Hj. lia. }
      rewrite list_lookup_middle in Hj by done. injection Hj as <-.
      destruct (action_reference _ _ _ _ Ht Ha Hm) as (amt & Hin).
      apply list_elem_of_lookup in Hin as [i Hi].
      exists i, amt. pose proof (lookup_lt_Some _ _ _ Hi).
      split; [done|]. by apply lookup_app_l_Some.
Qed.
End claims.

Lemma pools_in_lockstep_witness :
  ∃ s, builder_at (R := Scripted.lockout_rng) 5 3 Scripted.sample_args [1] = Some s
       ∧ lockstep s.
Proof.
  eexists. split; [vm_compute; reflexivity|].
  apply (@pools_in_lockstep Scripted.lockout_rng (tape_laws _)
           5%nat 3%nat Scripted.sample_args [1]).
  vm_compute. reflexivity.
Defined.

Lemma chargeback_silences_client_witness :
  row_client (Deposit, 1, 2, Some (10007 # 10000))
  ≠ row_client (Chargeback, 2, 1, None).
Proof.
  apply (@chargeback_silences_client Scripted.lockout_rng (tape_laws _)
           5%nat Scripted.sample_args [1] 2%nat 3%nat);
    [vm_compute; reflexivity | vm_compute; reflexivity | lia | reflexivity].
Defined.

Lemma tx_ids_from_shared_counter_witness :
  let rows := feed (R := Scripted.overdraw_rng) 5 Scripted.sample_args [1] in
  row_tx <$> filter (λ row, is_money row = true) rows = [1; 2; 3].
Proof.
  intros rows.
  destruct (@tx_ids_from_shared_counter Scripted.overdraw_rng (tape_laws _)
              5%nat Scripted.sample_args [1]) as [H _].
  exact H.
Defined.

Lemma two_unlocked s :
  NoDup (accounts s).*1 →
  (2 ≤ length (_unlocked_clients s))%nat
  ↔ ∃ c1 c2, c1 ≠ c2 ∧ unlocked_in s c1 ∧ unlocked_in s c2.
Proof.
  intros Hnd. split.
  - intros Hlen. destruct (other_unlocked s 0 Hnd Hlen) as (c1 & _ & H1).
    destruct (other_unlocked s c1 Hnd Hlen) as (c2 & Hne & H2). by exists c1, c2.
  - intros (c1 & c2 & Hne & H1%unlocked_clients_unlocked_in
                          & H2%unlocked_clients_unlocked_in); [|done..].
    destruct (_unlocked_clients s) as [|x [|y l]]; simpl; [|..|lia].
    + by apply elem_of_nil in H1.
    + apply list_elem_of_singleton in H1, H2. congruence.
Qed.

Lemma funded_exists s :
  NoDup (accounts s).*1 →
  _funded_clients s ≠ []
  ↔ ∃ c a, dict_get c (accounts s) = Some a ∧ locked a = false
           ∧ (min_amount s <= available a)%Q.
Proof.
  intros Hnd. split.
  - destruct (_funded_clients s) as [|c l] eqn:E; [done|]. intros _.
    assert (c ∈ _funded_clients s) as (a & Ha & Hl & Hf)%funded_clients_elem
      by (rewrite E; left).
    exists c, a. split; [by apply dict_elem_get | done].
  - intros (c & a & Ha%dict_get_elem & Hl & Hf) E.
    assert (c ∈ _funded_clients s) as Hin by (apply funded_clients_elem; eauto).
    rewrite E in Hin. by apply elem_of_nil in Hin.
Qed.

(** C5.  The computed list of legal actions is exactly: deposit iff some
    account is unlocked; withdrawal iff some unlocked account has
    available >= the configured minimum; dispute iff some transaction of
    the posted pool belongs to an unlocked account; resolve iff some
    transaction of the disputed pool does; chargeback iff two distinct
    accounts are unlocked and some transaction of the disputed pool belongs
    to an unlocked account. *)
Theorem valid_actions_exact s :
  NoDup (accounts s).*1 →
  (∀ tx r, deposit_records s !! tx = Some r →
     is_Some (dict_get (client r) (accounts s))) →
  ∃ valid, _valid_actions s = Ok valid
    ∧ NoDup valid
    ∧ (Deposit ∈ valid ↔ ∃ c, unlocked_in s c)
    ∧ (Withdrawal ∈ valid ↔
         ∃ c a, dict_get c (accounts s) = Some a ∧ locked a = false
                ∧ (min_amount s <= available a)%Q)
    ∧ (Dispute ∈ valid ↔ pool_has_unlocked s (posted_txs s))
    ∧ (Resolve ∈ valid ↔ pool_has_unlocked s (disputed_txs s))
    ∧ (Chargeback ∈ valid ↔
         (∃ c1 c2, c1 ≠ c2 ∧ unlocked_in s c1 ∧ unlocked_in s c2)
         ∧ pool_has_unlocked s (disputed_txs s)).
Proof.
  intros Hnd Hown. destruct (valid_actions_spec s Hown) as (p & d & Hv & Hp & Hd).
  eexists. split; [exact Hv|]. split.
  { clear. repeat case_bool_decide; destruct p, d; simpl;
      apply (bool_decide_unpack _); vm_compute; exact I. }
  rewrite !valid_actions_elem, !bool_decide_eq_true.
  rewrite Hp, Hd, (two_unlocked s Hnd), (funded_exists s Hnd),
    (alive_unlocked_in s Hnd).
  done.
Qed.

Lemma valid_actions_exact_witness :
  ∃ valid, _valid_actions Scripted.disputed_builder = Ok valid
    ∧ valid = [Deposit; Resolve; Chargeback]
    ∧ (Chargeback ∈ valid ↔
         (∃ c1 c2, c1 ≠ c2 ∧ unlocked_in Scripted.disputed_builder c1
                   ∧ unlocked_in Scripted.disputed_builder c2)
         ∧ pool_has_unlocked Scripted.disputed_builder [1]).
Proof.
  destruct (valid_actions_exact Scripted.disputed_builder)
    as (valid & Hv & _ & _ & _ & _ & _ & Hc).
  - apply (bool_decide_unpack _). vm_compute. exact I.
  - intros tx r Hr.
    assert (map_Forall (λ _ r, is_Some (dict_get (client r)
                                          (accounts Scripted.disputed_builder)))
                       (deposit_records Scripted.disputed_builder)) as Hall.
    { apply (bool_decide_unpack _). vm_compute. exact I. }
    exact (Hall tx r Hr).
  - exists valid. split; [exact Hv|]. split; [|exact Hc].
    vm_compute in Hv. congruence.
Defined.

Lemma nothing_legal_no_unlocked s valid :
  _valid_actions s = Ok valid → any_weight (action_weights valid) = false →
  _unlocked_clients s = [].
Proof.
  intros Hv Hw. destruct (_unlocked_clients s) as [|c l] eqn:E; [done|].
  assert (Deposit ∈ valid) as Hin; [|by rewrite (any_weight_valid _ _ Hin) in Hw].
  revert Hv. unfold _valid_actions. rewrite E.
  rewrite (bool_decide_eq_true_2 (c :: l ≠ [])) by done.
  destruct (_has_posted_for_unlocked s) as [p| |]; [|done..].
  destruct (_has_disputed_for_unlocked s) as [d| |]; [|done..]. simpl.
  repeat case_bool_decide; destruct p, d; simpl; intros [= <-]; left.
Qed.

Section errors.
Context {R : RandomGen} {L : RandomGenLaws R}.

Lemma decimal_from_range_no_runtime_error lo hi g msg :
  decimal_from_range lo hi g ≠ Raise (RuntimeError msg).
Proof.
  unfold decimal_from_range, quantize, randint.
  destruct (Qle_bool hi 0); [done|].
  destruct (10 ^ prec <=? Z.abs (round_half_even (lo / BPS)));
    cbn [mbind result_bind]; [done|].
  destruct (10 ^ prec <=? Z.abs (round_half_even (hi / BPS)));
    cbn [mbind result_bind]; [done|].
  destruct (0 <? _); [|done].
  destruct (randbelow _ g) as [k g']. cbn [mbind result_bind].
  by destruct (_ <=? _).
Qed.

Lemma random_deposit_no_runtime_error cid s g msg :
  _random_deposit cid s g ≠ Raise (RuntimeError msg).
Proof.
  unfold _random_deposit.
  pose proof (decimal_from_range_no_runtime_error (min_amount s) (max_amount s) g msg).
  destruct (decimal_from_range _ _ g) as [[amt g']|e|]; cbn [mbind result_bind];
    [|congruence | done].
  unfold dict_getitem. destruct (dict_get cid (accounts s)); done.
Qed.

(** The fallback branch on its own: it raises its error exactly when no
    account is unlocked, and otherwise deposits onto a drawn unlocked
    account. *)
Lemma fallback_deposit_spec s g :
  (fallback_deposit s g
   = Raise (RuntimeError "No unlocked clients available to continue generating deposits")
   ↔ _unlocked_clients s = [])
  ∧ (_unlocked_clients s ≠ [] →
     ∃ cid g', cid ∈ _unlocked_clients s
       ∧ _choose_client false s g = Ok (Some cid, g')
       ∧ fallback_deposit s g = _random_deposit cid s g').
Proof.
  unfold fallback_deposit. pose proof (choose_client_spec false s g) as Hc.
  cbn zeta in Hc. destruct (_unlocked_clients s) as [|c l] eqn:E.
  - rewrite Hc. simpl. done.
  - destruct Hc as (cid & g' & -> & Hin). simpl. split.
    + split; [|done]. intros H. by apply random_deposit_no_runtime_error in H.
    + intros _. by exists cid, g'.
Qed.

(** C7.  [next_row] takes the fallback exactly when no action kind is
    legal (every weight is zero).  The fallback raises the fatal error if
    and only if no unlocked account remains; while an unlocked account
    exists it forces a deposit onto one drawn at random: the row is a
    deposit for that account under the current id, credited to its
    available balance and recorded as posted (when [max_amount] is beyond
    the precision of the context, the amount cannot be drawn and the
    deposit is an invalid operation).  Since a deposit is legal whenever
    an account is unlocked, [next_row] reaches the fallback only with no
    unlocked account, where it raises. *)
Theorem fallback_when_nothing_legal fuel s g :
  (∀ valid, _valid_actions s = Ok valid →
     any_weight (action_weights valid) = false →
     next_row (S fuel) s g = fallback_deposit s g
     ∧ _unlocked_clients s = [])
  ∧ (fallback_deposit s g
     = Raise (RuntimeError "No unlocked clients available to continue generating deposits")
     ↔ _unlocked_clients s = [])
  ∧ (consistent s →
     round_half_even (max_amount s / BPS) < 10 ^ prec →
     ∃ cid a amt s' g',
       fallback_deposit s g = Ok ((Deposit, cid, tx_counter s, Some amt), s', g')
       ∧ dict_get cid (accounts s) = Some a ∧ locked a = false
       ∧ dict_get cid (accounts s')
         = Some {| available := dec_add (available a) amt;
                   held := held a; locked := false |}
       ∧ deposit_records s' !! tx_counter s
         = Some {| client := cid; amount := amt; status := posted |}
       ∧ tx_counter s' = tx_counter s + 1)
  ∧ (consistent s →
     10 ^ prec ≤ round_half_even (max_amount s / BPS) →
     fallback_deposit s g = Raise InvalidOperation).
Proof.
  split_and!.
  - intros valid Hv Hw. split.
    + cbn [next_row]. rewrite Hv. cbn [mbind result_bind]. by rewrite Hw.
    + by eapply nothing_legal_no_unlocked.
  - apply fallback_deposit_spec.
  - intros Hs Hp.
    destruct (proj2 (fallback_deposit_spec s g) (cs_alive s Hs))
      as (cid & g1 & Hin & _ & ->).
    apply unlocked_clients_unlocked_in in Hin as (a & Ha & Hl); [|apply Hs].
    pose proof (random_deposit_spec s cid a g1 Hs Ha Hl) as Hspec.
    destruct (_random_deposit cid s g1) as [[[row s'] g']|e|]; [|lia|done].
    destruct Hspec as (amt & -> & Hact).
    exists cid, a, amt, s', g'. split; [done|]. split; [done|]. split; [done|].
    inversion Hact; subst. simpl.
    rewrite dict_get_set_eq, lookup_insert_eq.
    replace a0 with a in * by congruence. rewrite Hl. done.
  - intros Hs Hbig.
    destruct (proj2 (fallback_deposit_spec s g) (cs_alive s Hs))
      as (cid & g1 & _ & _ & ->).
    unfold _random_deposit.
    rewrite decimal_from_range_invalid; [done | | right; lia].
    pose proof (cs_min s Hs). pose proof (cs_max s Hs). lra.
Qed.

(** A row of damped chargeback draws as long as the fuel exhausts it. *)
Lemma damped_chain_diverges fuel s g :
  damped_chain fuel s g → next_row fuel s g = Diverge.
Proof.
  revert g. induction fuel as [|fuel IH]; intros g; [done|].
  intros (g2 & Hd & Hch). rewrite (next_row_damped s g g2 fuel Hd). by apply IH.
Qed.

(** Where the loop of [main] stops. *)
Lemma write_rows_loop fuel n s g rows sl o :
  write_rows fuel n s g = (rows, sl, o) →
  ∃ g', loop_state fuel (length rows) s g = Some (sl, g')
    ∧ match o with
      | Completed => length rows = n
      | Aborted e => (length rows < n)%nat ∧ next_row fuel sl g' = Raise e
      | Hung => (length rows < n)%nat ∧ next_row fuel sl g' = Diverge
      end.
Proof.
  revert s g rows. induction n as [|n IH]; intros s g rows.
  - intros [= <- <- <-]. by exists g.
  - cbn [write_rows]. destruct (next_row fuel s g) as [[[row s'] g1]|e|] eqn:En.
    + destruct (write_rows fuel n s' g1) as [[rows' sl'] o'] eqn:Ew.
      intros [= <- <- <-]. destruct (IH s' g1 rows' Ew) as (g' & Hl & Ho).
      exists g'. cbn [length loop_state]. rewrite En. split; [done|].
      destruct o'; [lia | split; [lia | apply Ho] | split; [lia | apply Ho]].
    + intros [= <- <- <-]. exists g. cbn [length loop_state].
      split; [done | split; [lia | done]].
    + intros [= <- <- <-]. exists g. cbn [length loop_state].
      split; [done | split; [lia | done]].
Qed.

Lemma loop_state_hangs fuel k n s g s' g' :
  loop_state fuel k s g = Some (s', g') → next_row fuel s' g' = Diverge →
  (k < n)%nat → (write_rows fuel n s g).2 = Hung.
Proof.
  revert n s g. induction k as [|k IH]; intros n s g Hl Hd Hk;
    (destruct n as [|n]; [lia|]); cbn [write_rows loop_state] in *.
  - injection Hl as <- <-. by rewrite Hd.
  - destruct (next_row fuel s g) as [[[row s1] g1]|e|]; [|done..].
    pose proof (IH n s1 g1 Hl Hd ltac:(lia)) as Hw.
    by destruct (write_rows fuel n s1 g1) as [[rows sl] o].
Qed.

Lemma FeedBuilder_init_unfunded args g0 s g :
  FeedBuilder_init args g0 = Ok (s, g) → _funded_clients s = [].
Proof.
  intros Hinit. pose proof (FeedBuilder_init_consistent _ _ _ _ Hinit) as Hs.
  destruct (_funded_clients s) as [|c l] eqn:E; [done|].
  assert (c ∈ _funded_clients s) as Hin by (rewrite E; left).
  apply funded_clients_elem in Hin as (a & Ha & _ & Hle).
  apply (dict_elem_get _ _ _ (cs_keys s Hs)) in Ha.
  rewrite (FeedBuilder_init_fresh _ _ _ _ _ _ Hinit Ha) in Hle. simpl in Hle.
  pose proof (cs_min s Hs). lra.
Qed.

(** With nothing to withdraw, dispute or close, the row is a deposit; its
    amount cannot be drawn when [max_amount] is beyond the precision of
    the context. *)
Lemma first_row_invalid fuel s g :
  consistent s → _funded_clients s = [] → posted_txs s = [] → disputed_txs s = [] →
  10 ^ prec ≤ round_half_even (max_amount s / BPS) →
  next_row (S fuel) s g = Raise InvalidOperation.
Proof.
  intros Hs Hf Hp Hd Hbig.
  assert (_valid_actions s = Ok [Deposit]) as Hv.
  { unfold _valid_actions, _has_posted_for_unlocked, _has_disputed_for_unlocked.
    rewrite Hf, Hp, Hd. cbn [has_for_unlocked mbind result_bind].
    rewrite (bool_decide_eq_true_2 (_unlocked_clients s ≠ [])) by apply Hs.
    rewrite (bool_decide_eq_false_2 (@nil Z ≠ [])) by naive_solver.
    by case_bool_decide. }
  cbn [next_row]. rewrite Hv. cbn [mbind result_bind].
  rewrite (any_weight_valid [Deposit] Deposit) by left. cbn [negb].
  pose proof (random_choices_positive (action_weights [Deposit]) g
                (action_weights_nonneg [Deposit])
                (any_weight_valid [Deposit] Deposit ltac:(left))) as (w & Hw & Hnz).
  destruct (random_choices (action_weights [Deposit]) g) as [i ga].
  cbn [fst] in Hw.
  destruct (action_weights_lookup _ i w Hw Hnz) as (name & w0 & -> & Hname).
  apply list_elem_of_singleton in Hname as ->. cbn [from_option mbind result_bind].
  rewrite bool_decide_eq_false_2 by done.
  pose proof (choose_client_spec false s ga) as Hc. cbn zeta in Hc.
  destruct (_unlocked_clients s) as [|c0 l] eqn:Eu; [by destruct (cs_alive s Hs)|].
  destruct Hc as (cid & g2 & -> & Hin). cbn [mbind result_bind].
  unfold _random_deposit.
  rewrite decimal_from_range_invalid; [done | | right; lia].
  pose proof (cs_min s Hs). pose proof (cs_max s Hs). lra.
Qed.

Lemma main_beyond_precision fuel args g0 s0 g :
  FeedBuilder_init args g0 = Ok (s0, g) →
  10 ^ prec ≤ round_half_even (args_max_amount args / BPS) → 1 < args_rows args →
  main (S fuel) args g0 = ([Header], Aborted InvalidOperation).
Proof.
  intros Hinit Hbig Hrows.
  assert (max_amount s0 = args_max_amount args ∧ posted_txs s0 = []
          ∧ disputed_txs s0 = []) as (Hmax & Hposted & Hdisputed).
  { by apply FeedBuilder_init_inv in Hinit as (_ & _ & _ & _ & ids & _ & ->). }
  unfold main. rewrite Hinit.
  destruct (Z.to_nat (Z.max 1 (args_rows args) - 1)) as [|m] eqn:Em; [lia|].
  cbn [write_rows].
  rewrite (first_row_invalid fuel s0 g); [done | | | done..|].
  - by eapply FeedBuilder_init_consistent.
  - by eapply FeedBuilder_init_unfunded.
  - by rewrite Hmax.
Qed.

(** C10, as the code has it.  Once the constructor has accepted the
    configuration, the output starts with the header and holds at most
    max(1, N) - 1 event rows, exactly that many when the run completes;
    N <= 1 gives the header alone.  The run completes, with all its rows,
    when [max_amount] fits the precision of the context at four decimals
    and no row of the run meets as many damped chargeback draws in a row
    as there is fuel.  When [max_amount] does not fit and N > 1, the first
    row is an invalid operation and the output is the header alone; the
    run aborts on nothing else.  It hangs exactly when the draws of one of
    its rows, from the builder and the generator that the rows before it
    have left, are damped chargebacks as many times in a row as there is
    fuel. *)
Theorem rows_include_header fuel args g0 s0 g :
  FeedBuilder_init args g0 = Ok (s0, g) →
  let n := Z.max 1 (args_rows args) - 1 in
  (∃ rows o, main fuel args g0 = (Header :: (Data <$> rows), o)
     ∧ Z.of_nat (length rows) ≤ n
     ∧ (o = Completed → Z.of_nat (length rows) = n))
  ∧ (args_rows args ≤ 1 → main fuel args g0 = ([Header], Completed))
  ∧ (round_half_even (args_max_amount args / BPS) < 10 ^ prec →
     (∀ k s g', Z.of_nat k < n → loop_state fuel k s0 g = Some (s, g') →
                ¬ damped_chain fuel s g') →
     ∃ rows, main fuel args g0 = (Header :: (Data <$> rows), Completed)
             ∧ Z.of_nat (length rows) = n)
  ∧ (10 ^ prec ≤ round_half_even (args_max_amount args / BPS) →
     1 < args_rows args → (0 < fuel)%nat →
     main fuel args g0 = ([Header], Aborted InvalidOperation))
  ∧ (∀ e, (main fuel args g0).2 = Aborted e →
       e = InvalidOperation
       ∧ 10 ^ prec ≤ round_half_even (args_max_amount args / BPS))
  ∧ ((main fuel args g0).2 = Hung
     ↔ ∃ k s g', Z.of_nat k < n ∧ loop_state fuel k s0 g = Some (s, g')
                 ∧ damped_chain fuel s g').
Proof.
  intros Hinit n.
  pose proof (FeedBuilder_init_tracked _ _ _ _ Hinit) as H0.
  assert (max_amount s0 = args_max_amount args ∧ posted_txs s0 = []
          ∧ disputed_txs s0 = []) as (Hmax & Hposted & Hdisputed).
  { by apply FeedBuilder_init_inv in Hinit as (_ & _ & _ & _ & ids & _ & ->). }
  unfold main. rewrite Hinit. fold n.
  destruct (write_rows fuel (Z.to_nat n) s0 g) as [[rows sl] o] eqn:Ew.
  destruct (write_rows_trace fuel _ s0 [] s0 g rows sl o H0 (trace_start s0) Ew)
    as (Htr & Hab & Hle & Heq & _).
  destruct (write_rows_loop fuel _ s0 g rows sl o Ew) as (gl & Hloop & Hend).
  pose proof (tr_consistent _ _ (trace_tracked _ _ _ H0 Htr)) as Hsl.
  rewrite Hmax in Hab.
  assert (o = Hung → Z.of_nat (length rows) < n ∧ damped_chain fuel sl gl) as Hhung.
  { intros ->. destruct Hend as [Hlt Hd]. split; [lia|].
    by apply next_row_diverge_damped. }
  split_and!.
  - exists rows, o. split; [done|]. split; [lia|]. intros Ho. rewrite (Heq Ho). lia.
  - intros Hn. revert Ew. replace (Z.to_nat n) with 0%nat by lia.
    simpl. by intros [= <- <- <-].
  - intros Hp Hcalm. exists rows. destruct o as [|e|].
    + split; [done|]. rewrite (Heq eq_refl). lia.
    + destruct (Hab e eq_refl). lia.
    + destruct (Hhung eq_refl) as [Hlt Hch]. by destruct (Hcalm _ sl gl Hlt Hloop).
  - intros Hbig Hrows Hfuel. destruct fuel as [|fuel]; [lia|].
    pose proof (main_beyond_precision fuel args g0 s0 g Hinit Hbig Hrows) as Hm.
    unfold main in Hm. rewrite Hinit in Hm. fold n in Hm. by rewrite Ew in Hm.
  - simpl. intros e ->. by apply Hab.
  - simpl. split.
    + intros Ho. destruct (Hhung Ho) as [Hlt Hch]. by exists (length rows), sl, gl.
    + intros (k & s & g' & Hk & Hl & Hch).
      pose proof (loop_state_hangs fuel k (Z.to_nat n) s0 g s g' Hl
                    (damped_chain_diverges _ _ _ Hch) ltac:(lia)) as Hw.
      by rewrite Ew in Hw.
Qed.
End errors.

Lemma fallback_when_nothing_legal_witness :
  (next_row (R := Scripted.overdraw_rng) 1 Scripted.locked_builder []
   = fallback_deposit (R := Scripted.overdraw_rng) Scripted.locked_builder []
   ∧ _unlocked_clients Scripted.locked_builder = [])
  ∧ ∃ cid a amt s' g',
      fallback_deposit (R := Scripted.overdraw_rng) Scripted.after_dispute [1; 5]
      = Ok ((Deposit, cid, tx_counter Scripted.after_dispute, Some amt), s', g')
      ∧ dict_get cid (accounts Scripted.after_dispute) = Some a ∧ locked a = false
      ∧ dict_get cid (accounts s')
        = Some {| available := dec_add (available a) amt;
                  held := held a; locked := false |}
      ∧ deposit_records s' !! tx_counter Scripted.after_dispute
        = Some {| client := cid; amount := amt; status := posted |}
      ∧ tx_counter s' = tx_counter Scripted.after_dispute + 1.
Proof.
  split.
  - apply (proj1 (@fallback_when_nothing_legal Scripted.overdraw_rng (tape_laws _)
                    0%nat Scripted.locked_builder []) []); reflexivity.
  - apply (@fallback_when_nothing_legal Scripted.overdraw_rng (tape_laws _)
             0%nat Scripted.after_dispute [1; 5]).
    + apply (@builder_at_consistent Scripted.lockout_rng (tape_laws _)
               5%nat 2%nat Scripted.sample_args [1]).
      vm_compute. reflexivity.
    + vm_compute. reflexivity.
Defined.

(** C10, as stated, fails beyond the precision of the context: with
    --max-amount 1e24 and --rows 3 the first deposit is an invalid
    operation, and the output is the header alone. *)
Lemma rows_missing_beyond_precision :
  main (R := Scripted.lockout_rng) 5 Scripted.big_args [1]
  = ([Header], Aborted InvalidOperation)
  ∧ Z.max 1 (args_rows Scripted.big_args) - 1 = 2.
Proof. split; [vm_compute; reflexivity | reflexivity]. Qed.

Lemma rows_include_header_witness :
  ∃ rows, main (R := Scripted.lockout_rng) 5 Scripted.sample_args [1]
          = (Header :: (Data <$> rows), Completed)
          ∧ Z.of_nat (length rows) = 4.
Proof.
  destruct (@rows_include_header Scripted.lockout_rng (tape_laws _)
              5%nat Scripted.sample_args [1])
    with (s0 := default Scripted.disputed_builder
                  (builder_at (R := Scripted.lockout_rng) 5 0 Scripted.sample_args [1]))
         (g := [0; 0; 5; 2; 0; 2; 0; 0; 0; 0; 7])
    as (_ & _ & H & _).
  - vm_compute. reflexivity.
  - apply H.
    + vm_compute. reflexivity.
    + intros k s g' Hk Hl (g2 & Hd & _).
      destruct k as [|[|[|[|k]]]]; [| | | |simpl in Hk; lia];
        vm_compute in Hl; injection Hl as <- <-; vm_compute in Hd; discriminate Hd.
Defined.

(** ** Balances *)




Section balances.
Context {R : RandomGen} {L : RandomGenLaws R}.

End balances.



(** ** Amounts *)

Lemma round_half_even_error x :
  (x - (1 # 2) <= inject_Z (round_half_even x) <= x + (1 # 2))%Q.
Proof.
  pose proof (Qfloor_le x) as H1. pose proof (Qlt_floor x) as H2.
  unfold round_half_even.
  destruct (x - inject_Z (Qfloor x) ?= 1 # 2)%Q eqn:C;
    try rewrite <- Qeq_alt in C; try rewrite <- Qlt_alt in C;
    try rewrite <- Qgt_alt in C;
    try destruct (Z.even (Qfloor x)); lra_Z.
Qed.

Lemma on_grid_round x : on_grid x → (inject_Z (round_half_even (x / BPS)) * BPS == x)%Q.
Proof.
  intros [n Hn].
  assert (x / BPS == inject_Z n)%Q as E by (rewrite Hn; apply units_div_BPS).
  by rewrite (round_half_even_comp _ _ E), round_half_even_Z, Hn.
Qed.

Lemma half_BPS : (BPS / 2 == 1 # 20000)%Q.
Proof. reflexivity. Qed.

Lemma units_error x n :
  (x - (1 # 2) <= inject_Z n <= x + (1 # 2))%Q →
  (x * BPS - BPS / 2 <= inject_Z n * BPS <= x * BPS + BPS / 2)%Q.
Proof. rewrite half_BPS. unfold BPS. intros [? ?]. split; lra. Qed.

Lemma limit_pos : (0 < limit)%Q.
Proof. reflexivity. Qed.

Section amounts.
Context {R : RandomGen} {L : RandomGenLaws R}.

(** The three ways the sampler ends. *)
Lemma decimal_from_range_cases lo hi g :
  let low := round_half_even (lo / BPS) in
  let high := round_half_even (hi / BPS) in
  ((hi <= 0)%Q
   ∧ decimal_from_range lo hi g = Raise (ValueError "max_amount must be > 0"))
  ∨ ((0 < hi)%Q ∧ (10 ^ prec ≤ Z.abs low ∨ 10 ^ prec ≤ Z.abs high)
     ∧ decimal_from_range lo hi g = Raise InvalidOperation)
  ∨ ((0 < hi)%Q ∧ Z.abs low < 10 ^ prec ∧ Z.abs high < 10 ^ prec
     ∧ ∃ n g', decimal_from_range lo hi g = Ok ((inject_Z n * BPS)%Q, g')
               ∧ low ≤ n ≤ Z.max low high).
Proof.
  intros low high. destruct (Qlt_le_dec 0 hi) as [Hpos|Hle].
  - right.
    destruct (Z_lt_le_dec (Z.abs low) (10 ^ prec)) as [Hl|Hl];
      [destruct (Z_lt_le_dec (Z.abs high) (10 ^ prec)) as [Hh|Hh]|].
    + right. split_and!; [done..|]. by apply decimal_from_range_ok.
    + left. split_and!; [done | by right |].
      apply decimal_from_range_invalid; [done | by right].
    + left. split_and!; [done | by left |].
      apply decimal_from_range_invalid; [done | by left].
  - left. split; [done|]. apply Qle_bool_iff in Hle.
    unfold decimal_from_range. by rewrite Hle.
Qed.

(** C8, as the code has it.  For bounds 0 < min < max, with max within
    the precision of the context at four decimals, the sampler returns a
    multiple of 0.0001 between the two bounds rounded to four decimals
    (half-even), hence within half a unit of [min, max], and inside
    [min, max] when the bounds are themselves multiples of 0.0001.  It
    raises the invalid-range error exactly when max <= 0, the invalid
    operation of the context exactly when max > 0 and a rounded bound
    needs more than 28 digits, and nothing else. *)
Theorem sampler_range lo hi g :
  ((0 < lo)%Q → (lo < hi)%Q → round_half_even (hi / BPS) < 10 ^ prec →
     ∃ n g', decimal_from_range lo hi g = Ok ((inject_Z n * BPS)%Q, g')
       ∧ round_half_even (lo / BPS) ≤ n ≤ round_half_even (hi / BPS)
       ∧ (lo - BPS / 2 <= inject_Z n * BPS <= hi + BPS / 2)%Q
       ∧ (on_grid lo → on_grid hi → (lo <= inject_Z n * BPS <= hi)%Q))
  ∧ (decimal_from_range lo hi g = Raise (ValueError "max_amount must be > 0")
     ↔ (hi <= 0)%Q)
  ∧ (decimal_from_range lo hi g = Raise InvalidOperation
     ↔ (0 < hi)%Q
       ∧ (10 ^ prec ≤ Z.abs (round_half_even (lo / BPS))
          ∨ 10 ^ prec ≤ Z.abs (round_half_even (hi / BPS))))
  ∧ (raises (decimal_from_range lo hi g)
     ↔ (hi <= 0)%Q
       ∨ 10 ^ prec ≤ Z.abs (round_half_even (lo / BPS))
       ∨ 10 ^ prec ≤ Z.abs (round_half_even (hi / BPS))).
Proof.
  pose proof (decimal_from_range_cases lo hi g) as Hcases. cbv zeta in Hcases.
  split_and!.
  - intros Hlo Hlt Hp.
    assert (0 ≤ round_half_even (lo / BPS)) as H0.
    { apply round_half_even_ge_Z, div_BPS_ge. change (inject_Z 0) with 0%Q. lra. }
    assert (round_half_even (lo / BPS) ≤ round_half_even (hi / BPS)) as Hmono.
    { apply round_half_even_mono. rewrite !div_BPS. lra. }
    destruct (decimal_from_range_ok lo hi g) as (n & g' & Hok & Hn1 & Hn2);
      [lra | lia | lia |].
    exists n, g'. split; [done|]. split; [lia|].
    assert (n ≤ round_half_even (hi / BPS)) as Hn3 by lia.
    apply units_le in Hn1 as Hu1. apply units_le in Hn3 as Hu3.
    split.
    + pose proof (units_error _ _ (round_half_even_error (lo / BPS))) as [E1 _].
      pose proof (units_error _ _ (round_half_even_error (hi / BPS))) as [_ E2].
      assert (lo / BPS * BPS == lo)%Q as El by (unfold BPS; field).
      assert (hi / BPS * BPS == hi)%Q as Eh by (unfold BPS; field).
      rewrite El in E1. rewrite Eh in E2. rewrite half_BPS in *. split; lra.
    + intros Gl%on_grid_round Gh%on_grid_round. split; lra.
  - destruct Hcases as [[H1 ->]|[(H1 & H2 & ->)|(H1 & H2 & H3 & n & g' & -> & _)]].
    + done.
    + split; [done | intros; lra].
    + split; [done | intros; lra].
  - destruct Hcases as [[H1 ->]|[(H1 & H2 & ->)|(H1 & H2 & H3 & n & g' & -> & _)]].
    + split; [done | intros [? _]; lra].
    + done.
    + split; [done | intros [_ [?|?]]; lia].
  - unfold raises.
    destruct Hcases as [[H1 ->]|[(H1 & H2 & ->)|(H1 & H2 & H3 & n & g' & -> & _)]].
    + split; [by left | eauto].
    + split; [by right | eauto].
    + split; [by intros [e ?] | intros [?|[?|?]]; [lra | lia | lia]].
Qed.

(** C6, as the code has it.  A withdrawal on a client with
    top = min(available, maxAmount) fails fatally if and only if
    top < minAmount.  Otherwise, with top within the precision of the
    context at four decimals, it emits a multiple of 0.0001 between
    minAmount and top rounded to four decimals (half-even), never more
    than the available balance and inside [minAmount, top] when the
    configured bounds are multiples of 0.0001, and debits that amount,
    exactly when the available balance is below 10^24; with top beyond
    the precision it is an invalid operation.  From a builder between two
    rows [next_row] raises nothing but that invalid operation, so the
    fatal branch is not reached through the draw loop. *)
Theorem withdrawal_amount s cid a g :
  consistent s → dict_get cid (accounts s) = Some a →
  let top := dec_min (available a) (max_amount s) in
  (_random_withdrawal cid s g
   = Raise (RuntimeError "Withdrawal requested without sufficient funds")
   ↔ (top < min_amount s)%Q)
  ∧ ((min_amount s <= top)%Q → round_half_even (top / BPS) < 10 ^ prec →
     ∃ n s' g',
       _random_withdrawal cid s g
       = Ok ((Withdrawal, cid, tx_counter s, Some (inject_Z n * BPS)%Q), s', g')
       ∧ round_half_even (min_amount s / BPS) ≤ n ≤ round_half_even (top / BPS)
       ∧ (inject_Z n * BPS <= available a)%Q
       ∧ dict_get cid (accounts s')
         = Some {| available := dec_sub (available a) (inject_Z n * BPS);
                   held := held a; locked := locked a |}
       ∧ ((available a < limit)%Q →
          dec_sub (available a) (inject_Z n * BPS)
          = (available a - inject_Z n * BPS)%Q)
       ∧ (on_grid (min_amount s) → on_grid (max_amount s) →
          (min_amount s <= inject_Z n * BPS <= top)%Q))
  ∧ ((min_amount s <= top)%Q → 10 ^ prec ≤ round_half_even (top / BPS) →
     _random_withdrawal cid s g = Raise InvalidOperation)
  ∧ (∀ fuel g' e, next_row fuel s g' = Raise e →
       e = InvalidOperation
       ∧ 10 ^ prec ≤ round_half_even (max_amount s / BPS)).
Proof.
  intros Hs Ha top.
  pose proof (cs_min s Hs) as Hmin. pose proof (cs_max s Hs) as Hmax.
  pose proof (units_ordered s Hs) as [H0 _].
  assert (top <= available a)%Q as Htop.
  { unfold top, dec_min. destruct (Qlt_bool _ _) eqn:E; [|lra].
    apply Qlt_bool_iff in E. lra. }
  assert (on_grid (max_amount s) → on_grid top) as Hgrid.
  { intros Hg. unfold top, dec_min. destruct (Qlt_bool _ _); [done|].
    by apply (cs_grid s Hs cid a). }
  assert ((min_amount s <= top)%Q →
          round_half_even (min_amount s / BPS) ≤ round_half_even (top / BPS))
    as Hmono.
  { intros Hlo. apply round_half_even_mono. rewrite !div_BPS. lra. }
  assert (∀ res, (min_amount s <= top)%Q →
            _random_withdrawal cid s g
            = ('(amount, g') ← decimal_from_range (min_amount s) top g;
               Ok ((Withdrawal, cid, tx_counter s, Some amount),
                   set_tx_counter
                     (set_accounts s
                        (dict_set cid
                           {| available := dec_sub (available a) amount;
                              held := held a; locked := locked a |}
                           (accounts s)))
                     (tx_counter s + 1), g')) ∨ res) as Hunfold.
  { intros res Hlo. left. unfold _random_withdrawal, dict_getitem. rewrite Ha.
    cbn [mbind result_bind]. fold top.
    apply Qlt_bool_false in Hlo. by rewrite Hlo. }
  split_and!.
  - split.
    + intros Hr. apply Qnot_le_lt. intros Hle.
      destruct (Hunfold False Hle) as [E|[]]. rewrite E in Hr.
      pose proof (decimal_from_range_no_runtime_error (min_amount s) top g
                    "Withdrawal requested without sufficient funds") as Hno.
      destruct (decimal_from_range _ top g) as [[amt g']|e|]; [done | | done].
      simpl in Hr. congruence.
    + intros Hlt%Qlt_bool_iff. unfold _random_withdrawal, dict_getitem.
      rewrite Ha. simpl. fold top. by rewrite Hlt.
  - intros Hlo Hp. destruct (Hunfold False Hlo) as [E|[]]. rewrite E.
    specialize (Hmono Hlo).
    destruct (decimal_from_range_ok (min_amount s) top g)
      as (n & g' & -> & Hn1 & Hn2); [lra | lia | lia |]. simpl.
    assert (n ≤ round_half_even (top / BPS)) as Hn3 by lia.
    eexists n, _, g'. split; [reflexivity|]. split; [lia|].
    apply units_le in Hn1 as Hu1. apply units_le in Hn3 as Hu3.
    assert (inject_Z n * BPS <= available a)%Q as Hle.
    { destruct (cs_grid s Hs cid a Ha) as [z Hz].
      assert (n ≤ z) as Hnz%units_le; [|rewrite Hz; done].
      enough (round_half_even (top / BPS) ≤ z) by lia.
      apply round_half_even_le_Z, div_BPS_le. rewrite <- Hz. done. }
    split_and!.
    + done.
    + simpl. apply dict_get_set_eq.
    + intros Hav. unfold dec_sub. apply dec_round_exact.
      * apply on_grid_minus; [by apply (cs_grid s Hs cid a) | apply on_grid_units].
      * pose proof limit_pos. pose proof (units_nonneg n ltac:(lia)). split; lra.
    + intros Gl%on_grid_round Gh%Hgrid%on_grid_round. split; lra.
  - intros Hlo Hp. destruct (Hunfold False Hlo) as [E|[]]. rewrite E.
    rewrite (decimal_from_range_invalid (min_amount s) top g); [done | lra |].
    right. lia.
  - intros fuel g' e He. pose proof (next_row_spec fuel s g' Hs) as Hn.
    by rewrite He in Hn.
Qed.
End amounts.

(** C8, as stated, fails when the bounds are finer than the grid: between
    0.00004 and 0.00005 the sampler returns 0.0000. *)
Lemma sampler_off_grid :
  decimal_from_range (R := Scripted.fine_rng) (4 # 100000) (5 # 100000) []
  = Ok (0 # 10000, [])
  ∧ ¬ (4 # 100000 <= 0 # 10000)%Q.
Proof.
  split; [vm_compute; reflexivity|]. intros H. vm_compute in H. by apply H.
Qed.

Lemma sampler_range_witness :
  ∃ n g', decimal_from_range (R := Scripted.fine_rng) 1 10 [] = Ok ((inject_Z n * BPS)%Q, g')
          ∧ (1 <= inject_Z n * BPS <= 10)%Q.
Proof.
  destruct (@sampler_range Scripted.fine_rng (tape_laws _) 1%Q 10%Q [])
    as (H & _).
  destruct H as (n & g' & Hok & _ & _ & Hin);
    [reflexivity | reflexivity | vm_compute; reflexivity |].
  exists n, g'. split; [exact Hok|].
  apply Hin; [exists 10000; reflexivity | exists 100000; reflexivity].
Defined.

(** C6, as stated, fails when the smallest amount is finer than the grid:
    with --min-amount 0.00004 a client holding 0.0001 withdraws 0.0000. *)
Lemma withdrawal_below_minimum :
  feed (R := Scripted.fine_rng) 5 Scripted.fine_args []
  = [(Deposit, 1, 1, Some (1 # 10000)); (Withdrawal, 1, 2, Some (0 # 10000))]
  ∧ ¬ (args_min_amount Scripted.fine_args <= 0 # 10000)%Q.
Proof.
  split; [vm_compute; reflexivity|]. intros H. vm_compute in H. by apply H.
Qed.

Lemma withdrawal_amount_witness :
  ∃ s, builder_at (R := Scripted.lockout_rng) 5 2 Scripted.sample_args [1] = Some s
       ∧ _random_withdrawal (R := Scripted.lockout_rng) 2 s []
         = Raise (RuntimeError "Withdrawal requested without sufficient funds").
Proof.
  eexists. split; [vm_compute; reflexivity|].
  match goal with
  | |- _random_withdrawal 2 ?s [] = _ =>
      assert (consistent s) as Hs
  end.
  { apply (@builder_at_consistent Scripted.lockout_rng (tape_laws _)
             5%nat 2%nat Scripted.sample_args [1]).
    vm_compute. reflexivity. }
  eapply (@withdrawal_amount Scripted.lockout_rng (tape_laws _) _ 2 _ [] Hs).
  - vm_compute. reflexivity.
  - vm_compute. reflexivity.
Defined.

(** ** Reproducibility *)

Section reproducibility.
Context {R : RandomGen} {L : RandomGenLaws R}.

(** The first row of a builder with two fresh accounts is a deposit onto
    the account that the draw picks by its position in the dictionary. *)
Lemma first_row c1 c2 mn mx g fuel :
  (0 < mn)%Q → (mn < mx)%Q → round_half_even (mx / BPS) < 10 ^ prec →
  let s := {| min_amount := mn; max_amount := mx; tx_counter := 1;
              accounts := [(c1, ClientAccount_init); (c2, ClientAccount_init)];
              deposit_records := ∅; posted_txs := []; disputed_txs := [] |} in
  let ga := (random_choices (action_weights [Deposit]) g).2 in
  let k := (randbelow 2 ga).1 in
  ∃ amt s' g',
    next_row (S fuel) s g
    = Ok ((Deposit, if decide (k = 0) then c1 else c2, 1, Some amt), s', g').
Proof.
  intros Hmn Hmx Hp s ga k.
  assert (0 ≤ round_half_even (mn / BPS) ≤ round_half_even (mx / BPS)) as [Hu0 Hu1].
  { split.
    - apply round_half_even_ge_Z, div_BPS_ge. change (inject_Z 0) with 0%Q. lra.
    - apply round_half_even_mono. rewrite !div_BPS. lra. }
  assert (Qle_bool mn 0 = false) as Hq by (by apply Qle_bool_false).
  assert (_valid_actions s = Ok [Deposit]) as Hv.
  { unfold _valid_actions, _funded_clients, _unlocked_clients. cbn. rewrite Hq. done. }
  assert (_unlocked_clients s = [c1; c2]) as Hu by done.
  cbn [next_row]. rewrite Hv. cbn [mbind result_bind].
  rewrite (any_weight_valid [Deposit] Deposit) by left. cbn [negb].
  pose proof (random_choices_positive (action_weights [Deposit]) g
                (action_weights_nonneg [Deposit])
                (any_weight_valid [Deposit] Deposit ltac:(left))) as (w & Hw & Hnz).
  subst ga k.
  destruct (random_choices (action_weights [Deposit]) g) as [i ga].
  cbn [fst snd] in *.
  destruct (action_weights_lookup _ i w Hw Hnz) as (name & w0 & -> & Hname).
  apply list_elem_of_singleton in Hname as ->. cbn [from_option mbind result_bind].
  rewrite bool_decide_eq_false_2 by done.
  unfold _choose_client. rewrite Hu. unfold choice.
  pose proof (randbelow_range 2 ga ltac:(lia)) as Hk.
  change (Z.of_nat (length [c1; c2])) with 2.
  destruct (randbelow 2 ga) as [k gb]. cbn [fst snd] in *.
  assert (list_getitem [c1; c2] k = Ok (if decide (k = 0) then c1 else c2)) as ->.
  { assert (k = 0 ∨ k = 1) as [-> | ->] by lia; done. }
  cbn [mbind result_bind].
  unfold _random_deposit. subst s. cbn [min_amount max_amount].
  destruct (decimal_from_range_ok mn mx gb) as (n & g' & -> & _); [lra | lia | lia |].
  cbn [mbind result_bind].
  cbn [accounts].
  assert (dict_getitem (if decide (k = 0) then c1 else c2)
            [(c1, ClientAccount_init); (c2, ClientAccount_init)]
          = Ok ClientAccount_init) as ->.
  { unfold dict_getitem. destruct (decide (k = 0)); cbn [dict_get].
    - by rewrite decide_True.
    - destruct (decide (c2 = c1)); [done|]. by rewrite decide_True. }
  cbn [mbind result_bind]. eexists _, _, _. reflexivity.
Qed.

(** C1 fails on the code: [_client_ids] shuffles before [random.seed] is
    called, so the order of the accounts, hence the client of the first
    row, depends on the state the generator happens to be in when the
    constructor starts.  With two clients, two runs of one command line
    whose shuffles differ write different feeds, whatever the seed, as
    long as the largest amount is within the precision of the context;
    beyond it both runs stop at the header, on the invalid operation of
    the first deposit. *)
Theorem seeded_after_shuffle fuel args g1 g2 :
  args_clients args = 2 → 2 ≤ args_rows args →
  (0 < args_min_amount args)%Q → (args_min_amount args < args_max_amount args)%Q →
  (random_shuffle [1; 2] g1).1 = [1; 2] →
  (random_shuffle [1; 2] g2).1 = [2; 1] →
  (round_half_even (args_max_amount args / BPS) < 10 ^ prec →
   feed (S fuel) args g1 ≠ feed (S fuel) args g2)
  ∧ (10 ^ prec ≤ round_half_even (args_max_amount args / BPS) →
     main (S fuel) args g1 = ([Header], Aborted InvalidOperation)
     ∧ main (S fuel) args g2 = ([Header], Aborted InvalidOperation)).
Proof.
  intros Hc Hrows Hmin Hmax H1 H2. split; [intros Hp | intros Hbig];
    [|destruct (FeedBuilder_init_ok args g1 Hmin Hmax ltac:(lia)) as [s1 Hi1];
      destruct (FeedBuilder_init_ok args g2 Hmin Hmax ltac:(lia)) as [s2 Hi2];
      split; eapply main_beyond_precision; eauto; lia].
  assert (∀ g0 c1 c2, c1 ≠ c2 → (random_shuffle [1; 2] g0).1 = [c1; c2] →
            let ga := (random_choices (action_weights [Deposit])
                         (random_seed (args_seed args))).2 in
            let k := (randbelow 2 ga).1 in
            ∃ amt rest, feed (S fuel) args g0
              = (Deposit, if decide (k = 0) then c1 else c2, 1, Some amt) :: rest)
    as Hfeed.
  { intros g0 c1 c2 Hne Hsh ga k. unfold feed, main, FeedBuilder_init, _client_ids.
    apply Qle_bool_false in Hmin as Hmin'. apply Qle_bool_false in Hmax as Hmax'.
    rewrite Hmin', Hmax', Hc. change (range 1 (2 + 1)) with [1; 2].
    cbn [Z.leb Z.compare Pos.compare Pos.compare_cont andb negb mbind result_bind].
    destruct (random_shuffle [1; 2] g0) as [ids g0']. cbn [fst] in Hsh. subst ids.
    cbn [foldl dict_set]. rewrite decide_False by done.
    destruct (Z.to_nat (Z.max 1 (args_rows args) - 1)) as [|m] eqn:Em; [lia|].
    cbn [write_rows].
    destruct (first_row c1 c2 (args_min_amount args) (args_max_amount args)
                (random_seed (args_seed args)) fuel Hmin Hmax Hp)
      as (amt & s' & g' & ->).
    destruct (write_rows (S fuel) m s' g') as [[rest sl] o].
    cbn [fst]. rewrite omap_data. by exists amt, rest. }
  destruct (Hfeed g1 1 2 ltac:(done) H1) as (amt1 & rest1 & ->).
  destruct (Hfeed g2 2 1 ltac:(done) H2) as (amt2 & rest2 & ->).
  intros [= Hcl _ _]. by destruct (decide _).
Qed.
End reproducibility.

Lemma seeded_after_shuffle_witness :
  feed (R := Scripted.overdraw_rng) 5 Scripted.sample_args [0]
  ≠ feed (R := Scripted.overdraw_rng) 5 Scripted.sample_args [1].
Proof.
  apply (@seeded_after_shuffle Scripted.overdraw_rng (tape_laws _)
           4%nat Scripted.sample_args [0] [1]);
    first [reflexivity | simpl; lia | vm_compute; reflexivity].
Defined.

(** * Further properties of the generator *)

(** ** The constructor *)

Lemma range_from_NoDup lo n : NoDup (range_from lo n).
Proof.
  revert lo. induction n as [|n IH]; intros lo; simpl; [apply NoDup_nil_2|].
  apply NoDup_cons. split; [|apply IH]. rewrite range_from_elem. lia.
Qed.

Lemma fromkeys_keys (ids : list Z) (d0 : list (Z * ClientAccount)) :
  NoDup (d0.*1 ++ ids) →
  (foldl (λ d cid, dict_set cid ClientAccount_init d) d0 ids).*1 = d0.*1 ++ ids.
Proof.
  revert d0. induction ids as [|c ids IH]; intros d0 Hnd; simpl.
  - by rewrite app_nil_r.
  - assert (dict_get c d0 = None) as Hc.
    { apply dict_get_None. apply NoDup_app in Hnd as (_ & Hd & _).
      intros Hin. apply (Hd c Hin). left. }
    rewrite IH; rewrite (dict_set_new_keys _ _ _ Hc), <- (assoc_L (++)); done.
Qed.

Section constructor_facts.
Context {R : RandomGen} {L : RandomGenLaws R}.

Lemma client_ids_rejects count g :
  ¬ (1 ≤ count ≤ 65535) →
  _client_ids count g = Raise (ValueError "--clients must be between 1 and 65535").
Proof.
  intros Hc. unfold _client_ids.
  destruct ((1 <=? count) && (count <=? 65535)) eqn:E; simpl; [|done].
  apply andb_true_iff in E as [?%Z.leb_le ?%Z.leb_le]. lia.
Qed.

(** X1.  [_client_ids] rejects exactly the counts outside 1..65535; otherwise
    it returns the list 1..count as [random.shuffle] leaves it, with the
    generator state that the shuffle leaves: the ids 1..count, each once,
    in the order of the shuffle. *)
Theorem client_ids_bounds count g :
  (_client_ids count g = Raise (ValueError "--clients must be between 1 and 65535")
   ↔ ¬ (1 ≤ count ≤ 65535))
  ∧ (1 ≤ count ≤ 65535 →
     ∃ ids g', _client_ids count g = Ok (ids, g')
       ∧ (ids, g') = random_shuffle (range 1 (count + 1)) g
       ∧ ids ≡ₚ range 1 (count + 1)
       ∧ NoDup ids ∧ length ids = Z.to_nat count
       ∧ ∀ c, c ∈ ids ↔ 1 ≤ c ≤ count).
Proof.
  split.
  - unfold _client_ids.
    destruct ((1 <=? count) && (count <=? 65535)) eqn:E; simpl.
    + apply andb_true_iff in E as [?%Z.leb_le ?%Z.leb_le]. split; [done | lia].
    + split; [intros _ | done].
      apply andb_false_iff in E as [?%Z.leb_gt | ?%Z.leb_gt]; lia.
  - intros Hc. destruct (client_ids_ok count g Hc) as (ids & g' & Hok & Hp).
    exists ids, g'. split; [done|]. split_and!.
    + revert Hok. unfold _client_ids. destruct (negb _); [done|]. by intros [= <-].
    + done.
    + rewrite Hp. apply range_from_NoDup.
    + rewrite Hp. unfold range. rewrite range_from_length. lia.
    + intros c. rewrite Hp. unfold range. rewrite range_from_elem. lia.
Qed.

(** X2.  The constructor checks the smallest amount, then the largest amount,
    then the number of clients, and accepts exactly the command lines that
    pass all three. *)
Theorem constructor_checks args g0 :
  let mn := args_min_amount args in
  let mx := args_max_amount args in
  ((mn <= 0)%Q →
     FeedBuilder_init args g0 = Raise (ValueError "--min-amount must be positive"))
  ∧ ((0 < mn)%Q → (mx <= mn)%Q →
     FeedBuilder_init args g0
     = Raise (ValueError "--max-amount must exceed --min-amount"))
  ∧ ((0 < mn)%Q → (mn < mx)%Q → ¬ (1 ≤ args_clients args ≤ 65535) →
     FeedBuilder_init args g0
     = Raise (ValueError "--clients must be between 1 and 65535"))
  ∧ ((∃ s g, FeedBuilder_init args g0 = Ok (s, g))
     ↔ (0 < mn)%Q ∧ (mn < mx)%Q ∧ 1 ≤ args_clients args ≤ 65535).
Proof.
  intros mn mx. split_and!.
  - intros H%Qle_bool_iff. unfold FeedBuilder_init. fold mn. by rewrite H.
  - intros H1%Qle_bool_false H2%Qle_bool_iff. unfold FeedBuilder_init.
    fold mn mx. by rewrite H1, H2.
  - intros H1%Qle_bool_false H2%Qle_bool_false Hc. unfold FeedBuilder_init.
    fold mn mx. rewrite H1, H2.
    by rewrite (client_ids_rejects (args_clients args) g0 Hc).
  - split.
    + intros (s & g & H). apply FeedBuilder_init_inv in H as (H1 & H2 & H3 & _). done.
    + intros (H1 & H2 & H3).
      destruct (FeedBuilder_init_ok args g0 H1 H2 H3) as [s Hs]. eauto.
Qed.

(** X3.  A new builder has one account per id 1..clients, in the order of the
    shuffle, each with zero balances and unlocked; no records, empty
    pools, counter 1; and the generator is left as seeded, whatever state
    it was in before. *)
Theorem constructor_state args g0 s g :
  FeedBuilder_init args g0 = Ok (s, g) →
  g = random_seed (args_seed args)
  ∧ min_amount s = args_min_amount args ∧ max_amount s = args_max_amount args
  ∧ tx_counter s = 1 ∧ deposit_records s = ∅
  ∧ posted_txs s = [] ∧ disputed_txs s = []
  ∧ (accounts s).*1 = (random_shuffle (range 1 (args_clients args + 1)) g0).1
  ∧ (accounts s).*1 ≡ₚ range 1 (args_clients args + 1)
  ∧ ∀ c, dict_get c (accounts s)
         = if bool_decide (1 ≤ c ≤ args_clients args)
           then Some ClientAccount_init else None.
Proof.
  intros Hinit.
  assert ((accounts s).*1 = (random_shuffle (range 1 (args_clients args + 1)) g0).1)
    as Hkeys.
  { revert Hinit. unfold FeedBuilder_init, _client_ids.
    destruct (Qle_bool _ 0); [done|]. destruct (Qle_bool _ _); [done|].
    destruct (negb _); [done|]. simpl.
    pose proof (random_shuffle_perm (range 1 (args_clients args + 1)) g0) as Hp.
    destruct (random_shuffle _ g0) as [ids g']. simpl in *. intros [= <- _]. simpl.
    apply (fromkeys_keys ids []). simpl. rewrite Hp. apply range_from_NoDup. }
  apply FeedBuilder_init_inv in Hinit as (_ & _ & Hc & -> & ids & Hp & ->).
  simpl in *. split_and!; try done.
  - rewrite Hkeys. apply random_shuffle_perm.
  - intros c. destruct (fromkeys_spec ids []) as (Hnd & Hall & Hin);
      [apply NoDup_nil_2 | constructor |].
    case_bool_decide as Hcc.
    + destruct (Hin c) as [a Ha].
      { rewrite Hp. apply range_from_elem. lia. }
      rewrite Ha. f_equal. apply dict_get_elem in Ha.
      rewrite Forall_forall in Hall. apply (Hall _ Ha).
    + apply dict_get_None. rewrite Hkeys.
      rewrite (random_shuffle_perm _ g0). unfold range. rewrite range_from_elem. lia.
Qed.
End constructor_facts.

Lemma client_ids_bounds_witness :
  ∃ ids g', _client_ids (R := Scripted.lockout_rng) 2 [1] = Ok (ids, g')
            ∧ (ids, g') = (([2; 1], []) : list Z * list Z)
            ∧ NoDup ids ∧ length ids = 2%nat.
Proof.
  destruct (@client_ids_bounds Scripted.lockout_rng (tape_laws _) 2 [1])
    as [_ H].
  destruct H as (ids & g' & Hok & Hsh & _ & Hnd & Hlen & _); [lia|].
  by exists ids, g'.
Defined.

Lemma constructor_checks_witness :
  ∃ s g, FeedBuilder_init (R := Scripted.lockout_rng) Scripted.sample_args [1] = Ok (s, g).
Proof.
  apply (@constructor_checks Scripted.lockout_rng (tape_laws _)
           Scripted.sample_args [1]).
  split_and!; [reflexivity | reflexivity | simpl; lia | simpl; lia].
Defined.

Lemma constructor_state_witness :
  ∃ s g, FeedBuilder_init (R := Scripted.lockout_rng) Scripted.sample_args [1] = Ok (s, g)
         ∧ (accounts s).*1 = [2; 1] ∧ tx_counter s = 1.
Proof.
  eexists _, _. split; [vm_compute; reflexivity|].
  destruct (@constructor_state Scripted.lockout_rng (tape_laws _)
              Scripted.sample_args [1] _ _ eq_refl)
    as (_ & _ & _ & Hc & _ & _ & _ & Hk & _).
  split; [exact Hk | exact Hc].
Defined.

(** ** Choosing clients and transactions *)

Lemma filter_list_remove (P : Z → Prop) `{!∀ x, Decision (P x)} x l :
  ¬ P x → filter P (list_remove x l) = filter P l.
Proof.
  intros Hx. induction l as [|y l IH]; [done|]. cbn [list_remove].
  case_decide as Hxy.
  - subst. by rewrite filter_cons_False.
  - rewrite !filter_cons. by rewrite IH.
Qed.

Section choosing_facts.
Context {R : RandomGen} {L : RandomGenLaws R}.

(** X4.  [_choose_client] returns [None] exactly when no account qualifies and
    leaves the generator untouched then; otherwise it returns an unlocked
    account, with available >= the smallest amount when funds are
    required. *)
Theorem choose_client_qualifies (require_funds : bool) s g :
  NoDup (accounts s).*1 →
  ∃ oc g', _choose_client require_funds s g = Ok (oc, g')
    ∧ match oc with
      | Some c =>
          ∃ a, dict_get c (accounts s) = Some a ∧ locked a = false
               ∧ (require_funds = true → (min_amount s <= available a)%Q)
      | None =>
          g' = g
          ∧ ∀ c a, dict_get c (accounts s) = Some a → locked a = false →
                   require_funds = true ∧ (available a < min_amount s)%Q
      end.
Proof.
  intros Hnd. pose proof (choose_client_spec require_funds s g) as Hc.
  cbn zeta in Hc. destruct require_funds.
  - destruct (_funded_clients s) as [|c0 l] eqn:E.
    + exists None, g. split; [done|]. split; [done|]. intros c a Ha Hl.
      split; [done|]. apply Qnot_le_lt. intros Hle.
      assert (c ∈ _funded_clients s) as Hin.
      { apply funded_clients_elem. exists a. by apply dict_get_elem in Ha. }
      rewrite E in Hin. by apply elem_of_nil in Hin.
    + destruct Hc as (cid & g' & Hok & Hin). exists (Some cid), g'.
      split; [done|]. rewrite <- E in Hin.
      apply funded_clients_elem in Hin as (a & Ha & Hl & Hf).
      exists a. split; [by apply dict_elem_get | done].
  - destruct (_unlocked_clients s) as [|c0 l] eqn:E.
    + exists None, g. split; [done|]. split; [done|]. intros c a Ha Hl.
      assert (c ∈ _unlocked_clients s) as Hin.
      { apply unlocked_clients_elem. exists a. by apply dict_get_elem in Ha. }
      rewrite E in Hin. by apply elem_of_nil in Hin.
    + destruct Hc as (cid & g' & Hok & Hin). exists (Some cid), g'.
      split; [done|]. rewrite <- E in Hin.
      apply unlocked_clients_elem in Hin as (a & Ha & Hl).
      exists a. split; [by apply dict_elem_get | done].
Qed.

Lemma choose_tx_loop_keeps s fuel pool g otx pool' g' :
  _choose_tx_loop fuel s pool g = Ok (otx, pool', g') →
  filter (λ tx, tx_eligible s tx = true) pool'
  = filter (λ tx, tx_eligible s tx = true) pool.
Proof.
  revert pool g. induction fuel as [|fuel IH]; intros pool g.
  - destruct pool; simpl; [by intros [= <- <- <-] | done].
  - destruct pool as [|y pool0]; [by intros [= <- <- <-]|].
    rewrite choose_tx_loop_cons. remember (y :: pool0) as pool eqn:Ep.
    destruct (choice pool g) as [[tx g1]| |]; [|done..]. simpl.
    destruct (tx_eligible s tx) eqn:Et; [by intros [= <- <- <-]|].
    intros H%IH. rewrite H. apply filter_list_remove. by rewrite Et.
Qed.

(** X5.  [_choose_tx] always returns: either a transaction of the pool whose
    owner is unlocked, or [None] when the pool holds no such transaction.
    What it removes from the pool on the way are only transactions that
    are not eligible; every eligible one stays, in order. *)
Theorem choose_tx_drops_only_ineligible s pool g :
  ∃ otx pool' g', _choose_tx s pool g = Ok (otx, pool', g')
    ∧ sublist pool' pool
    ∧ filter (λ tx, tx_eligible s tx = true) pool'
      = filter (λ tx, tx_eligible s tx = true) pool
    ∧ match otx with
      | Some tx => tx ∈ pool' ∧ tx_eligible s tx = true
      | None => pool' = [] ∧ ∀ tx, tx ∈ pool → tx_eligible s tx = false
      end.
Proof.
  destruct (choose_tx_spec s pool g) as (otx & pool' & g' & Hok & Hsub & Hres).
  exists otx, pool', g'. split_and!; [done | done | | done].
  by eapply choose_tx_loop_keeps.
Qed.

(** X6.  When the rounded bounds meet or cross, in particular when max <= min,
    and min is within the precision of the context at four decimals, the
    sampler does not fail: it returns min rounded to four decimals,
    whatever is drawn. *)
Theorem sampler_crossed_bounds lo hi g :
  (0 < hi)%Q → round_half_even (hi / BPS) ≤ round_half_even (lo / BPS) →
  round_half_even (lo / BPS) < 10 ^ prec →
  ∃ g', decimal_from_range lo hi g
        = Ok ((inject_Z (round_half_even (lo / BPS)) * BPS)%Q, g').
Proof.
  intros Hhi Hcross Hp.
  assert (0 ≤ round_half_even (hi / BPS)) as H0.
  { apply round_half_even_ge_Z, div_BPS_ge. change (inject_Z 0) with 0%Q. lra. }
  destruct (decimal_from_range_ok lo hi g Hhi) as (n & g' & Hok & Hn); [lia..|].
  exists g'. rewrite Hok.
  assert (n = round_half_even (lo / BPS)) as -> by lia. done.
Qed.
End choosing_facts.

Lemma choose_client_qualifies_witness :
  ∃ oc g', _choose_client (R := Scripted.lockout_rng) true Scripted.disputed_builder [0]
           = Ok (oc, g') ∧ oc = None ∧ g' = [0].
Proof.
  destruct (@choose_client_qualifies Scripted.lockout_rng (tape_laws _)
              true Scripted.disputed_builder [0]) as (oc & g' & Hok & Hres).
  - apply (bool_decide_unpack _). vm_compute. exact I.
  - exists oc, g'. split; [exact Hok|]. vm_compute in Hok.
    injection Hok as <- <-. done.
Defined.

Lemma choose_tx_drops_only_ineligible_witness :
  ∃ otx pool' g',
    _choose_tx (R := Scripted.lockout_rng) Scripted.locked_builder [1; 7] [0; 0]
    = Ok (otx, pool', g')
    ∧ otx = None ∧ pool' = [].
Proof.
  destruct (@choose_tx_drops_only_ineligible Scripted.lockout_rng (tape_laws _)
              Scripted.locked_builder [1; 7] [0; 0])
    as (otx & pool' & g' & Hok & _).
  exists otx, pool', g'. split; [exact Hok|]. vm_compute in Hok.
  injection Hok as <- <- <-. done.
Defined.

Lemma sampler_crossed_bounds_witness :
  ∃ g', decimal_from_range (R := Scripted.fine_rng) 2 1 [5]
        = Ok ((inject_Z (round_half_even (2 / BPS)) * BPS)%Q, g').
Proof.
  apply (@sampler_crossed_bounds Scripted.fine_rng (tape_laws _) 2%Q 1%Q [5]).
  - reflexivity.
  - vm_compute. discriminate.
  - vm_compute. reflexivity.
Defined.

(** ** One row at a time *)

Lemma cleaned_accounts s s' : cleaned s s' →
  accounts s' = accounts s ∧ deposit_records s' = deposit_records s
  ∧ tx_counter s' = tx_counter s ∧ min_amount s' = min_amount s
  ∧ max_amount s' = max_amount s.
Proof. by intros (p & d & _ & _ & ->). Qed.

Lemma action_keys s row s' :
  action s row s' →
  (accounts s').*1 = (accounts s).*1 ∧ min_amount s' = min_amount s
  ∧ max_amount s' = max_amount s.
Proof. destruct 1; simpl; (split; [|done]); rewrite dict_set_keys; eauto. Qed.

Lemma action_shape s row s' :
  consistent s → action s row s' →
  if is_money row
  then ∃ amt, row_amount row = Some amt ∧ on_grid amt ∧ (0 <= amt)%Q
              ∧ row_tx row = tx_counter s ∧ tx_counter s' = tx_counter s + 1
  else row_amount row = None ∧ 1 ≤ row_tx row < tx_counter s
       ∧ tx_counter s' = tx_counter s.
Proof.
  intros Hs. destruct 1; simpl; try (by eexists);
    (split; [done|]); (split; [|done]); apply (cs_fresh s Hs); eauto.
Qed.

Lemma action_locked s row s' c :
  action s row s' → locked_in s c →
  locked_in s' c ∧ account_balance s' c = account_balance s c ∧ row_client row ≠ c.
Proof.
  intros Hact (a0 & Ha0 & Hl0).
  assert (row_client row ≠ c) as Hne.
  { destruct (action_client_unlocked _ _ _ Hact) as (a1 & Ha1 & Hl1).
    intros E. rewrite E in Ha1. congruence. }
  assert (∃ a', accounts s' = dict_set (row_client row) a' (accounts s)) as [a' E]
    by (destruct Hact; simpl; eauto).
  split_and!; [|unfold account_balance|done].
  - exists a0. by rewrite E, dict_get_set_ne.
  - by rewrite E, dict_get_set_ne.
Qed.

Lemma action_funds s row s' c :
  consistent s → exact_action s row s' →
  (total_funds s' c
   == total_funds s c + (if decide (row_client row = c) then funds_change s row else 0))%Q.
Proof.
  intros Hs Hact. unfold total_funds, funds_change.
  destruct Hact as [cid a amt Ha Hl Hg Hamt Hcap
                   |cid a amt Ha Hl Hg Hamt Hle Hcap
                   |tx r a Hin Hr Ha Hl
                   |tx r a Hin Hr Ha Hl
                   |tx r a Hin Hr Ha Hl Htwo];
    erewrite (account_balance_set s) by reflexivity;
    unfold row_client, row_kind, row_tx, row_amount; simpl;
    rewrite ?Hr; simpl;
    (case_decide as Hc; [subst c | lra]);
    rewrite (account_balance_get s _ a Ha); simpl; lra.
Qed.

Section one_row.
Context {R : RandomGen} {L : RandomGenLaws R}.

Lemma next_row_step fuel s g row s' g' :
  consistent s → next_row fuel s g = Ok (row, s', g') → step s row s'.
Proof.
  intros Hs H. pose proof (next_row_spec fuel s g Hs) as Hn. by rewrite H in Hn.
Qed.

(** X7.  A deposit or withdrawal row carries a non-negative multiple of 0.0001
    and the current counter, which it advances by one; a dispute, resolve
    or chargeback row carries no amount and an id handed out earlier, and
    leaves the counter alone. *)
Theorem next_row_shape fuel s g row s' g' :
  consistent s → next_row fuel s g = Ok (row, s', g') →
  if is_money row
  then ∃ amt, row_amount row = Some amt ∧ on_grid amt ∧ (0 <= amt)%Q
              ∧ row_tx row = tx_counter s ∧ tx_counter s' = tx_counter s + 1
  else row_amount row = None ∧ 1 ≤ row_tx row < tx_counter s
       ∧ tx_counter s' = tx_counter s.
Proof.
  intros Hs (s1 & Hc & Ha)%next_row_step; [|done].
  pose proof (action_shape s1 row s' (cleaned_consistent _ _ Hs Hc) Ha) as H.
  apply cleaned_accounts in Hc as (_ & _ & Hcnt & _). by rewrite Hcnt in H.
Qed.

(** X8.  A row never touches a locked account: the account stays locked, its
    balances stay what they were, and the row names another client.  The
    ids of the accounts, their order and the configured bounds never
    change. *)
Theorem next_row_spares_locked fuel s g row s' g' :
  consistent s → next_row fuel s g = Ok (row, s', g') →
  (accounts s').*1 = (accounts s).*1
  ∧ min_amount s' = min_amount s ∧ max_amount s' = max_amount s
  ∧ ∀ c, locked_in s c →
      locked_in s' c ∧ account_balance s' c = account_balance s c
      ∧ row_client row ≠ c.
Proof.
  intros Hs (s1 & Hc & Ha)%next_row_step; [|done].
  apply cleaned_accounts in Hc as (Hacc & _ & _ & Hmin & Hmax).
  destruct (action_keys _ _ _ Ha) as (Hk & Hmin' & Hmax').
  split_and!; [congruence..|].
  intros c Hl.
  assert (locked_in s1 c) as Hl1 by (unfold locked_in; by rewrite Hacc).
  destruct (action_locked s1 row s' c Ha Hl1) as (H1 & H2 & H3).
  split_and!; [done | | done]. rewrite H2. unfold account_balance. by rewrite Hacc.
Qed.

(** X9.  While the balances have room for one more amount below 10^24, so
    that the row is not rounded: disputes and resolves move funds between
    available and held without changing their sum; a deposit adds its
    amount to the sum, a withdrawal takes its amount off, a chargeback
    takes the reversed deposit off; the funds of every other client stay
    as they are. *)
Theorem next_row_funds fuel s g row s' g' c :
  consistent s → within_precision 1 s → next_row fuel s g = Ok (row, s', g') →
  (total_funds s' c
   == total_funds s c + (if decide (row_client row = c) then funds_change s row else 0))%Q.
Proof.
  intros Hs Hw (s1 & Hc & Ha)%next_row_step; [|done].
  pose proof (cleaned_consistent _ _ Hs Hc) as Hs1.
  pose proof (action_exact s1 row s' Hs1 (within_cleaned 1 s s1 Hs Hw Hc) Ha) as Hex.
  pose proof (action_funds s1 row s' c Hs1 Hex) as H.
  apply cleaned_accounts in Hc as (Hacc & Hrec & _).
  unfold total_funds, funds_change, account_balance in *.
  by rewrite Hacc, Hrec in H.
Qed.

(** X10.  Between two rows some account is always unlocked: the generator never
    locks its last unlocked account. *)
Theorem some_account_stays_unlocked fuel k args g0 s :
  builder_at fuel k args g0 = Some s →
  ∃ c a, dict_get c (accounts s) = Some a ∧ locked a = false.
Proof.
  intros Hs%builder_at_consistent.
  destruct (proj1 (alive_unlocked_in s (cs_keys s Hs)) (cs_alive s Hs)) as (c & a & H).
  by exists c, a.
Qed.

End one_row.

Lemma after_dispute_reached :
  builder_at (R := Scripted.lockout_rng) 5 2 Scripted.sample_args [1]
  = Some Scripted.after_dispute.
Proof. vm_compute. reflexivity. Qed.

Lemma after_dispute_consistent : consistent Scripted.after_dispute.
Proof.
  apply (@builder_at_consistent Scripted.lockout_rng (tape_laws _)
           5%nat 2%nat Scripted.sample_args [1]), after_dispute_reached.
Qed.

Lemma after_dispute_within : within_precision 1 Scripted.after_dispute.
Proof.
  apply (@builder_at_within Scripted.lockout_rng (tape_laws _)
           5%nat 2%nat 1 Scripted.sample_args [1]);
    [apply after_dispute_reached | vm_compute; reflexivity | lia].
Qed.

Lemma next_row_shape_witness :
  ∃ row s' g',
    next_row (R := Scripted.lockout_rng) 5 Scripted.after_dispute [2; 0; 0]
    = Ok (row, s', g')
    ∧ row_kind row = Chargeback
    ∧ if is_money row
      then ∃ amt, row_amount row = Some amt ∧ on_grid amt ∧ (0 <= amt)%Q
                  ∧ row_tx row = tx_counter Scripted.after_dispute
                  ∧ tx_counter s' = tx_counter Scripted.after_dispute + 1
      else row_amount row = None ∧ 1 ≤ row_tx row < tx_counter Scripted.after_dispute
           ∧ tx_counter s' = tx_counter Scripted.after_dispute.
Proof.
  eexists _, _, _. split; [vm_compute; reflexivity|]. split; [reflexivity|].
  eapply (@next_row_shape Scripted.lockout_rng (tape_laws _)
            5%nat Scripted.after_dispute [2; 0; 0]).
  - apply after_dispute_consistent.
  - vm_compute. reflexivity.
Defined.

Lemma next_row_spares_locked_witness :
  let s := default Scripted.disputed_builder
             (builder_at (R := Scripted.lockout_rng) 5 3 Scripted.sample_args [1]) in
  ∃ row s' g',
    next_row (R := Scripted.lockout_rng) 5 s [0; 0; 7] = Ok (row, s', g')
    ∧ (accounts s').*1 = (accounts s).*1
    ∧ locked_in s 2
    ∧ locked_in s' 2 ∧ account_balance s' 2 = account_balance s 2
    ∧ row_client row ≠ 2.
Proof.
  intros s.
  assert (locked_in s 2) as Hl by (eexists; split; vm_compute; reflexivity).
  edestruct (@next_row_spares_locked Scripted.lockout_rng (tape_laws _)
               5%nat s [0; 0; 7]) as (Hk & _ & _ & Hc).
  - apply (@builder_at_consistent Scripted.lockout_rng (tape_laws _)
             5%nat 3%nat Scripted.sample_args [1]).
    vm_compute. reflexivity.
  - vm_compute. reflexivity.
  - eexists _, _, _. split; [vm_compute; reflexivity|].
    split; [exact Hk|]. split; [exact Hl|]. exact (Hc 2 Hl).
Defined.

Lemma next_row_funds_witness :
  ∃ row s' g',
    next_row (R := Scripted.lockout_rng) 5 Scripted.after_dispute [2; 0; 0]
    = Ok (row, s', g')
    ∧ (total_funds s' 2%Z
       == total_funds Scripted.after_dispute 2%Z
          + (if decide (row_client row = 2%Z)
             then funds_change Scripted.after_dispute row else 0))%Q.
Proof.
  eexists _, _, _. split; [vm_compute; reflexivity|].
  eapply (@next_row_funds Scripted.lockout_rng (tape_laws _)
            5%nat Scripted.after_dispute [2; 0; 0]).
  - apply after_dispute_consistent.
  - apply after_dispute_within.
  - vm_compute. reflexivity.
Defined.

Lemma some_account_stays_unlocked_witness :
  ∃ c a, dict_get c (accounts Scripted.after_dispute) = Some a ∧ locked a = false.
Proof.
  apply (@some_account_stays_unlocked Scripted.lockout_rng (tape_laws _)
           5%nat 2%nat Scripted.sample_args [1]), after_dispute_reached.
Defined.


(** ** The life cycle of a deposit *)

Lemma status_after_snoc hist row tx :
  status_after (hist ++ [row]) tx
  = if decide (row_tx row = tx)
    then row_status (row_kind row) (status_after hist tx)
    else status_after hist tx.
Proof. unfold status_after. by rewrite foldl_app. Qed.

Lemma life_cycle_action hist s row s' :
  consistent s →
  (∀ tx, status_after hist tx = status <$> deposit_records s !! tx) →
  action s row s' →
  in_order hist row
  ∧ ∀ tx, status_after (hist ++ [row]) tx = status <$> deposit_records s' !! tx.
Proof.
  intros Hs Hsync Hact.
  assert (deposit_records s !! tx_counter s = None) as Hfresh.
  { destruct (deposit_records s !! tx_counter s) eqn:E; [|done].
    pose proof (cs_fresh s Hs (tx_counter s)) as H. rewrite E in H.
    specialize (H (mk_is_Some _ _ eq_refl)). lia. }
  destruct Hact as [cid a amt Ha Hl Hg Hamt Hcap
                   |cid a amt Ha Hl Hg Hamt Hle Hcap
                   |tx r a Hin Hr Ha Hl
                   |tx r a Hin Hr Ha Hl
                   |tx r a Hin Hr Ha Hl Htwo];
    (split; [unfold in_order; cbn; rewrite Hsync
            |intros tx'; rewrite status_after_snoc; cbn; rewrite ?lookup_insert;
             case_decide; subst; rewrite ?Hsync; try done]).
  - by rewrite Hfresh.
  - by rewrite Hfresh.
  - destruct (cs_posted s Hs tx Hin) as (r' & Hr' & Hst). rewrite Hr'. simpl.
    by rewrite Hst.
  - destruct (cs_disputed s Hs tx Hin) as (r' & Hr' & Hst). rewrite Hr'. simpl.
    by rewrite Hst.
  - destruct (cs_disputed s Hs tx Hin) as (r' & Hr' & Hst). rewrite Hr'. simpl.
    by rewrite Hst.
Qed.

Lemma trace_life_cycle s0 hist s :
  tracked [] s0 → trace s0 hist s →
  (∀ i row, hist !! i = Some row → in_order (take i hist) row)
  ∧ (∀ tx, status_after hist tx = status <$> deposit_records s !! tx).
Proof.
  intros H0. apply (trace_invariant (λ hist s,
    (∀ i row, hist !! i = Some row → in_order (take i hist) row)
    ∧ (∀ tx, status_after hist tx = status <$> deposit_records s !! tx)) s0 H0).
  - split; [done|]. intros tx. pose proof (tr_amounts _ _ H0 tx) as H.
    simpl in H. rewrite lookup_empty in H.
    by destruct (deposit_records s0 !! tx).
  - intros hist' s1 s2 _ [H1 H2] (p & d & _ & _ & ->). done.
  - intros hist' s1 row s2 Htr [H1 H2] Hact.
    destruct (life_cycle_action hist' s1 row s2 (tr_consistent _ _ Htr) H2 Hact)
      as [Hrow Hsync].
    split; [|done]. intros i row' [[Hi Hlook]|[-> <-]]%lookup_snoc_Some.
    + rewrite take_app_le by lia. by apply H1.
    + by rewrite take_app_length.
Qed.

(** ** Chargebacks and locked accounts *)

Lemma unlocked_length_set c a a' (d : list (Z * ClientAccount)) :
  dict_get c d = Some a →
  (length (filter (λ ca, locked ca.2 = false) (dict_set c a' d))
   + (if locked a then 0 else 1)
   = length (filter (λ ca, locked ca.2 = false) d)
     + (if locked a' then 0 else 1))%nat.
Proof.
  induction d as [|[k v] d IH]; [done|]. cbn [dict_get dict_set].
  case_decide.
  - intros [= ->]. rewrite !filter_cons. simpl.
    destruct (locked a), (locked a'); simpl; lia.
  - intros Hget. specialize (IH Hget). rewrite !filter_cons. simpl.
    destruct (locked v); simpl; lia.
Qed.

Lemma unlocked_clients_length s :
  length (_unlocked_clients s)
  = length (filter (λ ca : Z * ClientAccount, locked ca.2 = false) (accounts s)).
Proof. unfold _unlocked_clients. by rewrite length_fmap. Qed.

Lemma chargebacks_snoc hist row :
  chargebacks (hist ++ [row])
  = chargebacks hist ++ (if decide (row_kind row = Chargeback) then [row] else []).
Proof.
  unfold chargebacks. by rewrite filter_app.
Qed.

Lemma chargebacks_action hist s row s' :
  action s row s' →
  (length (chargebacks (hist ++ [row])) + length (_unlocked_clients s')
   = length (chargebacks hist) + length (_unlocked_clients s))%nat.
Proof.
  intros Hact. rewrite chargebacks_snoc, length_app, !unlocked_clients_length.
  destruct Hact as [cid a amt Ha Hl Hg Hamt Hcap
                   |cid a amt Ha Hl Hg Hamt Hle Hcap
                   |tx r a Hin Hr Ha Hl
                   |tx r a Hin Hr Ha Hl
                   |tx r a Hin Hr Ha Hl Htwo]; cbn [accounts row_kind fst];
    match goal with
    | |- context [dict_set ?c ?a' _] =>
        pose proof (unlocked_length_set c a a' (accounts s) Ha) as H
    end;
    rewrite ?Hl in H; rewrite ?Hl; simpl in H; simpl; lia.
Qed.

Lemma trace_chargebacks s0 hist s :
  tracked [] s0 → trace s0 hist s →
  (length (chargebacks hist) + length (_unlocked_clients s)
   = length (_unlocked_clients s0))%nat.
Proof.
  intros H0. apply (trace_invariant (λ hist s,
    (length (chargebacks hist) + length (_unlocked_clients s)
     = length (_unlocked_clients s0))%nat) s0 H0).
  - done.
  - by intros hist' s1 s2 _ H (p & d & _ & _ & ->).
  - intros hist' s1 row s2 _ H Hact.
    by rewrite (chargebacks_action hist' s1 row s2 Hact).
Qed.

Lemma filter_all {A} (P : A → Prop) `{!∀ x, Decision (P x)} (l : list A) :
  Forall P l → filter P l = l.
Proof.
  induction 1 as [|x l Hx _ IH]; [done|]. rewrite filter_cons_True by done.
  by rewrite IH.
Qed.

Section life_cycle.
Context {R : RandomGen} {L : RandomGenLaws R}.

Lemma FeedBuilder_init_unlocked args g0 s g :
  FeedBuilder_init args g0 = Ok (s, g) →
  length (_unlocked_clients s) = Z.to_nat (args_clients args).
Proof.
  intros (_ & _ & Hc & _ & ids & Hp & ->)%FeedBuilder_init_inv.
  assert (NoDup ids) as Hnd by (rewrite Hp; apply range_from_NoDup).
  destruct (fromkeys_spec ids []) as (_ & Hall & _); [apply NoDup_nil_2 | constructor|].
  pose proof (fromkeys_keys ids [] Hnd) as Hk. simpl in Hk, Hall.
  rewrite unlocked_clients_length. cbn [accounts].
  rewrite filter_all.
  - rewrite <- (length_fmap fst), Hk, Hp. unfold range. rewrite range_from_length. lia.
  - eapply Forall_impl; [exact Hall|]. by intros [k a] ->.
Qed.

(** X12.  Every row comes in the order of the life cycle of the deposit it
    names: the id of a deposit or withdrawal row has been used by no
    deposit, a dispute row names a deposit that is posted at that point (not
    yet disputed, not closed), a resolve or chargeback row one that is under
    dispute (not yet closed); and the records of the builder hold the
    status that the rows written lead to. *)
Theorem rows_follow_life_cycle fuel k args g0 s0 g rows s o :
  FeedBuilder_init args g0 = Ok (s0, g) →
  write_rows fuel k s0 g = (rows, s, o) →
  (∀ i row, rows !! i = Some row → in_order (take i rows) row)
  ∧ (∀ tx, status_after rows tx = status <$> deposit_records s !! tx).
Proof.
  intros Hinit Hw. pose proof (FeedBuilder_init_tracked _ _ _ _ Hinit) as H0.
  destruct (write_rows_trace fuel k s0 [] s0 g rows s o H0 (trace_start s0) Hw)
    as (Ht & _).
  by apply (trace_life_cycle s0).
Qed.

(** X13.  The chargeback rows written and the accounts still unlocked add up
    to the number of clients, and at least one account stays unlocked:
    a feed for [n] clients holds fewer than [n] chargebacks, none at all
    for a single client. *)
Theorem chargebacks_lock_accounts fuel k args g0 s0 g rows s o :
  FeedBuilder_init args g0 = Ok (s0, g) →
  write_rows fuel k s0 g = (rows, s, o) →
  (length (chargebacks rows) + length (_unlocked_clients s)
   = Z.to_nat (args_clients args))%nat
  ∧ (length (chargebacks rows) < Z.to_nat (args_clients args))%nat.
Proof.
  intros Hinit Hw. pose proof (FeedBuilder_init_tracked _ _ _ _ Hinit) as H0.
  destruct (write_rows_trace fuel k s0 [] s0 g rows s o H0 (trace_start s0) Hw)
    as (Ht & _). simpl in Ht.
  pose proof (trace_chargebacks s0 rows s H0 Ht) as Hsum.
  rewrite (FeedBuilder_init_unlocked _ _ _ _ Hinit) in Hsum.
  split; [done|].
  pose proof (cs_alive s (tr_consistent _ _ (trace_tracked _ _ _ H0 Ht))) as Halive.
  destruct (_unlocked_clients s); [done|]. simpl in Hsum. lia.
Qed.
End life_cycle.

Lemma rows_follow_life_cycle_witness :
  ∃ rows s o,
    write_rows (R := Scripted.lockout_rng) 5 3
      (default Scripted.disputed_builder
         (builder_at (R := Scripted.lockout_rng) 5 0 Scripted.sample_args [1]))
      [0; 0; 5; 2; 0; 2; 0; 0; 0; 0; 7]
    = (rows, s, o)
    ∧ row_kind <$> rows = [Deposit; Dispute; Chargeback]
    ∧ (∀ i row, rows !! i = Some row → in_order (take i rows) row)
    ∧ (∀ tx, status_after rows tx = status <$> deposit_records s !! tx).
Proof.
  eexists _, _, _. split; [vm_compute; reflexivity|]. split; [reflexivity|].
  eapply (@rows_follow_life_cycle Scripted.lockout_rng (tape_laws _)
            5%nat 3%nat Scripted.sample_args [1]).
  - vm_compute. reflexivity.
  - vm_compute. reflexivity.
Defined.

Lemma chargebacks_lock_accounts_witness :
  ∃ rows s o,
    write_rows (R := Scripted.lockout_rng) 5 3
      (default Scripted.disputed_builder
         (builder_at (R := Scripted.lockout_rng) 5 0 Scripted.sample_args [1]))
      [0; 0; 5; 2; 0; 2; 0; 0; 0; 0; 7]
    = (rows, s, o)
    ∧ length (chargebacks rows) = 1%nat
    ∧ (length (chargebacks rows) + length (_unlocked_clients s)
       = Z.to_nat (args_clients Scripted.sample_args))%nat
    ∧ (length (chargebacks rows) < Z.to_nat (args_clients Scripted.sample_args))%nat.
Proof.
  eexists _, _, _. split; [vm_compute; reflexivity|]. split; [reflexivity|].
  eapply (@chargebacks_lock_accounts Scripted.lockout_rng (tape_laws _)
            5%nat 3%nat Scripted.sample_args [1]).
  - vm_compute. reflexivity.
  - vm_compute. reflexivity.
Defined.

(** ** A dispute that is resolved *)

Lemma dispute_resolve_actions sa row1 s1 sb row2 s2 :
  consistent sa → within_precision 1 sa →
  action sa row1 s1 → row_kind row1 = Dispute →
  cleaned s1 sb → action sb row2 s2 → row_kind row2 = Resolve →
  row_tx row2 = row_tx row1 →
  row_client row2 = row_client row1
  ∧ (∀ c, ((account_balance s2 c).1 == (account_balance sa c).1)%Q
          ∧ ((account_balance s2 c).2 == (account_balance sa c).2)%Q)
  ∧ (∃ r, deposit_records sa !! row_tx row1 = Some r
          ∧ deposit_records s2
            = <[row_tx row1 := set_status r resolved]> (deposit_records sa))
  ∧ (row_tx row1 ∉ posted_txs s2) ∧ (row_tx row1 ∉ disputed_txs s2).
Proof.
  intros Hsa Hw Hact1 Hk1 Hc Hact2 Hk2 Htx.
  pose proof (action_consistent _ _ _ Hsa Hact1) as Hs1.
  pose proof (cleaned_consistent _ _ Hs1 Hc) as Hsb.
  pose proof (cs_once sb Hsb) as Honce. apply NoDup_app in Honce as (_ & _ & Hd).
  pose proof (cs_once sa Hsa) as Honce. apply NoDup_app in Honce as (Hp & _ & _).
  pose proof (cap_nonneg sa Hsa) as Hcap.
  pose proof (action_exact sa row1 s1 Hsa Hw Hact1) as Hex1.
  destruct Hc as (p & d & Hsubp & Hsubd & ->).
  inversion Hex1 as [| |tx r a Hin Hr Ha Hl| |]; subst; try discriminate Hk1.
  inversion Hact2 as [| | |tx2 r2 a2 Hin2 Hr2 Ha2 Hl2|]; subst; try discriminate Hk2.
  cbn in Htx. subst tx2. cbn in Hr2, Ha2, Hin2, Hsubp, Hd |- *.
  rewrite lookup_insert_eq in Hr2. injection Hr2 as <-. cbn in Ha2 |- *.
  rewrite dict_get_set_eq in Ha2. injection Ha2 as <-. cbn.
  split_and!.
  - done.
  - intros c. unfold account_balance. cbn. rewrite !dict_get_set.
    case_decide; [subst c; rewrite Ha; cbn|split; reflexivity].
    destruct (cs_amount sa Hsa tx r Hr) as [Hr0 Hrg].
    pose proof (wp_amount 1 sa Hw tx r Hr) as Hrc.
    pose proof (wp_available 1 sa Hw _ a Ha) as [Hav1 Hav2].
    pose proof (wp_held 1 sa Hw _ a Ha) as [Hh1 Hh2].
    pose proof (cs_grid sa Hsa _ a Ha) as Hga.
    pose proof (wp_grid 1 sa Hw _ a Ha) as Hgh.
    assert (0 <= held_due (deposit_records sa) (client r) (disputed_txs sa))%Q as Hh0.
    { apply held_due_nonneg. intros tx' r' Hr'. by apply (cs_amount sa Hsa tx' r'). }
    change (inject_Z 1) with 1%Q in *.
    unfold dec_add, dec_sub. rewrite !dec_round_exact.
    + split; ring.
    + by apply on_grid_minus; [apply on_grid_plus|].
    + split; lra.
    + by apply on_grid_plus; [apply on_grid_minus|].
    + split; lra.
  - exists r. split; [done|]. by rewrite insert_insert_eq.
  - intros Hin'. apply (sublist_subseteq _ _ Hsubp) in Hin'.
    by apply (list_remove_NoDup_notin tx (posted_txs sa)).
  - by apply list_remove_NoDup_notin.
Qed.

Section round_trip.
Context {R : RandomGen} {L : RandomGenLaws R}.

(** X14.  While the balances have room for one more amount below 10^24, a
    dispute followed by the resolve of the same deposit gives every
    account its available and held funds back, leaves the deposit
    resolved and in neither pool, so that no later row can name it. *)
Theorem dispute_then_resolve s g row1 s1 g1 row2 s2 g2 :
  consistent s → within_precision 1 s →
  _dispute s g = Ok (Some row1, s1, g1) →
  _resolve s1 g1 = Ok (Some row2, s2, g2) →
  row_tx row2 = row_tx row1 →
  row_client row2 = row_client row1
  ∧ (∀ c, ((account_balance s2 c).1 == (account_balance s c).1)%Q
          ∧ ((account_balance s2 c).2 == (account_balance s c).2)%Q)
  ∧ (∃ r, deposit_records s !! row_tx row1 = Some r
          ∧ deposit_records s2
            = <[row_tx row1 := set_status r resolved]> (deposit_records s))
  ∧ (row_tx row1 ∉ posted_txs s2) ∧ (row_tx row1 ∉ disputed_txs s2).
Proof.
  intros Hs Hw Hd Hr Htx.
  destruct (dispute_spec s g) as (orow & s1' & g1' & E & H). rewrite Hd in E.
  injection E as <- <- <-. destruct H as [(sa & Hc & Hact1) Hk1].
  pose proof (cleaned_consistent _ _ Hs Hc) as Hsa.
  pose proof (within_cleaned 1 s sa Hs Hw Hc) as Hwa.
  pose proof (action_consistent _ _ _ Hsa Hact1) as Hs1.
  destruct (resolve_spec s1 g1) as (orow & s2' & g2' & E & H). rewrite Hr in E.
  injection E as <- <- <-. destruct H as [(sb & Hc2 & Hact2) Hk2].
  destruct (dispute_resolve_actions sa row1 s1 sb row2 s2 Hsa Hwa Hact1 Hk1 Hc2
              Hact2 Hk2 Htx) as (H1 & H2 & H3 & H4 & H5).
  apply cleaned_accounts in Hc as (Hacc & Hrec & _).
  split_and!; try done.
  - intros c. unfold account_balance in *. rewrite <- Hacc. apply H2.
  - by rewrite <- Hrec.
Qed.
End round_trip.

Lemma dispute_then_resolve_witness :
  ∃ row1 s1 g1 row2 s2 g2,
    let s := default Scripted.disputed_builder
               (builder_at (R := Scripted.lockout_rng) 5 1 Scripted.sample_args [1]) in
    _dispute (R := Scripted.lockout_rng) s [0; 0] = Ok (Some row1, s1, g1)
    ∧ _resolve (R := Scripted.lockout_rng) s1 g1 = Ok (Some row2, s2, g2)
    ∧ row_client row2 = row_client row1
    ∧ (∀ c, ((account_balance s2 c).1 == (account_balance s c).1)%Q
            ∧ ((account_balance s2 c).2 == (account_balance s c).2)%Q)
    ∧ (∃ r, deposit_records s !! row_tx row1 = Some r
            ∧ deposit_records s2
              = <[row_tx row1 := set_status r resolved]> (deposit_records s))
    ∧ (row_tx row1 ∉ posted_txs s2) ∧ (row_tx row1 ∉ disputed_txs s2).
Proof.
  eexists _, _, _, _, _, _. cbv zeta.
  split; [vm_compute; reflexivity|]. split; [vm_compute; reflexivity|].
  eapply (@dispute_then_resolve Scripted.lockout_rng (tape_laws _) _ [0; 0]).
  - apply (@builder_at_consistent Scripted.lockout_rng (tape_laws _)
             5%nat 1%nat Scripted.sample_args [1]).
    vm_compute. reflexivity.
  - apply (@builder_at_within Scripted.lockout_rng (tape_laws _)
             5%nat 1%nat 1 Scripted.sample_args [1]);
      [vm_compute; reflexivity | vm_compute; reflexivity | lia].
  - vm_compute. reflexivity.
  - vm_compute. reflexivity.
  - reflexivity.
Defined.

(** ** The amount column *)

Lemma string_app_length (s t : string) :
  String.length (s +:+ t) = (String.length s + String.length t)%nat.
Proof. induction s as [|c s IH]; [done | simpl; congruence]. Qed.

Lemma string_app_inj (s1 s2 t1 t2 : string) :
  String.length t1 = String.length t2 → s1 +:+ t1 = s2 +:+ t2 →
  s1 = s2 ∧ t1 = t2.
Proof.
  revert s2. induction s1 as [|c s1 IH]; intros [|c2 s2] Hl H.
  - done.
  - change (t1 = String c2 (s2 +:+ t2)) in H. subst t1. simpl in Hl.
    rewrite string_app_length in Hl. lia.
  - change (String c (s1 +:+ t1) = t2) in H. subst t2. simpl in Hl.
    rewrite string_app_length in Hl. lia.
  - injection H as -> H. destruct (IH s2 Hl H) as [-> ->]. done.
Qed.

Lemma four_digits_inj m n :
  (m < 10000)%N → (n < 10000)%N → four_digits m = four_digits n → m = n.
Proof.
  intros Hm Hn. unfold four_digits. intros [= H1 H2 H3 H4].
  apply pretty_N_char_inj in H1; [|zify; Z.to_euclidean_division_equations; lia..].
  apply pretty_N_char_inj in H2; [|zify; Z.to_euclidean_division_equations; lia..].
  apply pretty_N_char_inj in H3; [|zify; Z.to_euclidean_division_equations; lia..].
  apply pretty_N_char_inj in H4; [|zify; Z.to_euclidean_division_equations; lia..].
  zify. Z.to_euclidean_division_equations. lia.
Qed.

(** On a non-negative multiple of 0.0001 the rendering prints the number
    of units: the integral part, the point and four digits. *)
Lemma format_units a n :
  (a == inject_Z n * BPS)%Q → 0 ≤ n →
  format_amount a
  = pretty (Z.to_N n / 10000)%N +:+ "." +:+ four_digits (Z.to_N n `mod` 10000)%N.
Proof.
  intros Ha Hn. unfold format_amount.
  assert (Qlt_bool a 0 = false) as ->.
  { apply Qlt_bool_false. rewrite Ha. apply units_nonneg. done. }
  rewrite (round_half_even_comp (a / BPS) (inject_Z n)), round_half_even_Z.
  - by rewrite Z.abs_eq.
  - rewrite Ha. apply units_div_BPS.
Qed.

Lemma on_grid_nonneg a :
  on_grid a → (0 <= a)%Q → ∃ n, 0 ≤ n ∧ (a == inject_Z n * BPS)%Q.
Proof.
  intros [n Hn] H0. exists n. split; [|done]. rewrite Hn in H0.
  rewrite Zle_Qle. change (inject_Z 0) with 0%Q. unfold BPS in H0. lra.
Qed.

(** X15.  The rendering loses nothing of an amount that the generator emits:
    two non-negative multiples of 0.0001 with the same text are equal. *)
Theorem format_amount_faithful a b :
  on_grid a → (0 <= a)%Q → on_grid b → (0 <= b)%Q →
  format_amount a = format_amount b → (a == b)%Q.
Proof.
  intros Hga H0a Hgb H0b.
  destruct (on_grid_nonneg a Hga H0a) as (m & Hm & Ha).
  destruct (on_grid_nonneg b Hgb H0b) as (n & Hn & Hb).
  rewrite (format_units a m Ha Hm), (format_units b n Hb Hn).
  intros [Hq Hr]%string_app_inj; [|done].
  apply (inj pretty) in Hq. apply string_app_inj in Hr as [_ Hr]; [|done].
  apply four_digits_inj in Hr; [|by apply N.mod_lt..].
  assert (m = n) as -> by (zify; Z.to_euclidean_division_equations; lia).
  by rewrite Ha, Hb.
Qed.

Section amount_text.
Context {R : RandomGen} {L : RandomGenLaws R}.

(** X16.  The amount column of a row is empty for a dispute, a resolve and a
    chargeback; for a deposit and a withdrawal it holds the amount, a
    whole number [n] of units of 0.0001, as the integral part of
    [n / 10000], a point and the four digits of [n mod 10000]. *)
Theorem amount_column fuel s g row s' g' :
  consistent s → next_row fuel s g = Ok (row, s', g') →
  if is_money row
  then ∃ amt n, row_amount row = Some amt ∧ 0 ≤ n ∧ (amt == inject_Z n * BPS)%Q
                ∧ row_text row
                  = pretty (Z.to_N n / 10000)%N +:+ "."
                    +:+ four_digits (Z.to_N n `mod` 10000)%N
  else row_text row = "".
Proof.
  intros Hs (s1 & Hc & Ha)%next_row_step; [|done].
  pose proof (action_shape s1 row s' (cleaned_consistent _ _ Hs Hc) Ha) as H.
  destruct (is_money row).
  - destruct H as (amt & Hamt & Hg & H0 & _).
    destruct (on_grid_nonneg amt Hg H0) as (n & Hn & E).
    exists amt, n. split_and!; [done..|]. unfold row_text. rewrite Hamt.
    by apply format_units.
  - destruct H as (Hamt & _). unfold row_text. by rewrite Hamt.
Qed.
End amount_text.

Lemma amount_column_witness :
  ∃ row s' g',
    next_row (R := Scripted.lockout_rng) 5 Scripted.after_dispute [0; 0; 12345]
    = Ok (row, s', g')
    ∧ row_text row = "2.2345"
    ∧ if is_money row
      then ∃ amt n, row_amount row = Some amt ∧ 0 ≤ n ∧ (amt == inject_Z n * BPS)%Q
                    ∧ row_text row
                      = pretty (Z.to_N n / 10000)%N +:+ "."
                        +:+ four_digits (Z.to_N n `mod` 10000)%N
      else row_text row = "".
Proof.
  eexists _, _, _. split; [vm_compute; reflexivity|]. split; [vm_compute; reflexivity|].
  eapply (@amount_column Scripted.lockout_rng (tape_laws _)
            5%nat Scripted.after_dispute [0; 0; 12345]).
  - apply after_dispute_consistent.
  - vm_compute. reflexivity.
Defined.

Lemma format_amount_faithful_witness :
  (10005 # 10000 == 2001 # 2000)%Q.
Proof.
  apply (format_amount_faithful (10005 # 10000) (2001 # 2000)).
  - exists 10005. reflexivity.
  - discriminate.
  - exists 10005. reflexivity.
  - discriminate.
  - vm_compute. reflexivity.
Defined.

(** ** Longer runs *)

Section longer_runs.
Context {R : RandomGen}.

Lemma write_rows_prefix fuel n m s g :
  (n ≤ m)%nat →
  (write_rows fuel n s g).1.1 `prefix_of` (write_rows fuel m s g).1.1.
Proof.
  revert m s g. induction n as [|n IH]; intros m s g Hnm.
  - apply prefix_nil.
  - destruct m as [|m]; [lia|]. cbn [write_rows].
    destruct (next_row fuel s g) as [[[row s'] g']| |]; [|done..].
    specialize (IH m s' g' ltac:(lia)).
    destruct (write_rows fuel n s' g') as [[rows1 s1] o1].
    destruct (write_rows fuel m s' g') as [[rows2 s2] o2]. simpl in *.
    by apply prefix_cons.
Qed.

(** X17.  Asking for more rows only extends the output: with the other options
    and the state of the generator at start-up unchanged, what a run
    writes is the beginning of what the run with a larger [--rows]
    writes. *)
Theorem more_rows_extend fuel args more g0 :
  args_rows args ≤ more →
  (main fuel args g0).1
  `prefix_of`
  (main fuel {| args_rows := more; args_clients := args_clients args;
                args_min_amount := args_min_amount args;
                args_max_amount := args_max_amount args;
                args_seed := args_seed args |} g0).1.
Proof.
  intros Hle. unfold main.
  change (FeedBuilder_init {| args_rows := more; args_clients := args_clients args;
                              args_min_amount := args_min_amount args;
                              args_max_amount := args_max_amount args;
                              args_seed := args_seed args |} g0)
    with (FeedBuilder_init args g0).
  destruct (FeedBuilder_init args g0) as [[s0 g]| |]; [|done..]. cbn [args_rows].
  pose proof (write_rows_prefix fuel (Z.to_nat (Z.max 1 (args_rows args) - 1))
                (Z.to_nat (Z.max 1 more - 1)) s0 g ltac:(lia)) as Hp.
  destruct (write_rows fuel (Z.to_nat (Z.max 1 (args_rows args) - 1)) s0 g)
    as [[rows1 s1] o1].
  destruct (write_rows fuel (Z.to_nat (Z.max 1 more - 1)) s0 g) as [[rows2 s2] o2].
  simpl in *. apply prefix_cons. destruct Hp as [k ->]. exists (Data <$> k).
  by rewrite fmap_app.
Qed.
End longer_runs.

Lemma more_rows_extend_witness :
  (main (R := Scripted.lockout_rng) 5 Scripted.sample_args [1]).1
  `prefix_of`
  (main (R := Scripted.lockout_rng) 5
     {| args_rows := 9; args_clients := args_clients Scripted.sample_args;
        args_min_amount := args_min_amount Scripted.sample_args;
        args_max_amount := args_max_amount Scripted.sample_args;
        args_seed := args_seed Scripted.sample_args |} [1]).1.
Proof.
  apply (@more_rows_extend Scripted.lockout_rng 5%nat Scripted.sample_args 9 [1]).
  vm_compute. discriminate.
Defined.
